(** * A declarative UI control framework: the core runtime, embedded in Rocq

    The first part is the model, one module per subsystem of the
    repository; the second part holds the properties, in modules of the
    same names followed by [Facts]:

    - [JS]        values and plain objects shared by all subsystems;
    - [Store]     [StateManager]  (client/src/core/state-manager.js);
    - [Events]    [EventHandler]  (client/src/core/event-handler.js);
    - [Template]  [ContextRenderer] (client/src/core/event-handler.js);
    - [Factory]   [Validation] and [ControlFactory]
                  (client/src/controls/base-control.js,
                   client/src/core/control-factory.js);
    - [Lifecycle] [Control] (client/src/controls/base-control.js);
    - [Data]      [DataManager] (client/src/core/data-manager.js).

    Mutable singletons are records threaded through the operations;
    JavaScript exceptions are the [Thrown] outcome; callbacks supplied by
    client code are observers identified by a number, whose invocations are
    appended to a log carried by the state. *)

From Stdlib Require Import ZArith Ascii.
From stdpp Require Import gmap strings list pretty.

Set Warnings "-register-all".

Open Scope string_scope.
Open Scope list_scope.

(** * Part I: the model *)

(** ** JavaScript values and plain objects *)

Module JS.
(** Values.  Application data are primitive: numbers are the integers
    that print in plain decimal notation, fractions are outside the
    model.  [VMember name] is the member of that name which every plain
    object inherits from [Object.prototype]: a native function, or, for
    [__proto__], the prototype object itself. *)
Inductive value :=
| VUndefined
| VNull
| VBool (b : bool)
| VNum (n : Z)
| VStr (s : string)
| VMember (name : string).

#[export] Instance value_eq_dec : EqDecision value.
Proof. solve_decision. Defined.

(** A plain object used as a dictionary: own properties in insertion
    order, which is the order [Object.keys] enumerates them in (keys that
    are array indices, which come first in JavaScript, are not treated
    apart). *)
Definition jsobject := list (string * value).

(** The own property [k] of [o], [undefined] when there is none: what
    [o[k]] yields behind a [hasOwnProperty] test and for the keys
    [Object.keys] lists. *)
Fixpoint obj_get (k : string) (o : jsobject) : value :=
  match o with
  | [] => VUndefined
  | (k', v) :: o' => if String.eqb k k' then v else obj_get k o'
  end.

(** [o.hasOwnProperty(k)] *)
Fixpoint obj_has (k : string) (o : jsobject) : bool :=
  match o with
  | [] => false
  | (k', _) :: o' => String.eqb k k' || obj_has k o'
  end.

(** [o[k] = v]: an existing property keeps its position, a new one is
    appended. *)
Fixpoint obj_set (k : string) (v : value) (o : jsobject) : jsobject :=
  match o with
  | [] => [(k, v)]
  | (k', v') :: o' =>
      if String.eqb k k' then (k', v) :: o' else (k', v') :: obj_set k v o'
  end.

(** [delete o[k]] *)
Fixpoint obj_delete (k : string) (o : jsobject) : jsobject :=
  match o with
  | [] => []
  | (k', v') :: o' =>
      if String.eqb k k' then o' else (k', v') :: obj_delete k o'
  end.

(** [Object.keys(o)] *)
Definition obj_keys (o : jsobject) : list string := map fst o.

(** [{ ...a, ...b }] *)
Definition obj_spread (a b : jsobject) : jsobject :=
  fold_left (fun acc kv => obj_set (fst kv) (snd kv) acc) b a.

(** The names a plain object inherits from [Object.prototype]; reading
    one of them from an object that has no such property of its own
    yields the inherited member instead of [undefined]. *)
Definition objectPrototypeNames : list string :=
  [ "constructor"; "__defineGetter__"; "__defineSetter__"; "hasOwnProperty";
    "__lookupGetter__"; "__lookupSetter__"; "isPrototypeOf"; "propertyIsEnumerable";
    "toString"; "valueOf"; "__proto__"; "toLocaleString" ].

Definition inherited (key : string) : bool :=
  existsb (String.eqb key) objectPrototypeNames.

(** [o[k]] for any key, on an object whose prototype is
    [Object.prototype]: the own property, else the inherited member when
    [k] names one, else [undefined]. *)
Definition obj_read (k : string) (o : jsobject) : value :=
  if obj_has k o then obj_get k o
  else if inherited k then VMember k else VUndefined.

(** What [String(v)] prints for an inherited member, in the wording of
    V8: a native function under the name it was declared with, the
    prototype object for [__proto__]. *)
Definition memberText (name : string) : string :=
  if String.eqb name "__proto__" then "[object Object]"
  else "function "
       +:+ (if String.eqb name "constructor" then "Object" else name)
       +:+ "() { [native code] }".

(** An object none of whose own properties has such a name: its reads and
    writes are those of a dictionary, [o.hasOwnProperty] is the inherited
    method and no assignment has reached the [__proto__] accessor. *)
Definition plainKeys (o : jsobject) : bool :=
  forallb (fun k => negb (inherited k)) (obj_keys o).

(** The integers a number holds exactly, which print digit for digit:
    [Number.isSafeInteger]. *)
Definition safeInteger (n : Z) : bool :=
  (Z.abs n <=? 9007199254740991)%Z.

(** The outcome of a call that may throw. *)
Inductive outcome (A : Type) :=
| Returned (a : A)
| Thrown (error : string).
Arguments Returned {A} a.
Arguments Thrown {A} error.

End JS.

(** ** The reactive store: [StateManager] *)

Module Store.
Import JS.

(** A subscriber callback.  The model identifies the function object by
    [cb_id]; calling it records the call, and it may throw. *)
Record callback := Callback { cb_id : nat; cb_throws : bool }.

(** One change of a batched update. *)
Record change := Change { ch_key : string; ch_old : value; ch_new : value }.

(** The payload handed to global listeners. *)
Inductive eventData :=
| ESetState (key : string) (v oldValue : value)
| ERemoveState (key : string) (oldValue : value)
| EClearState (oldState : jsobject)
| EUpdateState (changes : list change)
| EImportState (oldState newState : jsobject)
| ERestoreSnapshot (snapshotId : string) (oldState newState : jsobject).

(** History entries; the wall-clock [timestamp] field is left out. *)
Inductive historyEntry :=
| HSetState (key : string) (oldValue newValue : value)
| HRemoveState (key : string) (oldValue : value)
| HClearState (oldState : jsobject)
| HUpdateState (changes : list change)
| HImportState (oldState newState : jsobject)
| HRestoreSnapshot (snapshotId : string) (oldState newState : jsobject).

(** A callback invocation, as observed from outside. *)
Inductive call :=
| KeyCall (cb : nat) (newValue oldValue : value) (key : string)
| GlobalCall (cb : nat) (ev : eventData).

Record StateManager := mkStore {
  state : jsobject;
  listeners : gmap string (list callback);
  globalListeners : list callback;
  history : list historyEntry;
  calls : list call;          (* every callback invocation so far, oldest first *)
  caught : nat                (* exceptions swallowed by the try/catch blocks *)
}.

Definition maxHistorySize : nat := 50.

Definition initial : StateManager :=
  mkStore [] ∅ [] [] [] 0.

Definition with_state (o : jsobject) (s : StateManager) : StateManager :=
  mkStore o (listeners s) (globalListeners s) (history s) (calls s) (caught s).

(** [addToHistory]: push, then drop the oldest entry past the capacity. *)
Definition addToHistory (e : historyEntry) (s : StateManager) : StateManager :=
  let h := history s ++ [e] in
  let h' := if decide (maxHistorySize < length h) then tail h else h in
  mkStore (state s) (listeners s) (globalListeners s) h' (calls s) (caught s).

(** One iteration of a notification loop: the callback runs (the call is
    recorded) and an exception it throws is caught. *)
Definition invoke (c : call) (throws : bool) (s : StateManager) : StateManager :=
  mkStore (state s) (listeners s) (globalListeners s) (history s)
          (calls s ++ [c]) (if throws then S (caught s) else caught s).

Definition notifyStateChange (key : string) (v oldValue : value)
    (s : StateManager) : StateManager :=
  match listeners s !! key with
  | Some callbacks =>
      fold_left (fun acc cb => invoke (KeyCall (cb_id cb) v oldValue key) (cb_throws cb) acc)
                callbacks s
  | None => s
  end.

Definition notifyGlobalListeners (ev : eventData) (s : StateManager) : StateManager :=
  fold_left (fun acc cb => invoke (GlobalCall (cb_id cb) ev) (cb_throws cb) acc)
            (globalListeners s) s.

Definition getState (key : string) (s : StateManager) : value :=
  obj_read key (state s).

Definition getAllState (s : StateManager) : jsobject := state s.

Definition hasKey (key : string) (s : StateManager) : bool :=
  obj_has key (state s).

Definition setState (key : string) (v : value) (s : StateManager) : StateManager :=
  let oldValue := obj_read key (state s) in
  let s1 := with_state (obj_set key v (state s)) s in
  let s2 := addToHistory (HSetState key oldValue v) s1 in
  let s3 := notifyStateChange key v oldValue s2 in
  notifyGlobalListeners (ESetState key v oldValue) s3.

(** [subscribe]: the callback is pushed at the end of the key's array. *)
Definition subscribe (key : string) (cb : callback) (s : StateManager) : StateManager :=
  let old := default [] (listeners s !! key) in
  mkStore (state s) (<[key := old ++ [cb]]> (listeners s)) (globalListeners s)
          (history s) (calls s) (caught s).

Definition subscribeGlobal (cb : callback) (s : StateManager) : StateManager :=
  mkStore (state s) (listeners s) (globalListeners s ++ [cb])
          (history s) (calls s) (caught s).

Definition removeState (key : string) (s : StateManager) : StateManager :=
  let oldValue := obj_read key (state s) in
  let s1 := with_state (obj_delete key (state s)) s in
  let s2 := addToHistory (HRemoveState key oldValue) s1 in
  let s3 := notifyStateChange key VUndefined oldValue s2 in
  notifyGlobalListeners (ERemoveState key oldValue) s3.

(** The object returned by [exportState] / [createSnapshot]; [ex_state] is
    [None] when the [state] property is missing. *)
Record exported := Exported { ex_state : option jsobject; ex_id : string }.

Definition exportState (s : StateManager) : exported :=
  Exported (Some (getAllState s)) EmptyString.

Definition createSnapshot (id : string) (s : StateManager) : exported :=
  Exported (Some (state s)) id.

(** Notify the subscribers of each key of [keys], in order, with the value
    the key has in the current state and the one it had in [oldState]. *)
Definition notifyKeys (keys : list string) (oldState : jsobject)
    (s : StateManager) : StateManager :=
  fold_left (fun acc key =>
               notifyStateChange key (obj_read key (state acc)) (obj_read key oldState) acc)
            keys s.

(** [importState]: only the keys of the new state are walked. *)
Definition importState (exportedData : option exported) (s : StateManager)
    : bool * StateManager :=
  match exportedData with
  | None => (false, s)
  | Some data =>
      match ex_state data with
      | None => (false, s)
      | Some newState =>
          let oldState := getAllState s in
          let s1 := with_state (obj_spread [] newState) s in
          let s2 := addToHistory (HImportState oldState (state s1)) s1 in
          let s3 := notifyKeys (obj_keys (state s2)) oldState s2 in
          (true, notifyGlobalListeners (EImportState oldState (state s3)) s3)
      end
  end.

(** [new Set([...a, ...b])]: first occurrences, in order. *)
Fixpoint dedupe (seen : list string) (l : list string) : list string :=
  match l with
  | [] => []
  | k :: l' => if bool_decide (k ∈ seen) then dedupe seen l'
               else k :: dedupe (k :: seen) l'
  end.

(** [restoreSnapshot]: the keys of the old and of the new state are walked. *)
Definition restoreSnapshot (snapshot : option exported) (s : StateManager)
    : bool * StateManager :=
  match snapshot with
  | None => (false, s)
  | Some snap =>
      match ex_state snap with
      | None => (false, s)
      | Some newState =>
          let oldState := getAllState s in
          let s1 := with_state (obj_spread [] newState) s in
          let s2 := addToHistory (HRestoreSnapshot (ex_id snap) oldState (state s1)) s1 in
          let allKeys := dedupe [] (obj_keys oldState ++ obj_keys (state s2)) in
          let s3 := notifyKeys allKeys oldState s2 in
          (true, notifyGlobalListeners
                   (ERestoreSnapshot (ex_id snap) oldState (state s3)) s3)
      end
  end.

(** The calls a notification loop over [cbs] appends. *)
Definition keyCalls (key : string) (v oldValue : value) (cbs : list callback) : list call :=
  map (fun cb => KeyCall (cb_id cb) v oldValue key) cbs.

Definition globalCalls (ev : eventData) (cbs : list callback) : list call :=
  map (fun cb => GlobalCall (cb_id cb) ev) cbs.

(** The per-key subscribers of [key], in registration order. *)
Definition subscribers (key : string) (s : StateManager) : list callback :=
  default [] (listeners s !! key).

(** A store with two subscribers of ["total"] and one global subscriber. *)
Definition sampleStore : StateManager :=
  subscribeGlobal (Callback 9 false)
    (subscribe "total" (Callback 2 true)
       (subscribe "total" (Callback 1 false) initial)).

(** A store whose key ["a"] has a subscriber; the imported state holds
    only ["b"]. *)
Definition storeWithA : StateManager :=
  subscribe "a" (Callback 1 false) (setState "a" (VNum 1) initial).

Definition onlyB : exported := Exported (Some [("b", VNum 2)]) "snap".

(** *** Further operations of the store *)

(** [callbacks.indexOf(callback)] then [splice]: the first occurrence of
    the function object goes. *)
Fixpoint removeFirst (id : nat) (cbs : list callback) : list callback :=
  match cbs with
  | [] => []
  | cb :: rest => if Nat.eqb (cb_id cb) id then rest else cb :: removeFirst id rest
  end.

(** The function [subscribe] returns. *)
Definition unsubscribe (key : string) (cb : callback) (s : StateManager) : StateManager :=
  match listeners s !! key with
  | Some callbacks =>
      mkStore (state s) (<[key := removeFirst (cb_id cb) callbacks]> (listeners s))
              (globalListeners s) (history s) (calls s) (caught s)
  | None => s
  end.

(** One iteration of the first loop of [updateState]: a key whose value
    differs is written and collected as a change. *)
Definition updateStep (updates : jsobject) (acc : jsobject * list change)
    (key : string) : jsobject * list change :=
  let oldValue := obj_read key (fst acc) in
  let newValue := obj_get key updates in
  if decide (oldValue = newValue) then acc
  else (obj_set key newValue (fst acc),
        snd acc ++ [Change key oldValue newValue]).

Definition collectChanges (updates : jsobject) (current : jsobject)
    : jsobject * list change :=
  fold_left (updateStep updates) (obj_keys updates) (current, []).

(** [updateState] *)
Definition updateState (updates : jsobject) (s : StateManager) : StateManager :=
  let '(st, changes) := collectChanges updates (state s) in
  let s1 := with_state st s in
  match changes with
  | [] => s1
  | _ =>
      let s2 := addToHistory (HUpdateState changes) s1 in
      let s3 :=
        fold_left (fun acc ch => notifyStateChange (ch_key ch) (ch_new ch) (ch_old ch) acc)
                  changes s2 in
      notifyGlobalListeners (EUpdateState changes) s3
  end.

(** [clearState] *)
Definition clearState (s : StateManager) : StateManager :=
  let oldState := state s in
  let s1 := with_state [] s in
  let s2 := addToHistory (HClearState oldState) s1 in
  let s3 :=
    fold_left (fun acc key => notifyStateChange key VUndefined (obj_get key oldState) acc)
              (obj_keys oldState) s2 in
  notifyGlobalListeners (EClearState oldState) s3.

(** The calls made while the keys of [keys] are notified in turn. *)
Definition callsFor (keys : list string) (newState oldState : jsobject)
    (s : StateManager) : list call :=
  flat_map (fun key => keyCalls key (obj_read key newState) (obj_read key oldState)
                                (subscribers key s)) keys.

End Store.

(** ** String primitives of the host language *)

Module Str.
(** [hay.includes(needle)] *)
Fixpoint includes (needle hay : string) : bool :=
  String.prefix needle hay ||
  match hay with
  | EmptyString => false
  | String _ hay' => includes needle hay'
  end.

(** [s.split(c)[0]]: the text before the first [c]. *)
Fixpoint before (c : ascii) (s : string) : string :=
  match s with
  | EmptyString => EmptyString
  | String a s' => if Ascii.eqb a c then EmptyString else String a (before c s')
  end.

(** The rest of [s] from its first [c] on (empty when [c] does not occur). *)
Fixpoint from (c : ascii) (s : string) : string :=
  match s with
  | EmptyString => EmptyString
  | String a s' => if Ascii.eqb a c then s else from c s'
  end.

(** [s.slice(1)] *)
Definition slice1 (s : string) : string :=
  match s with
  | EmptyString => EmptyString
  | String _ s' => s'
  end.

(** [parts.join(sep)] *)
Fixpoint join (sep : string) (parts : list string) : string :=
  match parts with
  | [] => EmptyString
  | [p] => p
  | p :: ps => p +:+ sep +:+ join sep ps
  end.

(** [!s] for a string: only the empty string is falsy. *)
Definition falsy (s : string) : bool :=
  match s with EmptyString => true | _ => false end.

End Str.

(** ** The event registry: [EventHandler] *)

Module Events.
Import JS.

(** Function objects.  A client function is identified by a number.  A
    wrapper is the closure built by [bootstrapHandler] or
    [bootstrapDelegationHandler]: [w_ref] is its identity as an object,
    the other fields are what it closes over, plus its [oneOff] property. *)
Inductive func :=
| ClientFn (id : nat)
| WrapperFn (w : wrapper)
with wrapper :=
| Wrapper (w_ref : nat) (w_element : nat) (w_selector : option string)
          (w_fn : func) (w_oneOff : bool).

Definition w_ref (w : wrapper) : nat := let 'Wrapper r _ _ _ _ := w in r.
Definition w_fn (w : wrapper) : func := let 'Wrapper _ _ _ f _ := w in f.
Definition w_selector (w : wrapper) : option string := let 'Wrapper _ _ s _ _ := w in s.
Definition w_oneOff (w : wrapper) : bool := let 'Wrapper _ _ _ _ o := w in o.
Definition w_element (w : wrapper) : nat := let 'Wrapper _ e _ _ _ := w in e.

(** [handler === delegationHandler]: identity of function objects. *)
Definition same_func (handler : func) (delegationHandler : wrapper) : bool :=
  match handler with
  | ClientFn _ => false
  | WrapperFn w => Nat.eqb (w_ref w) (w_ref delegationHandler)
  end.

(** A node of the render target, as far as the registry looks at it. *)
Record element := Element {
  uidEvent : option nat;                 (* the [uidEvent] property *)
  attached : list (string * wrapper);    (* [addEventListener] registrations *)
  parentNode : option nat
}.

Record EventHandler := mkEH {
  eventRegistry : gmap nat (gmap string (gmap string (list wrapper)));
  uidCounter : nat;                      (* the static [uidEvent] counter *)
  nextRef : nat;                         (* identity of the next closure *)
  dom : gmap nat element;
  invoked : list (nat * string)          (* client function, event type *)
}.

Definition initial : EventHandler := mkEH ∅ 1 0 ∅ [].

Definition blank : element := Element None [] None.

Definition elementAt (el : nat) (st : EventHandler) : element :=
  default blank (dom st !! el).

Definition with_registry r (st : EventHandler) : EventHandler :=
  mkEH r (uidCounter st) (nextRef st) (dom st) (invoked st).

Definition with_element (el : nat) (e : element) (st : EventHandler) : EventHandler :=
  mkEH (eventRegistry st) (uidCounter st) (nextRef st) (<[el := e]> (dom st)) (invoked st).

Definition bumpCounter (st : EventHandler) : EventHandler :=
  mkEH (eventRegistry st) (S (uidCounter st)) (nextRef st) (dom st) (invoked st).

Definition bumpRef (st : EventHandler) : EventHandler :=
  mkEH (eventRegistry st) (uidCounter st) (S (nextRef st)) (dom st) (invoked st).

Definition record (id : nat) (type : string) (st : EventHandler) : EventHandler :=
  mkEH (eventRegistry st) (uidCounter st) (nextRef st) (dom st) (invoked st ++ [(id, type)]).

Definition customEvents (type : string) : string :=
  if String.eqb type "mouseenter" then "mouseover"
  else if String.eqb type "mouseleave" then "mouseout"
  else type.

(** [normalizeEventType]: the type before the first dot (mapped through
    [customEvents]) and the namespace, which keeps its leading dot. *)
Definition normalizeEventType (event : string) : string * string :=
  (customEvents (Str.before "." event), Str.from "." event).

(** [selector || 'base'] *)
Definition selectorKey (selector : option string) : string :=
  match selector with
  | Some s => if Str.falsy s then "base" else s
  | None => "base"
  end.

(** [selector ? ... : ...] *)
Definition delegated (selector : option string) : bool :=
  match selector with
  | Some s => negb (Str.falsy s)
  | None => false
  end.

(** [getElementEvents]: gives the element a uid if it has none and makes
    sure the registry has an entry for it. *)
Definition getElementEvents (el : nat) (st : EventHandler) : nat * EventHandler :=
  let e := elementAt el st in
  let '(uid, st1) :=
    match uidEvent e with
    | Some u => (u, st)
    | None => (uidCounter st, bumpCounter st)
    end in
  let st2 := with_element el (Element (Some uid) (attached e) (parentNode e)) st1 in
  let events := default ∅ (eventRegistry st2 !! uid) in
  (uid, with_registry (<[uid := events]> (eventRegistry st2)) st2).

Definition addEventListener (el : nat) (type : string) (w : wrapper)
    (st : EventHandler) : EventHandler :=
  let e := elementAt el st in
  with_element el (Element (uidEvent e) (attached e ++ [(type, w)]) (parentNode e)) st.

(** [removeEventListener(type, w)] drops the registration of the function
    object [w] for [type]; [keeps] tells the registrations that stay. *)
Definition keeps (type : string) (w : wrapper) (entry : string * wrapper) : bool :=
  negb (String.eqb (fst entry) type && Nat.eqb (w_ref (snd entry)) (w_ref w)).

Definition removeEventListener (el : nat) (type : string) (w : wrapper)
    (st : EventHandler) : EventHandler :=
  let e := elementAt el st in
  with_element el
    (Element (uidEvent e) (List.filter (keeps type w) (attached e)) (parentNode e)) st.

(** [on(element, event, selector, handler, oneOff)] *)
Definition on (element : option nat) (event : string) (selector : option string)
    (handler : option func) (oneOff : bool) (st : EventHandler) : EventHandler :=
  match element, handler with
  | Some el, Some h =>
      if Str.falsy event then st else
      let '(type, namespace) := normalizeEventType event in
      let w := Wrapper (nextRef st) el selector h oneOff in
      let st1 := bumpRef st in
      (* delegationHandler.uidEvent = makeEventUid(element, type) *)
      let st2 :=
        if Str.falsy type then
          match uidEvent (elementAt el st1) with
          | Some _ => st1
          | None => bumpCounter st1
          end
        else bumpCounter st1 in
      let '(uid, st3) := getElementEvents el st2 in
      let events := default ∅ (eventRegistry st3 !! uid) in
      let eventKey := type +:+ namespace in
      let eventData := default ∅ (events !! eventKey) in
      let handlers := default [] (eventData !! selectorKey selector) in
      let eventData' := <[selectorKey selector := handlers ++ [w]]> eventData in
      let st4 := with_registry
                   (<[uid := <[eventKey := eventData']> events]> (eventRegistry st3)) st3 in
      addEventListener el type w st4
  | _, _ => st
  end.

(** The body of the [eventKeys.forEach] loop of [off]. *)
Definition offKey (el uid : nat) (type : string) (selector : option string)
    (handler : option func) (st : EventHandler) (eventKey : string) : EventHandler :=
  let events := default ∅ (eventRegistry st !! uid) in
  match events !! eventKey with
  | None => st
  | Some eventData =>
      let handlers := default [] (eventData !! selectorKey selector) in
      let detach acc w :=
        match handler with
        | None => removeEventListener el type w acc
        | Some h => if same_func h w then removeEventListener el type w acc else acc
        end in
      let st1 := fold_left detach handlers st in
      let eventData' :=
        match handler with
        | None => delete (selectorKey selector) eventData
        | Some h =>
            let kept := List.filter (fun w => negb (same_func h w)) handlers in
            match kept with
            | [] => delete (selectorKey selector) eventData
            | _ => <[selectorKey selector := kept]> eventData
            end
        end in
      let events' :=
        if decide (size eventData' = 0) then delete eventKey events
        else <[eventKey := eventData']> events in
      with_registry (<[uid := events']> (eventRegistry st1)) st1
  end.

(** [off] for an event name that is a non-empty string. *)
Definition offEvent (el : nat) (event : string) (selector : option string)
    (handler : option func) (st : EventHandler) : EventHandler :=
  let '(uid, st1) := getElementEvents el st in
  let isNamespaceEvent := Str.includes "." event in
  let type := fst (normalizeEventType event) in
  let keys := map fst (map_to_list (default ∅ (eventRegistry st1 !! uid))) in
  match keys with
  | [] => st1
  | _ =>
      let eventKeys :=
        if isNamespaceEvent then List.filter (Str.includes (Str.slice1 event)) keys
        else [type] in
      let st2 := fold_left (offKey el uid type selector handler) eventKeys st1 in
      if decide (size (default ∅ (eventRegistry st2 !! uid)) = 0)
      then with_registry (delete uid (eventRegistry st2)) st2
      else st2
  end.

(** [off(element, event, selector, handler)].  [event] is [None] when the
    argument is omitted: [event.includes] then throws, after
    [getElementEvents] has run.  For the empty string every registered
    event key is removed in turn. *)
Definition off (element : option nat) (event : option string)
    (selector : option string) (handler : option func) (st : EventHandler)
    : outcome unit * EventHandler :=
  match element with
  | None => (Returned (), st)
  | Some el =>
      match event with
      | None =>
          (Thrown "TypeError: Cannot read properties of undefined (reading 'includes')",
           snd (getElementEvents el st))
      | Some ev =>
          if Str.falsy ev then
            let '(uid, st1) := getElementEvents el st in
            let keys := map fst (map_to_list (default ∅ (eventRegistry st1 !! uid))) in
            (Returned (),
             fold_left (fun acc eventType => offEvent el eventType None None acc) keys st1)
          else (Returned (), offEvent el ev selector handler st)
      end
  end.

(** [one] *)
Definition one (element : option nat) (event : string) (selector : option string)
    (handler : option func) (st : EventHandler) : EventHandler :=
  on element event selector handler true st.

(** [cleanupElement] *)
Definition cleanupElement (element : option nat) (st : EventHandler)
    : outcome unit * EventHandler :=
  match element with
  | None => (Returned (), st)
  | Some el =>
      match uidEvent (elementAt el st) with
      | None => (Returned (), st)
      | Some _ =>
          match off (Some el) None None None st with
          | (Thrown e, st1) => (Thrown e, st1)
          | (Returned _, st1) =>
              let e := elementAt el st1 in
              let reg := match uidEvent e with
                         | Some uid => delete uid (eventRegistry st1)
                         | None => eventRegistry st1
                         end in
              (Returned (),
               with_element el (Element None (attached e) (parentNode e))
                 (with_registry reg st1))
          end
      end
  end.

(** Calling a function object with an event of type [type] whose target
    is the element the listener is attached to.  A delegating wrapper
    looks for the target among the descendants matched by its selector,
    which never contain the element itself, so it calls nothing.  The
    other wrapper calls the function it closes over.  Its test
    [handler.oneOff] reads the property off the function expression named
    [handler], while [on] sets [oneOff] on the function [bind] returned
    for it, another object: the test is never true and the call of [off]
    behind it never runs, whatever [w_oneOff] is. *)
Fixpoint callFn (f : func) (type : string) (st : EventHandler) : EventHandler :=
  match f with
  | ClientFn id => record id type st
  | WrapperFn w => callWrapper w type st
  end
with callWrapper (w : wrapper) (type : string) (st : EventHandler) : EventHandler :=
  match w with
  | Wrapper _ el selector fn oneOff =>
      if delegated selector then st
      else callFn fn type st
  end.

Definition isAttached (el : nat) (type : string) (w : wrapper) (st : EventHandler) : bool :=
  existsb (fun entry => negb (keeps type w entry)) (attached (elementAt el st)).

(** Dispatch of an event of type [type] at [el]: the listeners attached to
    [el] for that type run in registration order, unless removed meanwhile.
    Propagation to other nodes is not part of the model. *)
Definition dispatchAt (el : nat) (type : string) (st : EventHandler) : EventHandler :=
  fold_left
    (fun acc entry =>
       if String.eqb (fst entry) type && isAttached el type (snd entry) acc
       then callWrapper (snd entry) type acc else acc)
    (attached (elementAt el st)) st.

(** *** Notions the properties are stated with *)

(** The handlers stored for a node under an event key and a selector key. *)
Definition handlersAt (st : EventHandler) (uid : nat) (eventKey selKey : string)
    : list wrapper :=
  default [] (default ∅ (default ∅ (eventRegistry st !! uid) !! eventKey) !! selKey).

(** The listeners attached to a node, in registration order. *)
Definition listenersOf (st : EventHandler) (el : nat) : list (string * wrapper) :=
  attached (elementAt el st).

(** Whether a function object is, or closes over, the wrapper with
    identity [r]. *)
Fixpoint mentions (r : nat) (f : func) : bool :=
  match f with
  | ClientFn _ => false
  | WrapperFn w => mentionsW r w
  end
with mentionsW (r : nat) (w : wrapper) : bool :=
  match w with
  | Wrapper r' _ _ fn _ => Nat.eqb r r' || mentions r fn
  end.

(** Every wrapper attached to [el] was allocated before the next closure. *)
Definition allocatedBefore (st : EventHandler) (el : nat) : bool :=
  forallb (fun entry => negb (mentionsW (nextRef st) (snd entry))) (listenersOf st el).

Scheme func_wrapper_ind := Induction for func Sort Prop
  with wrapper_func_ind := Induction for wrapper Sort Prop.

(** Two states that agree on what the registry stores, on the listeners
    attached to every node and on the calls made so far. *)
Definition sameView (a b : EventHandler) : Prop :=
  (∀ uid k s, handlersAt a uid k s = handlersAt b uid k s)
  ∧ (∀ el, listenersOf a el = listenersOf b el)
  ∧ invoked a = invoked b.

End Events.

(** ** The template engine: [ContextRenderer] *)

Module Template.
Import JS.

(** *** Character classes.  A character is a code unit below 256. *)

Definition code (c : ascii) : nat := nat_of_ascii c.

Local Open Scope nat_scope.

Definition isDigit (c : ascii) : bool := (48 <=? code c) && (code c <=? 57).

(** [\w] *)
Definition isWord (c : ascii) : bool :=
  isDigit c
  || ((65 <=? code c) && (code c <=? 90))
  || ((97 <=? code c) && (code c <=? 122))
  || (code c =? 95).

(** [\s] *)
Definition isSpace (c : ascii) : bool :=
  ((9 <=? code c) && (code c <=? 13)) || (code c =? 32) || (code c =? 160).

(** What [.] does not match. *)
Definition isLineTerminator (c : ascii) : bool := (code c =? 10) || (code c =? 13).

(** One character of [[\d\s+\-*/.()]]. *)
Definition isSafeChar (c : ascii) : bool :=
  isDigit c || isSpace c
  || (code c =? 43) || (code c =? 45) || (code c =? 42) || (code c =? 47)
  || (code c =? 46) || (code c =? 40) || (code c =? 41).

Fixpoint allChars (p : ascii → bool) (s : string) : bool :=
  match s with
  | EmptyString => true
  | String c s' => p c && allChars p s'
  end.

(** [/^[\d\s+\-*/.()]+$/.test(s)] *)
Definition isSafe (s : string) : bool := negb (Str.falsy s) && allChars isSafeChar s.

(** *** Global replacement with a callback *)

(** A pattern, tried at the start of a string: the captured group and the
    length of the match. *)
Definition matcher := string → option (string * nat).

(** The pieces [String.prototype.replace] cuts a string into: characters
    outside any match, and matches with their captured group. *)
Inductive segment :=
| Lit (c : ascii)
| Hole (matched capture : string).

(** Left-to-right scan; after a match the search resumes behind it ([skip]
    counts the characters of the current match still to be passed). *)
Fixpoint scan (m : matcher) (skip : nat) (s : string) : list segment :=
  match s with
  | EmptyString => []
  | String c s' =>
      match skip with
      | S k => scan m k s'
      | O =>
          match m s with
          | Some (capture, len) => Hole (String.substring 0 len s) capture :: scan m (len - 1) s'
          | None => Lit c :: scan m 0 s'
          end
      end
  end.

Definition source (seg : segment) : string :=
  match seg with
  | Lit c => String c EmptyString
  | Hole matched _ => matched
  end.

(** Things the renderer does besides computing a string. *)
Inductive effect :=
| Warned (message : string)           (* console.warn *)
| Evaluated (code : string)           (* Function(...)() on this source text *)
| Notified (watcher : nat) (changedKeys : list string).

Definition callbackOn (f : string → string → string * list effect) (seg : segment)
    : string * list effect :=
  match seg with
  | Lit c => (String c EmptyString, [])
  | Hole matched capture => f matched capture
  end.

Fixpoint assemble (pieces : list (string * list effect)) : string * list effect :=
  match pieces with
  | [] => (EmptyString, [])
  | (text, effects) :: rest =>
      let '(text', effects') := assemble rest in
      (text +:+ text', effects ++ effects')
  end.

(** [s.replace(/pattern/g, (match, group) => ...)] *)
Definition replaceWith (m : matcher) (f : string → string → string * list effect)
    (s : string) : string * list effect :=
  assemble (map (callbackOn f) (scan m 0 s)).

(** *** The four patterns *)

Fixpoint stripPrefix (p s : string) : option string :=
  match p, s with
  | EmptyString, _ => Some s
  | String a p', String b s' => if Ascii.eqb a b then stripPrefix p' s' else None
  | String _ _, EmptyString => None
  end.

(** The longest run of word characters at the start of [s], and the rest. *)
Fixpoint spanWord (s : string) : string * string :=
  match s with
  | EmptyString => (EmptyString, EmptyString)
  | String c s' =>
      if isWord c then let '(w, rest) := spanWord s' in (String c w, rest)
      else (EmptyString, s)
  end.

(** [opener(\w+)closer] for the three variable syntaxes
    [/#{(\w+)}/], [/\${(\w+)}/] and [/\{\{(\w+)\}\}/]. *)
Definition matchVar (opener closer : string) : matcher := fun s =>
  match stripPrefix opener s with
  | None => None
  | Some s1 =>
      let '(key, s2) := spanWord s1 in
      if Str.falsy key then None
      else match stripPrefix closer s2 with
           | None => None
           | Some _ =>
               Some (key, String.length opener + String.length key + String.length closer)
           end
  end.

(** The characters before the first [}] provided no line terminator
    comes first. *)
Fixpoint lazyUntilClose (s : string) : option string :=
  match s with
  | EmptyString => None
  | String c s' =>
      if Ascii.eqb c "}" then Some EmptyString
      else if isLineTerminator c then None
      else match lazyUntilClose s' with
           | Some e => Some (String c e)
           | None => None
           end
  end.

(** [/#{(.+?)}/]: at least one character, then as few as possible up to
    a closing brace. *)
Definition matchExpr : matcher := fun s =>
  match stripPrefix "#{" s with
  | Some (String c1 rest) =>
      if isLineTerminator c1 then None
      else match lazyUntilClose rest with
           | Some e => Some (String c1 e, 4 + String.length e)
           | None => None
           end
  | _ => None
  end.

(** *** Formatting *)

(** [formatValue] *)
Definition formatValue (v : value) : string :=
  match v with
  | VUndefined | VNull => EmptyString
  | VNum n => pretty n
  | VBool b => if b then "Yes" else "No"
  | VStr s => s
  | VMember name => memberText name
  end.

Definition hexDigit (n : nat) : ascii :=
  ascii_of_nat (if n <? 10 then 48 + n else 87 + n).

Definition quote : string := String (ascii_of_nat 34) EmptyString.

(** The escape of one character inside a JSON string. *)
Definition jsonEscape (c : ascii) : string :=
  let n := code c in
  if n =? 34 then String "\" quote
  else if n =? 92 then "\\"
  else if n =? 8 then "\b"
  else if n =? 9 then "\t"
  else if n =? 10 then "\n"
  else if n =? 12 then "\f"
  else if n =? 13 then "\r"
  else if n <? 32 then
    "\u00" +:+ String (hexDigit (n / 16)) (String (hexDigit (n mod 16)) EmptyString)
  else String c EmptyString.

Fixpoint jsonChars (s : string) : string :=
  match s with
  | EmptyString => EmptyString
  | String c s' => jsonEscape c +:+ jsonChars s'
  end.

Definition jsonString (s : string) : string := quote +:+ jsonChars s +:+ quote.

(** [JSON.stringify(v)] as text; [undefined] is what [replace] prints for
    the undefined result. *)
Definition jsonStringify (v : value) : string :=
  match v with
  | VUndefined => "undefined"
  | VNull => "null"
  | VBool b => if b then "true" else "false"
  | VNum n => pretty n
  | VStr s => jsonString s
  | VMember name => if String.eqb name "__proto__" then "{}" else "undefined"
  end.

(** *** Expressions *)

Definition startsWord (s : string) : bool :=
  match s with
  | String c _ => isWord c
  | EmptyString => false
  end.

(** [s.replace(new RegExp(`\\b${key}\\b`, 'g'), replacement)] for a key
    that is an identifier, as the keys of every context of this
    repository are (another key would be read as a pattern): the
    occurrences of [key] that are whole words are replaced.  [prevWord]
    tells whether the previous character is a word character.  The
    replacement is inserted as it is; the [$] patterns of [replace] could
    only occur in the JSON text of a string, which starts with a quote and
    so fails the filter of [evaluateExpression] either way. *)
Fixpoint replaceWord (key replacement : string) (prevWord : bool) (skip : nat)
    (s : string) : string :=
  match s with
  | EmptyString => EmptyString
  | String c s' =>
      match skip with
      | S k => replaceWord key replacement (isWord c) k s'
      | O =>
          match stripPrefix key s with
          | Some rest =>
              if negb prevWord && negb (startsWord rest) then
                replacement
                  +:+ replaceWord key replacement (isWord c) (String.length key - 1) s'
              else String c (replaceWord key replacement (isWord c) 0 s')
          | None => String c (replaceWord key replacement (isWord c) 0 s')
          end
      end
  end.

(** The first loop of [evaluateExpression]: every key of the context, in
    order, is replaced by the JSON text of its value. *)
Definition substituteContext (context : jsobject) (expression : string) : string :=
  fold_left (fun acc kv => replaceWord (fst kv) (jsonStringify (snd kv)) false 0 acc)
            context expression.

Section Host.

(** The host's evaluation of [Function(`"use strict"; return (${code})`)()];
    [Thrown] when the text does not parse or its evaluation throws. *)
Variable jsEval : string → outcome value.

(** [evaluateExpression] *)
Definition evaluateExpression (expression : string) (context : jsobject)
    : outcome value * list effect :=
  let evalExpression := substituteContext context expression in
  if isSafe evalExpression then
    match jsEval evalExpression with
    | Returned v => (Returned v, [Evaluated evalExpression])
    | Thrown _ =>
        (Thrown ("Invalid expression: " +:+ expression), [Evaluated evalExpression])
    end
  else (Thrown ("Unsafe expression: " +:+ expression), []).

(** The callback of the three variable passes. *)
Definition varCallback (mergedContext : jsobject) (matched key : string)
    : string * list effect :=
  if obj_has key mergedContext then (formatValue (obj_get key mergedContext), [])
  else (matched, [Warned ("ContextRenderer: Unknown context variable: " +:+ key)]).

(** The callback of the expression pass, with its try/catch. *)
Definition exprCallback (mergedContext : jsobject) (matched expression : string)
    : string * list effect :=
  match evaluateExpression expression mergedContext with
  | (Returned result, effects) => (formatValue result, effects)
  | (Thrown _, effects) =>
      (matched,
       effects ++ [Warned ("ContextRenderer: Error evaluating expression "
                           +:+ quote +:+ expression +:+ quote +:+ ":")])
  end.

Definition variablePass (opener closer : string) (mergedContext : jsobject)
    (s : string) : string * list effect :=
  replaceWith (matchVar opener closer) (varCallback mergedContext) s.

Definition expressionPass (mergedContext : jsobject) (s : string) : string * list effect :=
  replaceWith matchExpr (exprCallback mergedContext) s.

(** The four replacements of [render], in the order of the source. *)
Definition renderFresh (mergedContext : jsobject) (text : string) : string * list effect :=
  let '(r1, e1) := variablePass "#{" "}" mergedContext text in
  let '(r2, e2) := variablePass "${" "}" mergedContext r1 in
  let '(r3, e3) := variablePass "{{" "}}" mergedContext r2 in
  let '(r4, e4) := expressionPass mergedContext r3 in
  (r4, e1 ++ e2 ++ e3 ++ e4).

(** *** The renderer and its cache *)

Record watcher := Watcher {
  watch_id : nat;
  watch_keys : list string;
  watch_throws : bool
}.

Record ContextRenderer := mkRenderer {
  context : jsobject;
  watchers : list watcher;
  renderCache : list (string * string);   (* a [Map], in insertion order *)
  cacheEnabled : bool;
  effects : list effect
}.

Definition maxCacheSize : nat := 1000.

Definition withContext (ctx : jsobject) : ContextRenderer :=
  mkRenderer ctx [] [] true [].

Definition with_cache (cache : list (string * string)) (r : ContextRenderer) :=
  mkRenderer (context r) (watchers r) cache (cacheEnabled r) (effects r).

Definition with_context (ctx : jsobject) (r : ContextRenderer) :=
  mkRenderer ctx (watchers r) (renderCache r) (cacheEnabled r) (effects r).

Definition logged (es : list effect) (r : ContextRenderer) :=
  mkRenderer (context r) (watchers r) (renderCache r) (cacheEnabled r) (effects r ++ es).

Fixpoint cacheGet (key : string) (cache : list (string * string)) : option string :=
  match cache with
  | [] => None
  | (k, v) :: cache' => if String.eqb key k then Some v else cacheGet key cache'
  end.

Fixpoint cacheSet (key value : string) (cache : list (string * string)) :=
  match cache with
  | [] => [(key, value)]
  | (k, v) :: cache' =>
      if String.eqb key k then (k, value) :: cache' else (k, v) :: cacheSet key value cache'
  end.

Fixpoint insertSorted (k : string) (l : list string) : list string :=
  match l with
  | [] => [k]
  | k' :: l' => if String.leb k k' then k :: l else k' :: insertSorted k l'
  end.

(** [JSON.stringify(obj, Object.keys(obj).sort())]: properties that are
    undefined or functions are left out. *)
Definition hashObject (obj : jsobject) : string :=
  let keys := fold_right insertSorted [] (obj_keys obj) in
  let fields :=
    omap (fun k => match obj_get k obj with
                   | VUndefined => None
                   | VMember name =>
                       if String.eqb name "__proto__"
                       then Some (jsonString k +:+ ":{}") else None
                   | v => Some (jsonString k +:+ ":" +:+ jsonStringify v)
                   end) keys in
  "{" +:+ Str.join "," fields +:+ "}".

Definition createCacheKey (text : string) (customContext : jsobject) : string :=
  text +:+ "|" +:+ hashObject customContext.

(** [addToCache]: at capacity the oldest entry goes first. *)
Definition addToCache (key value : string) (r : ContextRenderer) : ContextRenderer :=
  let cache := if maxCacheSize <=? length (renderCache r)
               then tail (renderCache r) else renderCache r in
  with_cache (cacheSet key value cache) r.

Definition clearCache (r : ContextRenderer) : ContextRenderer := with_cache [] r.

(** Whether the text recovered from a cache key mentions [key] in one of
    the three variable syntaxes. *)
Definition references (text key : string) : bool :=
  Str.includes ("#{" +:+ key +:+ "}") text
  || Str.includes ("${" +:+ key +:+ "}") text
  || Str.includes ("{{" +:+ key +:+ "}}") text.

(** [invalidateCache]: the text of an entry is taken to be its cache key
    up to the first [|]. *)
Definition invalidateCache (changedKeys : list string) (r : ContextRenderer)
    : ContextRenderer :=
  match changedKeys with
  | [] => clearCache r
  | _ =>
      let affected (entry : string * string) :=
        let text := Str.before "|" (fst entry) in
        existsb (references text) changedKeys in
      with_cache (List.filter (fun entry => negb (affected entry)) (renderCache r)) r
  end.

(** [render] *)
Definition render (text : string) (customContext : jsobject) (r : ContextRenderer)
    : string * ContextRenderer :=
  let cacheKey := createCacheKey text customContext in
  match (if cacheEnabled r then cacheGet cacheKey (renderCache r) else None) with
  | Some cached => (cached, r)
  | None =>
      let mergedContext := obj_spread (context r) customContext in
      let '(rendered, es) := renderFresh mergedContext text in
      let r1 := logged es r in
      (rendered, if cacheEnabled r then addToCache cacheKey rendered r1 else r1)
  end.

(** [watch(keys, callback)] *)
Definition watch (w : watcher) (r : ContextRenderer) : ContextRenderer :=
  mkRenderer (context r) (watchers r ++ [w]) (renderCache r) (cacheEnabled r) (effects r).

(** [notifyWatchers]: the watchers of one of the changed keys are called,
    exceptions being caught. *)
Definition notifyWatchers (changedKeys : list string) (r : ContextRenderer)
    : ContextRenderer :=
  let concerned (w : watcher) :=
    existsb (fun key => bool_decide (key ∈ changedKeys)) (watch_keys w) in
  logged (map (fun w => Notified (watch_id w) changedKeys)
              (List.filter concerned (watchers r))) r.

(** [setContext]; the refresh of the context display is not modelled. *)
Definition setContext (key : string) (v : value) (r : ContextRenderer) : ContextRenderer :=
  let oldValue := obj_read key (context r) in
  let r1 := with_context (obj_set key v (context r)) r in
  if decide (oldValue = v) then r1
  else notifyWatchers [key] (invalidateCache [key] r1).

(** [updateContext] *)
Definition updateContext (updates : jsobject) (r : ContextRenderer) : ContextRenderer :=
  let '(ctx, changedKeys) :=
    fold_left (fun '(ctx, changed) kv =>
                 if decide (obj_read (fst kv) ctx = snd kv) then (ctx, changed)
                 else (obj_set (fst kv) (snd kv) ctx, changed ++ [fst kv]))
              updates (context r, []) in
  let r1 := with_context ctx r in
  match changedKeys with
  | [] => r1
  | _ => notifyWatchers changedKeys (invalidateCache changedKeys r1)
  end.

End Host.

(** *** Notions the properties are stated with *)

(** [s] without its first [n] characters. *)
Fixpoint dropS (n : nat) (s : string) : string :=
  match n, s with
  | O, _ => s
  | S k, String _ s' => dropS k s'
  | S _, EmptyString => EmptyString
  end.

(** The text the pieces of a scan were cut from. *)
Fixpoint concatSources (segs : list segment) : string :=
  match segs with
  | [] => EmptyString
  | seg :: segs' => source seg +:+ concatSources segs'
  end.

(** A pattern that consumes what it matches: the match is a non-empty
    prefix of the text. *)
Definition consuming (m : matcher) : Prop :=
  ∀ s capture len, m s = Some (capture, len) →
    1 ≤ len ∧ len ≤ String.length s.

(** Whether [s] starts with ["#{"], ["${"] or ["{{"]. *)
Definition opensAt (s : string) : bool :=
  match stripPrefix "#{" s, stripPrefix "${" s, stripPrefix "{{" s with
  | None, None, None => false
  | _, _, _ => true
  end.

(** Whether ["#{"], ["${"] or ["{{"] occurs somewhere in [s]. *)
Fixpoint hasOpener (s : string) : bool :=
  match s with
  | EmptyString => false
  | String _ s' => opensAt s || hasOpener s'
  end.

(** No suffix of [s] is matched by [m]. *)
Fixpoint quiet (m : matcher) (s : string) : Prop :=
  match s with
  | EmptyString => True
  | String _ s' => m s = None ∧ quiet m s'
  end.

(** A host on which every evaluation throws. *)
Definition rejectingHost : string → outcome value :=
  fun code => Thrown ("SyntaxError: " +:+ code).

(** A host that evaluates the one text ["5 + 1"], to 6. *)
Definition sumHost : string → outcome value :=
  fun code => if String.eqb code "5 + 1" then Returned (VNum 6)
              else Thrown ("SyntaxError: " +:+ code).

Definition isHole (seg : segment) : bool :=
  match seg with Hole _ _ => true | Lit _ => false end.

(** Whether one of the four patterns matches somewhere in [s]. *)
Definition hasPlaceholder (s : string) : bool :=
  existsb isHole (scan (matchVar "#{" "}") 0 s)
  || existsb isHole (scan (matchVar "${" "}") 0 s)
  || existsb isHole (scan (matchVar "{{" "}}") 0 s)
  || existsb isHole (scan matchExpr 0 s).

(** No value of the context prints as a text that contains a placeholder. *)
Definition valuesPlaceholderFree (ctx : jsobject) : bool :=
  forallb (fun kv => negb (hasPlaceholder (formatValue (snd kv)))) ctx.

(** The values [formatValue] prints exactly as the code does: all but the
    integers outside the safe range, which the code prints rounded or in
    exponent form, and the inherited members, whose text is up to the
    engine. *)
Definition printsExactly (v : value) : bool :=
  match v with
  | VNum n => safeInteger n
  | VMember _ => false
  | _ => true
  end.

(** A context whose lookups are those of a dictionary: [hasOwnProperty]
    is not shadowed by a property of the context and every value prints
    exactly. *)
Definition plainContext (ctx : jsobject) : bool :=
  negb (obj_has "hasOwnProperty" ctx)
  && forallb (fun kv => printsExactly (snd kv)) ctx.

(** *** Texts without nested placeholders *)

(** A text that neither holds nor starts the opener of a placeholder,
    whatever follows it: it has no opening brace, and no [#] or [$] as
    its last character. *)
Fixpoint inert (s : string) : bool :=
  match s with
  | EmptyString => true
  | String c s' =>
      negb (Ascii.eqb c "{")
      && negb ((Ascii.eqb c "#" || Ascii.eqb c "$") && Str.falsy s')
      && inert s'
  end.

(** The three ways a variable placeholder is written. *)
Inductive syntax := Hash | Dollar | Braces.

Definition opener (sy : syntax) : string :=
  match sy with Hash => "#{" | Dollar => "${" | Braces => "{{" end.

Definition closer (sy : syntax) : string :=
  match sy with Braces => "}}" | _ => "}" end.

(** The parts of a text whose placeholders are not nested: text between
    placeholders, variable placeholders, expression placeholders. *)
Inductive part :=
| Plain (s : string)
| Var (sy : syntax) (key : string)
| Expression (e : string).

(** What stands between the brackets of an expression placeholder that
    is no variable placeholder: at least one character, none of them a
    brace or a line terminator, not all of them word characters. *)
Definition expressionBody (e : string) : bool :=
  negb (Str.falsy e)
  && allChars (fun c => negb (Ascii.eqb c "{") && negb (Ascii.eqb c "}")
                        && negb (isLineTerminator c)) e
  && negb (allChars isWord e).

Definition wellFormed (p : part) : bool :=
  match p with
  | Plain s => inert s
  | Var _ key => negb (Str.falsy key) && allChars isWord key
  | Expression e => expressionBody e
  end.

Definition partText (p : part) : string :=
  match p with
  | Plain s => s
  | Var sy key => opener sy +:+ key +:+ closer sy
  | Expression e => "#{" +:+ e +:+ "}"
  end.

(** The text the parts make up. *)
Fixpoint flatten (ps : list part) : string :=
  match ps with
  | [] => EmptyString
  | p :: ps' => partText p +:+ flatten ps'
  end.

(** No suffix of [t], followed by [rest], is matched by [m]. *)
Fixpoint quietBefore (m : matcher) (t rest : string) : Prop :=
  match t with
  | EmptyString => True
  | String _ t' => m (t +:+ rest) = None ∧ quietBefore m t' rest
  end.

Definition sameSyntax (a b : syntax) : bool :=
  match a, b with
  | Hash, Hash | Dollar, Dollar | Braces, Braces => true
  | _, _ => false
  end.

(** What the variable pass of one syntax makes of a part. *)
Definition resolveVar (sy : syntax) (ctx : jsobject) (p : part) : part :=
  match p with
  | Var sy' key =>
      if sameSyntax sy sy' && obj_has key ctx then Plain (formatValue (obj_get key ctx))
      else p
  | _ => p
  end.

(** What the expression pass makes of a part. *)
Definition resolveExpr (jsEval : string → outcome value) (ctx : jsobject) (p : part)
    : part :=
  let attempt expression :=
    match evaluateExpression jsEval expression ctx with
    | (Returned v, _) => Plain (formatValue v)
    | (Thrown _, _) => p
    end in
  match p with
  | Var Hash key => attempt key
  | Expression e => attempt e
  | _ => p
  end.

(** Every value of the context prints as an inert text. *)
Definition valuesInert (ctx : jsobject) : bool :=
  forallb (fun kv => inert (formatValue (snd kv))) ctx.

(** Every result of the host's evaluation prints as an inert text, as
    the numbers do that arithmetic yields. *)
Definition hostInert (jsEval : string → outcome value) : Prop :=
  ∀ code v, jsEval code = Returned v → inert (formatValue v) = true.

(** A matcher that only matches behind the opener of [sy]. *)
Definition opensWith (m : matcher) (sy : syntax) : Prop :=
  ∀ s, stripPrefix (opener sy) s = None → m s = None.

(** The matcher of a variable pass. *)
Definition varMatcher (sy : syntax) : matcher := matchVar (opener sy) (closer sy).

(** What [renderFresh] makes of a part. *)
Definition resolve (jsEval : string → outcome value) (ctx : jsobject) (p : part) : part :=
  resolveExpr jsEval ctx
    (resolveVar Braces ctx (resolveVar Dollar ctx (resolveVar Hash ctx p))).

End Template.

(** ** Validation and the control factory *)

Module Factory.
Import JS.

(** A control definition, as far as the structural checks and the factory
    read it: [d_type] and [d_UID] are [None] when the property is absent,
    [d_children] lists the child definitions, [None] standing for [null].
    Properties, styles and texts are not part of the model; the
    type-specific rules that inspect them only add messages. *)
Inductive definition :=
| Def (d_type : option string) (d_UID : option string)
      (d_children : list (option definition)).

Definition d_type (d : definition) : option string := let 'Def t _ _ := d in t.
Definition d_UID (d : definition) : option string := let 'Def _ u _ := d in u.
Definition d_children (d : definition) : list (option definition) :=
  let 'Def _ _ cs := d in cs.

(** [!definition.type] *)
Definition falsyType (d : definition) : bool :=
  match d_type d with
  | Some t => Str.falsy t
  | None => true
  end.

(** [Validation.VALID_CONTROL_TYPES] *)
Definition VALID_CONTROL_TYPES : list string :=
  [ "panel"; "tab-control"; "grid-layout"; "section"; "splitter"; "datagrid";
    "textbox"; "numeric-input"; "password"; "barcode-input"; "dropdown";
    "datepicker"; "toggle"; "search-bar";
    "button"; "button-pad"; "menu-button"; "shortcut-keys";
    "label"; "message-box"; "status-bar"; "notification-area"; "image";
    "cart-grid"; "totals-display"; "payment-control"; "change-due-display";
    "customer-info-panel";
    "price-checker"; "signature-pad"; "receipt-preview"; "scale-input";
    "cash-drawer"; "device-control"; "context-menu" ].

Definition isKnownType (t : string) : bool :=
  existsb (String.eqb t) VALID_CONTROL_TYPES.

(** The result of a validation; warnings are only ever logged and are
    left out. *)
Record validation := Validation {
  isValid : bool;
  errors : list string;
  sanitizedDefinition : option definition
}.

(** [validateBasicStructure], errors only. *)
Definition validateBasicStructure (d : definition) : list string :=
  (match d_type d with
   | None => ["Missing required property: type"]
   | Some _ => []
   end)
  ++ (match d_type d with
      | Some t =>
          if negb (Str.falsy t) && negb (isKnownType t) then
            ["Invalid control type: " +:+ t +:+ ". Valid types: "
               +:+ Str.join ", " VALID_CONTROL_TYPES]
          else []
      | None => []
      end).

(** [validateTypeSpecific] for a definition without [props]: the only
    rules that report an error are those of the dropdown and the data
    grid. *)
Definition validateTypeSpecific (d : definition) : list string :=
  match d_type d with
  | Some t =>
      if String.eqb t "dropdown" then ["Dropdown must have options in props"]
      else if String.eqb t "datagrid" then ["DataGrid must have columns in props"]
      else []
  | None => []
  end.

(** What validating [null] reports: the structural error, then the
    message of the [TypeError] caught when its [type] is read. *)
Definition nullDefinitionErrors : list string :=
  [ "Control definition must be an object";
    "Validation failed: Cannot destructure property 'type' of 'definition' as it is null." ].

Definition prefixed (index : nat) (es : list string) : list string :=
  map (fun e => "Child at index " +:+ pretty index +:+ ": " +:+ e) es.

(** The errors of [validateControlDefinition]: structure, type-specific
    rules, then the errors of every child, prefixed with its index. *)
Fixpoint definitionErrors (d : definition) : list string :=
  validateBasicStructure d ++ validateTypeSpecific d
  ++ (fix children (index : nat) (cs : list (option definition)) : list string :=
        match cs with
        | [] => []
        | c :: cs' =>
            prefixed index (match c with
                            | Some cd => definitionErrors cd
                            | None => nullDefinitionErrors
                            end)
            ++ children (S index) cs'
        end) 0 (d_children d).

(** [generateUID(type)]; [stamp] stands for the time and random suffix. *)
Definition generateUID (type : option string) (stamp : string) : string :=
  default "undefined" type +:+ "-" +:+ stamp.

(** [applySanitization] on the deep clone. *)
Definition applySanitization (stamp : string) (d : definition) : definition :=
  match d_UID d with
  | Some u => if Str.falsy u then Def (d_type d) (Some (generateUID (d_type d) stamp)) (d_children d)
              else d
  | None => Def (d_type d) (Some (generateUID (d_type d) stamp)) (d_children d)
  end.

(** [Validation.validateControlDefinition] *)
Definition validateControlDefinition (stamp : string) (d : definition) : validation :=
  let es := definitionErrors d in
  Validation (match es with [] => true | _ => false end) es
             (Some (applySanitization stamp d)).

(** A class of controls: the base [Control] or a subclass, by name. *)
Inductive controlClass :=
| BaseControl
| Subclass (name : string).

(** What the factory runs in: the registry (a provider yields a class,
    or nothing when its global is not defined), whether
    [window.Validation] is installed, and for which definitions the
    constructor of a class completes. *)
Record Env := mkEnv {
  controlTypes : gmap string (option string);
  hasValidation : bool;
  constructs : controlClass → definition → bool
}.

(** [ControlFactory.isValidType] *)
Definition isValidType (env : Env) (t : string) : bool :=
  bool_decide (is_Some (controlTypes env !! t)).

(** The fallback of [ControlFactory.validateDefinition]. *)
Definition basicValidation (env : Env) (d : definition) : validation :=
  let es :=
    match d_type d with
    | None => ["Control type is required"]
    | Some t =>
        if Str.falsy t then ["Control type is required"]
        else if isValidType env t then []
        else ["Invalid control type: " +:+ t]
    end in
  Validation (match es with [] => true | _ => false end) es (Some d).

(** [ControlFactory.validateDefinition] *)
Definition validateDefinition (env : Env) (stamp : string) (d : definition) : validation :=
  if hasValidation env then validateControlDefinition stamp d
  else basicValidation env d.

(** The test that makes an error block the creation. *)
Definition critical (error : string) : bool :=
  Str.includes "type is required" error || Str.includes "Invalid control type" error.

(** A control object as the factory hands it out. *)
Record instance := Instance {
  i_class : controlClass;
  i_definition : definition
}.

(** [new C(definition)] *)
Definition construct (env : Env) (c : controlClass) (d : definition) : outcome instance :=
  if constructs env c d then Returned (Instance c d)
  else Thrown "Error: the constructor threw".

(** [ControlFactory.create]; the result is [None] for [null]. *)
Definition create (env : Env) (stamp : string) (def : option definition)
    : outcome (option instance) :=
  match def with
  | None => Returned None
  | Some d =>
      if falsyType d then Returned None
      else
        let validation := validateDefinition env stamp d in
        if negb (isValid validation) && existsb critical (errors validation)
        then Returned None
        else
          let sanitized := default d (sanitizedDefinition validation) in
          match controlTypes env !! default EmptyString (d_type sanitized) with
          | None =>
              (* outside the try block *)
              match construct env BaseControl sanitized with
              | Returned i => Returned (Some i)
              | Thrown e => Thrown e
              end
          | Some provider =>
              let attempt :=
                match provider with
                | None => construct env BaseControl sanitized
                | Some name => construct env (Subclass name) sanitized
                end in
              match attempt with
              | Returned i => Returned (Some i)
              | Thrown _ =>
                  match construct env BaseControl sanitized with
                  | Returned i => Returned (Some i)
                  | Thrown _ => Returned None
                  end
              end
          end
  end.

(** [registerControl] and [unregisterControl] *)
Definition registerControl (t : string) (provider : option string) (env : Env) : Env :=
  mkEnv (<[t := provider]> (controlTypes env)) (hasValidation env) (constructs env).

Definition unregisterControl (t : string) (env : Env) : Env :=
  mkEnv (delete t (controlTypes env)) (hasValidation env) (constructs env).

(** [createBatch]: every definition on its own, failures skipped. *)
Definition createBatch (env : Env) (stamp : string) (defs : list (option definition))
    : list instance :=
  omap (fun def => match create env stamp def with
                   | Returned (Some i) => Some i
                   | _ => None
                   end) defs.

(** The registry the factory starts with. *)
Definition defaultControlTypes : gmap string (option string) :=
  list_to_map
    [ ("panel", Some "PanelControl"); ("tab-control", Some "TabControl");
      ("grid-layout", Some "GridLayoutControl"); ("section", Some "SectionControl");
      ("splitter", Some "SplitterControl"); ("datagrid", Some "DataGridControl");
      ("textbox", Some "TextBoxControl"); ("input", Some "TextBoxControl");
      ("numeric-input", Some "NumericInputControl"); ("password", Some "PasswordControl");
      ("barcode-input", Some "BarcodeInputControl"); ("dropdown", Some "DropdownControl");
      ("datepicker", Some "DatePickerControl"); ("toggle", Some "ToggleControl");
      ("button", Some "ButtonControl"); ("button-pad", Some "ButtonPadControl");
      ("menu-button", Some "MenuButtonControl");
      ("shortcut-keys", Some "ShortcutKeysControl");
      ("label", Some "LabelControl"); ("message-box", Some "MessageBoxControl");
      ("status-bar", Some "StatusBarControl");
      ("notification-area", Some "NotificationAreaControl");
      ("image", Some "ImageControl");
      ("cart-grid", Some "CartGridControl");
      ("totals-display", Some "TotalsDisplayControl");
      ("payment-control", Some "PaymentControlControl");
      ("change-due-display", Some "ChangeDueDisplayControl");
      ("customer-info-panel", Some "CustomerInfoPanelControl");
      ("price-checker", Some "PriceCheckerControl");
      ("signature-pad", Some "SignaturePadControl");
      ("receipt-preview", Some "ReceiptPreviewControl");
      ("scale-input", Some "ScaleInputControl");
      ("cash-drawer", Some "CashDrawerControl");
      ("device-control", Some "DeviceControlControl");
      ("context-menu", Some "ContextMenuControl");
      ("search-bar", Some "SearchBarControl") ].

(** An environment with the registry the factory starts with, in which
    the validation engine is installed and every constructor completes,
    that of the base [Control] included.  No file of the repository
    assigns [window.Control]; where it is missing, [new window.Control]
    throws, which is an environment whose [constructs] is false on
    [BaseControl]. *)
Definition defaultEnv : Env := mkEnv defaultControlTypes true (fun _ _ => true).

(** Whether the validation in force accepts the type [t]. *)
Definition typeAccepted (env : Env) (t : string) : bool :=
  if hasValidation env then isKnownType t else isValidType env t.

(** *** Further notions and operations of the factory *)

(** The errors [validateChildren] adds for the children from [index] on. *)
Fixpoint childErrors (index : nat) (cs : list (option definition)) : list string :=
  match cs with
  | [] => []
  | c :: cs' =>
      prefixed index (match c with
                      | Some cd => definitionErrors cd
                      | None => nullDefinitionErrors
                      end)
      ++ childErrors (S index) cs'
  end.

(** Whether the definition or one of its descendants has a type that is a
    non-empty string outside [VALID_CONTROL_TYPES]. *)
Fixpoint hasInvalidType (d : definition) : bool :=
  match d_type d with
  | Some t => negb (Str.falsy t) && negb (isKnownType t)
  | None => false
  end
  || existsb (fun c => match c with
                       | Some cd => hasInvalidType cd
                       | None => false
                       end) (d_children d).

(** [String(v)], which is what [replace] makes of the value a callback
    returns. *)
Definition toStringJS (v : value) : string :=
  match v with
  | VUndefined => "undefined"
  | VNull => "null"
  | VBool b => if b then "true" else "false"
  | VNum n => pretty n
  | VStr s => s
  | VMember name => memberText name
  end.

Section Templates.

(** The text the host prints for the member of [Object.prototype] of a
    given name. *)
Variable inheritedText : string → string.

(** The callback of [replaceContextPlaceholders]:
    [context[key] !== undefined ? context[key] : match]. *)
Definition contextCallback (context : jsobject) (matched key : string)
    : string * list Template.effect :=
  (match obj_get key context with
   | VUndefined =>
       if negb (obj_has key context) && inherited key then inheritedText key
       else matched
   | v => toStringJS v
   end, []).

(** [replaceContextPlaceholders]: [text.replace(/#{(\w+)}/g, ...)] *)
Definition replaceContextPlaceholders (text : string) (context : jsobject) : string :=
  fst (Template.replaceWith (Template.matchVar "#{" "}") (contextCallback context) text).

(** [applyContextToDefinition], on the string properties of the model and,
    recursively, on the children that are objects. *)
Fixpoint applyContextToDefinition (context : jsobject) (d : definition) : definition :=
  Def (option_map (fun t => replaceContextPlaceholders t context) (d_type d))
      (option_map (fun u => replaceContextPlaceholders u context) (d_UID d))
      (map (fun c => match c with
                     | Some cd => Some (applyContextToDefinition context cd)
                     | None => None
                     end) (d_children d)).

(** [createFromTemplate]; the template is cloned through JSON, which
    leaves a definition of the model as it is. *)
Definition createFromTemplate (env : Env) (stamp : string)
    (template : option definition) (context : jsobject) : outcome (option instance) :=
  match template with
  | None => Returned None
  | Some t => create env stamp (Some (applyContextToDefinition context t))
  end.

End Templates.

(** No placeholder of the text names a member of [Object.prototype]. *)
Definition namesNoInherited (text : string) : bool :=
  forallb (fun seg => match seg with
                      | Template.Hole _ key => negb (inherited key)
                      | Template.Lit _ => true
                      end)
          (Template.scan (Template.matchVar "#{" "}") 0 text).

(** The same for every string of a template. *)
Fixpoint templateNamesNoInherited (d : definition) : bool :=
  from_option namesNoInherited true (d_type d)
  && from_option namesNoInherited true (d_UID d)
  && forallb (fun c => match c with
                       | Some cd => templateNamesNoInherited cd
                       | None => true
                       end) (d_children d).

End Factory.

(** ** The control lifecycle: [Control] *)

Module Lifecycle.
Import JS Factory.

(** What a listener registered with [Control.on] throws, if it throws:
    an error value with a [message], or [null] / [undefined]. *)
Inductive thrown :=
| ThrownError (message : string)
| ThrownNullish.

(** A listener: an observer identified by [h_id]. *)
Record handler := Handler { h_id : nat; h_throws : option thrown }.

(** A control object and the controls it owns.  The [parent]
    back-reference is the position in the tree: [emit] receives the chain
    of ancestors explicitly. *)
Inductive control :=
| Control (UID : string) (cls : controlClass) (type : option string)
          (children : list (option definition)) (element : option nat)
          (childControls : list control)
          (eventListeners : list (string * list handler)).

Definition UID (c : control) : string := let 'Control u _ _ _ _ _ _ := c in u.
Definition cls (c : control) : controlClass := let 'Control _ k _ _ _ _ _ := c in k.
Definition element (c : control) : option nat := let 'Control _ _ _ _ e _ _ := c in e.
Definition childControls (c : control) : list control :=
  let 'Control _ _ _ _ _ ks _ := c in ks.
Definition eventListeners (c : control) : list (string * list handler) :=
  let 'Control _ _ _ _ _ _ ls := c in ls.

(** One call of a listener by [emit]. *)
Record delivery := Delivery {
  at_control : string;      (* the control whose listener table held it *)
  to_handler : nat;
  of_event : string;
  with_data : jsobject
}.

(** Everything the lifecycle touches outside the control objects. *)
Record World := mkWorld {
  events : Events.EventHandler;   (* the event registry and the nodes *)
  nextNode : nat;                 (* the next node [createElement] makes *)
  constructed : list string;      (* UIDs of the controls [renderChildren] created *)
  journal : list string;          (* [logEvent] entries, without the time *)
  delivered : list delivery       (* listener calls made by [emit] *)
}.

Definition emptyWorld : World := mkWorld Events.initial 0 [] [] [].

Definition with_events (ev : Events.EventHandler) (w : World) : World :=
  mkWorld ev (nextNode w) (constructed w) (journal w) (delivered w).

(** [logEvent(type, message)]; [type] is given in upper case. *)
Definition logEvent (type message : string) (w : World) : World :=
  mkWorld (events w) (nextNode w) (constructed w)
          (journal w ++ ["[" +:+ type +:+ "] " +:+ message]) (delivered w).

Definition deliver (d : delivery) (w : World) : World :=
  mkWorld (events w) (nextNode w) (constructed w) (journal w) (delivered w ++ [d]).

Definition noteConstructed (uid : string) (w : World) : World :=
  mkWorld (events w) (nextNode w) (constructed w ++ [uid]) (journal w) (delivered w).

(** The UID the constructor gives: the definition's, or a generated one. *)
Definition uidOf (stamp : string) (d : definition) : string :=
  match d_UID d with
  | Some u => if Str.falsy u then "control-" +:+ stamp else u
  | None => "control-" +:+ stamp
  end.

Definition isClass (name : string) (c : controlClass) : bool :=
  match c with
  | Subclass n => String.eqb n name
  | BaseControl => false
  end.

(** [createElement]: a fresh node.  The tab control reads the [title] of
    every child definition while it builds its header. *)
Definition createElement (c : controlClass) (children : list (option definition))
    (w : World) : outcome nat * World :=
  if isClass "TabControl" c && existsb (fun child => bool_decide (child = None)) children
  then (Thrown "TypeError: Cannot read properties of null (reading 'title')", w)
  else
    let node := nextNode w in
    let ev := Events.with_element node Events.blank (events w) in
    (Returned node,
     mkWorld ev (S node) (constructed w) (journal w) (delivered w)).

(** [parent.appendChild(child)] on nodes. *)
Definition appendChild (parent : nat) (child : option nat) (w : World) : World :=
  match child with
  | None => w
  | Some node =>
      let e := Events.elementAt node (events w) in
      with_events
        (Events.with_element node
           (Events.Element (Events.uidEvent e) (Events.attached e) (Some parent))
           (events w)) w
  end.

(** One iteration of [renderChildren]: the child is created through the
    factory, linked, rendered ([self]) and must then be appended. *)
Definition renderChild
    (self : definition → string → controlClass → World → outcome control * World)
    (env : Env) (stamp : string) (childDef : option definition) (w : World)
    : outcome control * World :=
  match create env stamp childDef with
  | Thrown e => (Thrown e, w)
  | Returned None =>
      (Thrown "TypeError: Cannot set properties of null (setting 'parent')", w)
  | Returned (Some inst) =>
      match childDef with
      | Some cd =>
          self cd (uidOf stamp (i_definition inst)) (i_class inst)
               (noteConstructed (uidOf stamp (i_definition inst)) w)
      | None =>
          (Thrown "TypeError: Cannot set properties of null (setting 'parent')", w)
      end
  end.

Section Render.
Context (env : Env) (stamp : string).

(** [render] of the control built from [d] with UID [uid] and class [c].
    The children rendered are those of [d], which sanitization leaves as
    they are.  [renderChildren] is the one of the base class, which the
    panel, the grid layout and the section inherit as it is, except for
    the tab control (the first child only, when it is not null) and the
    splitter (the first two children, when there are at least two).  The
    classes of the other files are rendered like the base class here,
    also those that bring a [renderChildren] or a [createElement] of
    their own (the menu button, the context menu, the data grid, whose
    [createElement] throws): the properties stated for every class name
    the classes they hold for. *)
Fixpoint render (d : definition) (uid : string) (c : controlClass) (w : World)
    {struct d} : outcome control * World :=
  match d with
  | Def type _ children =>
      match createElement c children w with
      | (Thrown e, w1) => (Thrown e, w1)
      | (Returned node, w1) =>
          let rendered :=
            if isClass "TabControl" c then
              match children with
              | Some cd :: _ =>
                  match renderChild render env stamp (Some cd) w1 with
                  | (Thrown e, w2) => (Thrown e, w2)
                  | (Returned k, w2) => (Returned [k], appendChild node (element k) w2)
                  end
              | _ => (Returned [], w1)
              end
            else if isClass "SplitterControl" c then
              match children with
              | c0 :: c1 :: _ =>
                  match renderChild render env stamp c0 w1 with
                  | (Thrown e, w2) => (Thrown e, w2)
                  | (Returned k0, w2) =>
                      match renderChild render env stamp c1
                              (appendChild node (element k0) w2) with
                      | (Thrown e, w3) => (Thrown e, w3)
                      | (Returned k1, w3) =>
                          (Returned [k0; k1], appendChild node (element k1) w3)
                      end
                  end
              | _ => (Returned [], w1)
              end
            else
              (fix each (cs : list (option definition)) (acc : list control) (w : World)
                 : outcome (list control) * World :=
                 match cs with
                 | [] => (Returned acc, w)
                 | childDef :: cs' =>
                     match renderChild render env stamp childDef w with
                     | (Thrown e, w') => (Thrown e, w')
                     | (Returned k, w') =>
                         each cs' (acc ++ [k]) (appendChild node (element k) w')
                     end
                 end) children [] w1 in
          match rendered with
          | (Thrown e, w2) => (Thrown e, w2)
          | (Returned kids, w2) =>
              (Returned (Control uid c type children (Some node) kids []),
               logEvent "RENDER"
                 ("Control " +:+ uid +:+ " (" +:+ default "undefined" type +:+ ") rendered")
                 w2)
          end
      end
  end.

(** [ControlFactory.create(definition)] followed by [render()] of the
    control it returns. *)
Definition createAndRender (def : definition) (w : World) : outcome control * World :=
  match create env stamp (Some def) with
  | Thrown e => (Thrown e, w)
  | Returned None => (Thrown "Error: Failed to create UI from definition", w)
  | Returned (Some inst) =>
      render def (uidOf stamp (i_definition inst)) (i_class inst) w
  end.

End Render.

(** *** Events between controls *)

(** [this.eventListeners[event]], empty when nothing was registered.  The
    table is a plain object in the code: for an event named like a member
    of [Object.prototype] the read yields that member, which is no array,
    and [on] and [emit] throw; the properties exclude such names. *)
Fixpoint handlersFor (event : string) (listeners : list (string * list handler))
    : list handler :=
  match listeners with
  | [] => []
  | (e, hs) :: rest => if String.eqb event e then hs else handlersFor event rest
  end.

Fixpoint addListener (event : string) (h : handler)
    (listeners : list (string * list handler)) : list (string * list handler) :=
  match listeners with
  | [] => [(event, [h])]
  | (e, hs) :: rest =>
      if String.eqb event e then (e, hs ++ [h]) :: rest
      else (e, hs) :: addListener event h rest
  end.

(** [on(event, callback)] *)
Definition on (event : string) (h : handler) (c : control) : control :=
  let 'Control u k t cs e ks ls := c in
  Control u k t cs e ks (addListener event h ls).

(** The [forEach] of [emit]: every listener is called with [data]; an
    exception is caught and logged with its [message], which cannot be
    read from [null] or [undefined]. *)
Fixpoint callHandlers (uid event : string) (data : jsobject) (hs : list handler)
    (w : World) : outcome unit * World :=
  match hs with
  | [] => (Returned (), w)
  | h :: hs' =>
      let w1 := deliver (Delivery uid (h_id h) event data) w in
      match h_throws h with
      | None => callHandlers uid event data hs' w1
      | Some (ThrownError message) =>
          callHandlers uid event data hs'
            (logEvent "ERROR"
               ("Error in event handler for " +:+ event +:+ ": " +:+ message) w1)
      | Some ThrownNullish =>
          (Thrown "TypeError: Cannot read properties of null (reading 'message')", w1)
      end
  end.

(** [c.emit(event, data)] where [ancestors] are [c.parent],
    [c.parent.parent], and so on up to the root. *)
Fixpoint emit (c : control) (ancestors : list control) (event : string)
    (data : jsobject) (w : World) : outcome unit * World :=
  match callHandlers (UID c) event data (handlersFor event (eventListeners c)) w with
  | (Thrown e, w1) => (Thrown e, w1)
  | (Returned _, w1) =>
      match ancestors with
      | [] => (Returned (), w1)
      | parent :: rest =>
          emit parent rest event (obj_set "source" (VStr (UID c)) data) w1
      end
  end.

(** *** Teardown *)

(** [element.parentNode.removeChild(element)] when both exist. *)
Definition detach (el : option nat) (w : World) : World :=
  match el with
  | None => w
  | Some node =>
      let e := Events.elementAt node (events w) in
      match Events.parentNode e with
      | None => w
      | Some _ =>
          with_events
            (Events.with_element node
               (Events.Element (Events.uidEvent e) (Events.attached e) None)
               (events w)) w
      end
  end.

(** [destroy()], with [window.EventHandler] installed: the registry is
    asked to clean the node up, the children are destroyed in order, the
    node is detached and the listener table is replaced by an empty one.
    Nothing is removed from [childControls]. *)
Fixpoint destroy (c : control) (w : World) : outcome control * World :=
  match c with
  | Control uid k type children el kids _ =>
      match Events.cleanupElement el (events w) with
      | (Thrown e, ev) => (Thrown e, with_events ev w)
      | (Returned _, ev) =>
          let destroyed :=
            (fix each (ks : list control) (acc : list control) (w : World)
               : outcome (list control) * World :=
               match ks with
               | [] => (Returned acc, w)
               | child :: ks' =>
                   match destroy child w with
                   | (Thrown e, w') => (Thrown e, w')
                   | (Returned child', w') => each ks' (acc ++ [child']) w'
                   end
               end) kids [] (with_events ev w) in
          match destroyed with
          | (Thrown e, w2) => (Thrown e, w2)
          | (Returned kids', w2) =>
              (Returned (Control uid k type children el kids' []),
               logEvent "DESTROY" ("Control " +:+ uid +:+ " destroyed") (detach el w2))
          end
      end
  end.

(** [parent.childControls[i].destroy()]: the parent keeps holding the
    same child object, in the state [destroy] leaves it in. *)
Definition destroyChild (parent : control) (i : nat) (w : World)
    : outcome control * World :=
  match childControls parent !! i with
  | None => (Returned parent, w)
  | Some child =>
      match destroy child w with
      | (Thrown e, w') => (Thrown e, w')
      | (Returned child', w') =>
          let 'Control u k t cs e ks ls := parent in
          (Returned (Control u k t cs e (<[i := child']> ks) ls), w')
      end
  end.

(** *** Notions and sample controls the properties are stated with *)

(** A panel whose first child definition has no [type]. *)
Definition brokenPanel : definition :=
  Def (Some "panel") (Some "p")
      [ Some (Def None (Some "broken") []);
        Some (Def (Some "label") (Some "ok") []) ].

(** Whether what a listener throws is [null] or [undefined]. *)
Definition isNullish (t : option thrown) : bool :=
  match t with
  | Some ThrownNullish => true
  | _ => false
  end.

(** No listener throws [null] or [undefined]. *)
Definition loggable (hs : list handler) : bool :=
  forallb (fun h => negb (isNullish (h_throws h))) hs.

(** A button whose click listener throws, and a panel with a click
    listener of its own. *)
Definition button : control :=
  on "click" (Handler 1 (Some (ThrownError "boom")))
     (Control "b1" (Subclass "ButtonControl") (Some "button") [] None [] []).

Definition panelOf (kids : list control) : control :=
  on "click" (Handler 2 None)
     (Control "main" (Subclass "PanelControl") (Some "panel") [] None kids []).

(** The nodes of a control and of the controls below it. *)
Fixpoint nodes (c : control) : list nat :=
  match c with
  | Control _ _ _ _ el kids _ =>
      match el with Some n => [n] | None => [] end
      ++ (fix all (ks : list control) : list nat :=
            match ks with
            | [] => []
            | k :: ks' => nodes k ++ all ks'
            end) kids
  end.

(** No node of the tree carries a registry uid: no handler was ever
    registered on it through the event registry. *)
Definition noUid (ev : Events.EventHandler) (c : control) : bool :=
  forallb (fun n => bool_decide (Events.uidEvent (Events.elementAt n ev) = None)) (nodes c).

(** What [destroy] may change outside the controls: parent links of
    nodes and the journal. *)
Definition sameRegistry (w w' : World) : Prop :=
  Events.eventRegistry (events w') = Events.eventRegistry (events w)
  ∧ ∀ n, Events.uidEvent (Events.elementAt n (events w'))
         = Events.uidEvent (Events.elementAt n (events w)).

(** The loop of [destroy] over the children, and the nodes of a list of
    controls. *)
Definition destroyAll : list control → list control → World → outcome (list control) * World :=
  fix each (ks : list control) (acc : list control) (w : World)
    : outcome (list control) * World :=
    match ks with
    | [] => (Returned acc, w)
    | child :: ks' =>
        match destroy child w with
        | (Thrown e, w') => (Thrown e, w')
        | (Returned child', w') => each ks' (acc ++ [child']) w'
        end
    end.

Definition nodesAll : list control → list nat :=
  fix all (ks : list control) : list nat :=
    match ks with
    | [] => []
    | k :: ks' => nodes k ++ all ks'
    end.

(** What a successful [destroy] of [c] leaves. *)
Definition destroyedFrom (c c' : control) (w w' : World) : Prop :=
  sameRegistry w w'
  ∧ nodes c' = nodes c
  ∧ UID c' = UID c
  ∧ element c' = element c
  ∧ eventListeners c' = []
  ∧ map UID (childControls c') = map UID (childControls c)
  ∧ (∀ node, element c = Some node →
       Events.parentNode (Events.elementAt node (events w')) = None).

(** A rendered panel with two children; nothing is registered in the
    event registry. *)
Definition twoButtons : definition :=
  Def (Some "panel") (Some "p")
      [ Some (Def (Some "button") (Some "b1") []);
        Some (Def (Some "button") (Some "b2") []) ].

(** What rendering [twoButtons] in the empty world yields. *)
Definition renderedButton (uid : string) (node : nat) : control :=
  Control uid (Subclass "ButtonControl") (Some "button") [] (Some node) [] [].

Definition renderedPanel : control :=
  Control "p" (Subclass "PanelControl") (Some "panel") (d_children twoButtons) (Some 0)
          [renderedButton "b1" 1; renderedButton "b2" 2] [].

Definition renderedWorld : World :=
  (createAndRender defaultEnv "1" twoButtons emptyWorld).2.

(** *** Further operations and notions *)

(** The classes whose [render] and [renderChildren] are those of the base
    class: the base class itself and the containers of base-control.js
    that only replace [createElement]. *)
Definition inheritsRenderChildren (c : controlClass) : bool :=
  match c with
  | BaseControl => true
  | Subclass name =>
      bool_decide (name ∈ ["PanelControl"; "GridLayoutControl"; "SectionControl"])
  end.

(** The [forEach] of the base [renderChildren], for the control whose
    node is [node]. *)
Definition renderEach (env : Env) (stamp : string) (node : nat)
    : list (option definition) → list control → World → outcome (list control) * World :=
  fix each (cs : list (option definition)) (acc : list control) (w : World)
    : outcome (list control) * World :=
    match cs with
    | [] => (Returned acc, w)
    | childDef :: cs' =>
        match renderChild (render env stamp) env stamp childDef w with
        | (Thrown e, w') => (Thrown e, w')
        | (Returned k, w') => each cs' (acc ++ [k]) (appendChild node (element k) w')
        end
    end.

(** The calls a bubbling [emit] makes when every listener returns or
    throws an error object: the listeners of the control, then those of
    each ancestor with [source] set to the control just below it. *)
Fixpoint bubbled (c : control) (ancestors : list control) (event : string)
    (data : jsobject) : list delivery :=
  map (fun h => Delivery (UID c) (h_id h) event data)
      (handlersFor event (eventListeners c))
  ++ match ancestors with
     | [] => []
     | parent :: rest =>
         bubbled parent rest event (obj_set "source" (VStr (UID c)) data)
     end.

(** [findChild(UID)]: the children are searched in order, each before
    its own descendants. *)
Fixpoint findChild (uid : string) (c : control) : option control :=
  (fix search (ks : list control) : option control :=
     match ks with
     | [] => None
     | child :: ks' =>
         if String.eqb (UID child) uid then Some child
         else match findChild uid child with
              | Some nested => Some nested
              | None => search ks'
              end
     end) (childControls c).

(** The controls below [c], each followed by its own descendants. *)
Fixpoint descendants (c : control) : list control :=
  (fix all (ks : list control) : list control :=
     match ks with
     | [] => []
     | k :: ks' => k :: descendants k ++ all ks'
     end) (childControls c).

End Lifecycle.

(** ** Data attached to nodes: [DataManager] *)

Module Data.
Import JS.

(** [!v] *)
Definition falsyValue (v : value) : bool :=
  match v with
  | VUndefined | VNull => true
  | VBool b => negb b
  | VNum n => Z.eqb n 0
  | VStr s => Str.falsy s
  | VMember _ => false
  end.

(** [elementMap] is keyed by the node, [globalData] by a string; the
    values stored are the primitive values of the model. *)
Record DataManager := mkData {
  elementMap : gmap nat (gmap string value);
  globalData : gmap string value
}.

(** [set(element, key, instance)]; [element] is [None] for [null]. *)
Definition set (element : option nat) (key : string) (instance : value)
    (s : DataManager) : DataManager :=
  match element with
  | None => s
  | Some el =>
      let instanceMap := default ∅ (elementMap s !! el) in
      mkData (<[el := <[key := instance]> instanceMap]> (elementMap s)) (globalData s)
  end.

(** [x || null] *)
Definition orNull (v : value) : value := if falsyValue v then VNull else v.

(** [get(element, key)] *)
Definition get (element : option nat) (key : string) (s : DataManager) : value :=
  match element with
  | None => VNull
  | Some el =>
      match elementMap s !! el with
      | Some instanceMap => orNull (default VUndefined (instanceMap !! key))
      | None => VNull
      end
  end.

(** [remove(element, key)]: the entry of the element goes with its last
    key. *)
Definition remove (element : option nat) (key : string) (s : DataManager) : DataManager :=
  match element with
  | None => s
  | Some el =>
      match elementMap s !! el with
      | None => s
      | Some instanceMap =>
          let rest := delete key instanceMap in
          if decide (size rest = 0)
          then mkData (delete el (elementMap s)) (globalData s)
          else mkData (<[el := rest]> (elementMap s)) (globalData s)
      end
  end.

(** [clearElement(element)] *)
Definition clearElement (element : option nat) (s : DataManager) : DataManager :=
  match element with
  | None => s
  | Some el => mkData (delete el (elementMap s)) (globalData s)
  end.

(** [setGlobal], [getGlobal] and [removeGlobal] *)
Definition setGlobal (key : string) (v : value) (s : DataManager) : DataManager :=
  mkData (elementMap s) (<[key := v]> (globalData s)).

Definition getGlobal (key : string) (s : DataManager) : value :=
  orNull (default VUndefined (globalData s !! key)).

Definition removeGlobal (key : string) (s : DataManager) : DataManager :=
  mkData (elementMap s) (delete key (globalData s)).

End Data.

(** * Part II: properties *)

(** ** Plain objects *)

Module JSFacts.
Import JS.

Lemma obj_get_set_eq k v o : obj_get k (obj_set k v o) = v.
Proof.
  induction o as [|[k' v'] o IH]; simpl.
  - by rewrite String.eqb_refl.
  - destruct (String.eqb k k') eqn:E; simpl; rewrite E; [done | exact IH].
Qed.

Lemma obj_get_set_ne k k' v o :
  k ≠ k' → obj_get k' (obj_set k v o) = obj_get k' o.
Proof.
  intros Hne. induction o as [|[k0 v0] o IH]; simpl.
  - destruct (String.eqb k' k) eqn:E; [|done].
    apply String.eqb_eq in E. congruence.
  - destruct (String.eqb k k0) eqn:E; simpl.
    + apply String.eqb_eq in E. subst k0.
      destruct (String.eqb k' k) eqn:E'; [|done].
      apply String.eqb_eq in E'. congruence.
    + by rewrite IH.
Qed.

Lemma obj_has_false_get k o : obj_has k o = false → obj_get k o = VUndefined.
Proof.
  induction o as [|[k' v'] o IH]; simpl; [done|].
  destruct (String.eqb k k'); simpl; [done | exact IH].
Qed.

Lemma obj_has_set_eq k v o : obj_has k (obj_set k v o) = true.
Proof.
  induction o as [|[k' v'] o IH]; simpl.
  - by rewrite String.eqb_refl.
  - destruct (String.eqb k k') eqn:E; simpl; rewrite E; [done | exact IH].
Qed.

Lemma obj_has_set_ne k k' v o :
  k ≠ k' → obj_has k' (obj_set k v o) = obj_has k' o.
Proof.
  intros Hne. induction o as [|[k0 v0] o IH]; simpl.
  - destruct (String.eqb k' k) eqn:E; [|done].
    apply String.eqb_eq in E. congruence.
  - destruct (String.eqb k k0) eqn:E; simpl.
    + done.
    + by rewrite IH.
Qed.

Lemma obj_read_set_eq k v o : obj_read k (obj_set k v o) = v.
Proof. unfold obj_read. by rewrite obj_has_set_eq, obj_get_set_eq. Qed.

Lemma obj_read_set_ne k k' v o :
  k ≠ k' → obj_read k' (obj_set k v o) = obj_read k' o.
Proof.
  intros Hne. unfold obj_read.
  by rewrite obj_has_set_ne, obj_get_set_ne.
Qed.

Lemma obj_read_own k o : obj_has k o = true → obj_read k o = obj_get k o.
Proof. unfold obj_read. by intros ->. Qed.

Lemma obj_read_absent k o :
  obj_has k o = false → inherited k = false → obj_read k o = VUndefined.
Proof. unfold obj_read. by intros -> ->. Qed.

End JSFacts.

(** ** The reactive store *)

Module StoreFacts.
Import JS JSFacts Store.

(** *** Properties of the notification loops *)

Section Loops.
Context (mk : callback → call).

Let step := fun acc cb => invoke (mk cb) (cb_throws cb) acc.

Lemma loop_calls cbs s :
  calls (fold_left step cbs s) = calls s ++ map mk cbs.
Proof.
  revert s. induction cbs as [|cb cbs IH]; intros s; simpl.
  - by rewrite app_nil_r.
  - rewrite IH. simpl. by rewrite <- app_assoc.
Qed.

Lemma loop_frame cbs s :
  state (fold_left step cbs s) = state s
  ∧ listeners (fold_left step cbs s) = listeners s
  ∧ globalListeners (fold_left step cbs s) = globalListeners s
  ∧ history (fold_left step cbs s) = history s.
Proof.
  revert s. induction cbs as [|cb cbs IH]; intros s; simpl; [done|].
  destruct (IH (step s cb)) as (-> & -> & -> & ->). done.
Qed.

End Loops.

Lemma notifyStateChange_calls key v old s :
  calls (notifyStateChange key v old s)
  = calls s ++ keyCalls key v old (subscribers key s).
Proof.
  unfold notifyStateChange, subscribers, keyCalls.
  destruct (listeners s !! key) as [cbs|]; simpl.
  - apply (loop_calls (fun cb => KeyCall (cb_id cb) v old key)).
  - by rewrite app_nil_r.
Qed.

Lemma notifyStateChange_frame key v old s :
  state (notifyStateChange key v old s) = state s
  ∧ listeners (notifyStateChange key v old s) = listeners s
  ∧ globalListeners (notifyStateChange key v old s) = globalListeners s
  ∧ history (notifyStateChange key v old s) = history s.
Proof.
  unfold notifyStateChange.
  destruct (listeners s !! key) as [cbs|]; [|done].
  apply (loop_frame (fun cb => KeyCall (cb_id cb) v old key)).
Qed.

Lemma notifyGlobalListeners_calls ev s :
  calls (notifyGlobalListeners ev s) = calls s ++ globalCalls ev (globalListeners s).
Proof. apply (loop_calls (fun cb => GlobalCall (cb_id cb) ev)). Qed.

Lemma notifyGlobalListeners_frame ev s :
  state (notifyGlobalListeners ev s) = state s
  ∧ listeners (notifyGlobalListeners ev s) = listeners s
  ∧ globalListeners (notifyGlobalListeners ev s) = globalListeners s
  ∧ history (notifyGlobalListeners ev s) = history s.
Proof. apply (loop_frame (fun cb => GlobalCall (cb_id cb) ev)). Qed.

(** What one [setState] does to the store, field by field. *)
Lemma setState_effect key v s :
  state (setState key v s) = obj_set key v (state s)
  ∧ listeners (setState key v s) = listeners s
  ∧ globalListeners (setState key v s) = globalListeners s
  ∧ calls (setState key v s)
    = calls s ++ keyCalls key v (obj_read key (state s)) (subscribers key s)
              ++ globalCalls (ESetState key v (obj_read key (state s))) (globalListeners s).
Proof.
  unfold setState.
  set (old := obj_read key (state s)).
  set (s2 := addToHistory _ _).
  destruct (notifyGlobalListeners_frame (ESetState key v old)
              (notifyStateChange key v old s2)) as (-> & -> & -> & _).
  destruct (notifyStateChange_frame key v old s2) as (Hst & Hl & Hg & _).
  rewrite Hst, Hl, notifyGlobalListeners_calls, Hg, notifyStateChange_calls.
  unfold subscribers. by rewrite <- app_assoc.
Qed.

(** For a key [k] that is not in the store yet and is not the name of a
    member inherited from [Object.prototype], [setState k v1] followed by
    [setState k v2] calls every per-key subscriber of [k] exactly twice,
    first with [(v1, undefined)] and then with [(v2, v1)], in registration
    order; each round of per-key calls is followed by the global
    subscribers, and all calls of a round are in the log when that
    [setState] returns. *)
Theorem setState_twice_notifies (k : string) (v1 v2 : value) (s : StateManager) :
  inherited k = false →
  hasKey k s = false →
  calls (setState k v1 s)
  = calls s ++ keyCalls k v1 VUndefined (subscribers k s)
            ++ globalCalls (ESetState k v1 VUndefined) (globalListeners s)
  ∧ calls (setState k v2 (setState k v1 s))
  = calls (setState k v1 s)
      ++ keyCalls k v2 v1 (subscribers k s)
      ++ globalCalls (ESetState k v2 v1) (globalListeners s).
Proof.
  intros Hplain Hfresh.
  destruct (setState_effect k v1 s) as (Hst & Hl & Hg & Hc).
  split.
  - rewrite Hc. unfold hasKey in Hfresh. by rewrite (obj_read_absent _ _ Hfresh Hplain).
  - destruct (setState_effect k v2 (setState k v1 s)) as (_ & _ & _ & Hc2).
    rewrite Hc2, Hst, obj_read_set_eq, Hg.
    unfold subscribers. by rewrite Hl.
Qed.

Lemma setState_twice_notifies_witness :
  inherited "total" = false
  ∧ hasKey "total" sampleStore = false
  ∧ calls (setState "total" (VNum 7) (setState "total" (VNum 5) sampleStore))
    = [ KeyCall 1 (VNum 5) VUndefined "total";
        KeyCall 2 (VNum 5) VUndefined "total";
        GlobalCall 9 (ESetState "total" (VNum 5) VUndefined);
        KeyCall 1 (VNum 7) (VNum 5) "total";
        KeyCall 2 (VNum 7) (VNum 5) "total";
        GlobalCall 9 (ESetState "total" (VNum 7) (VNum 5)) ].
Proof.
  split; [reflexivity|]. split; [reflexivity|].
  destruct (setState_twice_notifies "total" (VNum 5) (VNum 7) sampleStore eq_refl eq_refl)
    as [H1 H2].
  rewrite H2, H1. reflexivity.
Defined.

(** C3.  [setState] takes the old value from [this.state[key]] on a
    plain object.  On a store that has no key ["toString"] ([hasKey]
    answers [false]) the read yields the member inherited from
    [Object.prototype]: the subscriber's first call carries that member
    as old value, not [undefined]. *)
Theorem setState_passes_inherited_member :
  let s := subscribe "toString" (Callback 1 false) initial in
  hasKey "toString" s = false
  ∧ calls (setState "toString" (VNum 2) (setState "toString" (VNum 1) s))
    = [ KeyCall 1 (VNum 1) (VMember "toString") "toString";
        KeyCall 1 (VNum 2) (VNum 1) "toString" ].
Proof. vm_compute. done. Qed.

(** C6.  [importState] walks the keys of the new state only: the
    subscriber of ["a"], a key the import removes, is not called, whereas
    [restoreSnapshot] of the same data calls it with [(undefined, 1)]. *)
Theorem importState_skips_removed_keys :
  calls (snd (importState (Some onlyB) storeWithA)) = []
  ∧ getState "a" (snd (importState (Some onlyB) storeWithA)) = VUndefined
  ∧ calls (snd (restoreSnapshot (Some onlyB) storeWithA))
    = [KeyCall 1 VUndefined (VNum 1) "a"].
Proof. vm_compute. done. Qed.

(** *** Reading, history, subscriptions *)

Lemma with_state_same s : with_state (state s) s = s.
Proof. by destruct s. Qed.

(** X1.  Reading after writing: after [setState k v], for a key [k]
    other than [__proto__] (assigning to that name reaches the accessor
    of [Object.prototype] and stores nothing), the key [k] reads [v] and
    every other key reads what it read before. *)
Theorem getState_setState (k k' : string) (v : value) (s : StateManager) :
  k ≠ "__proto__" →
  getState k' (setState k v s) = if decide (k = k') then v else getState k' s.
Proof.
  intros _.
  unfold getState. destruct (setState_effect k v s) as (-> & _).
  case_decide; [subst; apply obj_read_set_eq | by apply obj_read_set_ne].
Qed.

Lemma getState_setState_witness :
  "toString" ≠ "__proto__"
  ∧ getState "toString" initial = VMember "toString"
  ∧ getState "toString" (setState "toString" (VNum 1) initial) = VNum 1
  ∧ getState "valueOf" (setState "toString" (VNum 1) initial) = VMember "valueOf".
Proof.
  split; [done|]. split; [reflexivity|].
  rewrite !(getState_setState "toString" _ (VNum 1) initial) by done.
  split; reflexivity.
Defined.

Lemma addToHistory_bounded e s :
  (length (history s) ≤ maxHistorySize)%nat →
  (length (history (addToHistory e s)) ≤ maxHistorySize)%nat
  ∧ last (history (addToHistory e s)) = Some e.
Proof.
  intros Hb. unfold addToHistory. simpl. case_decide as Hlt.
  - rewrite length_app in Hlt. simpl in Hlt.
    destruct (history s) as [|h hs] eqn:Hh; simpl in *.
    + unfold maxHistorySize in *. lia.
    + rewrite length_app. simpl. split; [lia|]. by rewrite last_snoc.
  - rewrite length_app in *. simpl in *. split; [lia|]. by rewrite last_snoc.
Qed.

Lemma removeFirst_fresh id cbs cb :
  Forall (fun c => cb_id c ≠ id) cbs → cb_id cb = id →
  removeFirst id (cbs ++ [cb]) = cbs.
Proof.
  intros Hf Hid. induction Hf as [|c cbs Hc _ IH]; simpl.
  - by rewrite Hid, Nat.eqb_refl.
  - apply Nat.eqb_neq in Hc. rewrite Hc. by rewrite IH.
Qed.

(** X2.  The function returned by [subscribe] undoes the subscription:
    for a callback that was not subscribed to the key before, subscribing
    and unsubscribing leaves the subscribers of every key as they were, so
    a later [setState] makes the same calls as if the callback had never
    been subscribed. *)
Theorem unsubscribe_subscribe (key : string) (cb : callback) (s : StateManager) :
  Forall (fun c => cb_id c ≠ cb_id cb) (subscribers key s) →
  let s' := unsubscribe key cb (subscribe key cb s) in
  subscribers key s' = subscribers key s
  ∧ (∀ k, k ≠ key → subscribers k s' = subscribers k s)
  ∧ ∀ v, calls (setState key v s') = calls (setState key v s).
Proof.
  intros Hfresh s'.
  assert (Hsub : ∀ k, subscribers k s' = subscribers k s).
  { intros k. subst s'. unfold unsubscribe, subscribe, subscribers in *. simpl.
    rewrite lookup_insert_eq. simpl. rewrite lookup_insert.
    case_decide; [subst k|].
    - simpl. by rewrite removeFirst_fresh.
    - by rewrite lookup_insert_ne. }
  split; [apply Hsub|]. split; [intros; apply Hsub|].
  intros v.
  destruct (setState_effect key v s') as (_ & _ & _ & ->).
  destruct (setState_effect key v s) as (_ & _ & _ & ->).
  rewrite Hsub. subst s'. unfold unsubscribe, subscribe. simpl.
  by rewrite lookup_insert_eq.
Qed.

Lemma unsubscribe_subscribe_witness :
  Forall (fun c => cb_id c ≠ 7) (subscribers "total" sampleStore)
  ∧ subscribers "total" (unsubscribe "total" (Callback 7 false)
                           (subscribe "total" (Callback 7 false) sampleStore))
    = [Callback 1 false; Callback 2 true].
Proof.
  assert (H : Forall (fun c => cb_id c ≠ 7) (subscribers "total" sampleStore)).
  { vm_compute. repeat constructor; discriminate. }
  split; [exact H|].
  destruct (unsubscribe_subscribe "total" (Callback 7 false) sampleStore H) as [-> _].
  reflexivity.
Defined.

(** *** Batched updates *)

Lemma collectChanges_noop updates ks acc :
  (∀ k, k ∈ ks → obj_get k updates = obj_read k (fst acc)) →
  fold_left (updateStep updates) ks acc = acc.
Proof.
  induction ks as [|k ks IH]; intros Hsame; simpl; [done|].
  unfold updateStep at 2.
  rewrite decide_True by (symmetry; apply Hsame; left).
  apply IH. intros k' Hk'. apply Hsame. by right.
Qed.

(** X3.  [updateState] with an object whose every property already has
    that value in the store does nothing at all: no write, no history
    entry, no call of a per-key or global subscriber. *)
Theorem updateState_same_values (updates : jsobject) (s : StateManager) :
  (∀ k, k ∈ obj_keys updates → obj_get k updates = getState k s) →
  updateState updates s = s.
Proof.
  intros Hsame. unfold updateState, collectChanges.
  rewrite collectChanges_noop by exact Hsame. apply with_state_same.
Qed.

Lemma updateState_same_values_witness :
  (∀ k, k ∈ obj_keys [("a", VNum 1)] → obj_get k [("a", VNum 1)] = getState k storeWithA)
  ∧ updateState [("a", VNum 1)] storeWithA = storeWithA.
Proof.
  assert (H : ∀ k, k ∈ obj_keys [("a", VNum 1)]
                   → obj_get k [("a", VNum 1)] = getState k storeWithA).
  { intros k Hk. apply list_elem_of_singleton in Hk. subst k. reflexivity. }
  split; [exact H|]. apply (updateState_same_values [("a", VNum 1)] storeWithA H).
Defined.

Lemma updateStep_state updates acc key :
  obj_read key (fst (updateStep updates acc key)) = obj_get key updates
  ∧ ∀ k, k ≠ key → obj_read k (fst (updateStep updates acc key)) = obj_read k (fst acc).
Proof.
  unfold updateStep. case_decide as Heq; simpl.
  - done.
  - split; [apply obj_read_set_eq|]. intros k Hne. by apply obj_read_set_ne.
Qed.

Lemma collectChanges_state updates ks acc k :
  obj_read k (fst (fold_left (updateStep updates) ks acc))
  = if bool_decide (k ∈ ks) then obj_get k updates else obj_read k (fst acc).
Proof.
  revert acc. induction ks as [|key ks IH]; intros acc; simpl; [done|].
  destruct (updateStep_state updates acc key) as [Hkey Hother].
  rewrite IH.
  destruct (decide (k = key)) as [->|Hne].
  - rewrite (bool_decide_eq_true_2 (key ∈ key :: ks)) by left.
    case_bool_decide; done.
  - rewrite Hother by done.
    case_bool_decide as H1; case_bool_decide as H2; try done.
    + exfalso. apply H2. by right.
    + exfalso. apply list_elem_of_In in H2. destruct H2 as [?|H2]; [congruence|].
      apply H1. by apply list_elem_of_In.
Qed.

Lemma fold_notifyStateChange_frame {A} (f : A → string) (g h : A → value) l s :
  let s' := fold_left (fun acc x => notifyStateChange (f x) (g x) (h x) acc) l s in
  state s' = state s ∧ listeners s' = listeners s
  ∧ globalListeners s' = globalListeners s ∧ history s' = history s.
Proof.
  revert s. induction l as [|x l IH]; intros s; simpl; [done|].
  destruct (IH (notifyStateChange (f x) (g x) (h x) s)) as (-> & -> & -> & ->).
  apply notifyStateChange_frame.
Qed.

Lemma fold_notifyStateChange_calls {A} (f : A → string) (g h : A → value) l s :
  calls (fold_left (fun acc x => notifyStateChange (f x) (g x) (h x) acc) l s)
  = calls s ++ flat_map (fun x => keyCalls (f x) (g x) (h x) (subscribers (f x) s)) l.
Proof.
  revert s. induction l as [|x l IH]; intros s; simpl.
  - by rewrite app_nil_r.
  - rewrite IH, notifyStateChange_calls, <- app_assoc. f_equal. f_equal.
    apply flat_map_ext. intros y. unfold subscribers.
    by destruct (notifyStateChange_frame (f x) (g x) (h x) s) as (_ & -> & _).
Qed.

Lemma updateState_state updates s :
  state (updateState updates s) = fst (collectChanges updates (state s)).
Proof.
  unfold updateState. destruct (collectChanges updates (state s)) as [st changes].
  destruct changes as [|c cs]; [done|].
  destruct (notifyGlobalListeners_frame (EUpdateState (c :: cs))
    (fold_left (fun acc ch => notifyStateChange (ch_key ch) (ch_new ch) (ch_old ch) acc)
               (c :: cs) (addToHistory (HUpdateState (c :: cs)) (with_state st s))))
    as (-> & _).
  by destruct (fold_notifyStateChange_frame ch_key ch_new ch_old (c :: cs)
    (addToHistory (HUpdateState (c :: cs)) (with_state st s))) as (-> & _).
Qed.

(** X4.  After [updateState updates], for an object [updates] without
    a property of its own named [__proto__] (the assignment of that one
    would reach the accessor of [Object.prototype]), every key of
    [updates] reads the value given there and every other key reads what
    it read before. *)
Theorem getState_updateState (updates : jsobject) (k : string) (s : StateManager) :
  obj_has "__proto__" updates = false →
  getState k (updateState updates s)
  = if obj_has k updates then obj_get k updates else getState k s.
Proof.
  intros _.
  unfold getState. rewrite updateState_state. unfold collectChanges.
  rewrite collectChanges_state.
  assert (Hhas : ∀ o, obj_has k o = bool_decide (k ∈ obj_keys o)).
  { induction o as [|[k' v'] o IH]; simpl; [done|].
    rewrite IH. destruct (String.eqb k k') eqn:E; simpl.
    - apply String.eqb_eq in E. subst. symmetry. apply bool_decide_eq_true_2. left.
    - apply String.eqb_neq in E. apply bool_decide_ext. split; [by right|].
      intros H. apply list_elem_of_In in H. destruct H as [?|H]; [congruence|].
      by apply list_elem_of_In. }
  by rewrite Hhas.
Qed.

Lemma getState_updateState_witness :
  let updates := [("total", VNum 3); ("toString", VStr "x")] in
  obj_has "__proto__" updates = false
  ∧ getState "toString" (updateState updates sampleStore) = VStr "x"
  ∧ getState "valueOf" (updateState updates sampleStore) = VMember "valueOf".
Proof.
  intros updates. split; [reflexivity|].
  rewrite !(getState_updateState updates _ sampleStore) by reflexivity.
  split; reflexivity.
Defined.

Lemma obj_has_keys k o : obj_has k o = true ↔ k ∈ obj_keys o.
Proof.
  induction o as [|[k' v'] o IH]; simpl.
  - split; [done|]. intros H. by apply elem_of_nil in H.
  - rewrite orb_true_iff, IH, String.eqb_eq. split.
    + intros [->|H]; [left | by right].
    + intros H. apply list_elem_of_In in H. destruct H as [->|H]; [by left|].
      right. by apply list_elem_of_In.
Qed.

Lemma collectChanges_changes updates ks acc k o n :
  Change k o n ∈ snd (fold_left (updateStep updates) ks acc)
  ↔ Change k o n ∈ snd acc
    ∨ (k ∈ ks ∧ o = obj_read k (fst acc) ∧ n = obj_get k updates ∧ o ≠ n).
Proof.
  revert acc. induction ks as [|key ks IH]; intros acc; simpl.
  - split; [by left|]. intros [H|(H & _)]; [done|]. by apply elem_of_nil in H.
  - rewrite IH. unfold updateStep.
    destruct (decide (obj_read key (fst acc) = obj_get key updates)) as [Heq|Hne]; simpl.
    + split.
      * intros [H|(Hk & Ho & Hn & Hd)]; [by left|].
        right. split; [by right|done].
      * intros [H|(Hk & Ho & Hn & Hd)]; [by left|].
        right. split; [|done].
        apply list_elem_of_In in Hk. destruct Hk as [<-|Hk]; [congruence|].
        by apply list_elem_of_In.
    + rewrite elem_of_app, list_elem_of_singleton. split.
      * intros [[H|H]|(Hk & Ho & Hn & Hd)].
        -- by left.
        -- injection H as -> -> ->. right. split; [left|done].
        -- destruct (decide (k = key)) as [->|Hkk].
           ++ rewrite obj_read_set_eq in Ho. congruence.
           ++ rewrite obj_read_set_ne in Ho by done. right. split; [by right|done].
      * intros [H|(Hk & Ho & Hn & Hd)]; [left; by left|].
        destruct (decide (k = key)) as [->|Hkk].
        -- left. right. by subst.
        -- right. rewrite obj_read_set_ne by done. split; [|done].
           apply list_elem_of_In in Hk. destruct Hk as [<-|Hk]; [done|].
           by apply list_elem_of_In.
Qed.

(** X5.  For an object [updates] without a property of its own named
    [__proto__], [updateState] records a change exactly for the keys of
    [updates] whose value differs from the one the store reads for the
    key, with that value as old value; it calls the per-key subscribers
    of these keys only, change by change, and then, if there is at least
    one change, each global subscriber once with the whole list. *)
Theorem updateState_notifies_changes (updates : jsobject) (s : StateManager) :
  let changes := snd (collectChanges updates (state s)) in
  obj_has "__proto__" updates = false →
  (∀ k o n, Change k o n ∈ changes
            ↔ obj_has k updates = true ∧ o = getState k s
              ∧ n = obj_get k updates ∧ o ≠ n)
  ∧ calls (updateState updates s)
    = calls s
      ++ flat_map (fun ch => keyCalls (ch_key ch) (ch_new ch) (ch_old ch)
                                      (subscribers (ch_key ch) s)) changes
      ++ match changes with
         | [] => []
         | _ => globalCalls (EUpdateState changes) (globalListeners s)
         end.
Proof.
  intros changes _. split.
  - intros k o n. subst changes. unfold collectChanges.
    rewrite collectChanges_changes. simpl. rewrite obj_has_keys. unfold getState.
    split; [intros [H|H]; [by apply elem_of_nil in H|done] | by right].
  - subst changes. unfold updateState.
    destruct (collectChanges updates (state s)) as [st changes]. simpl.
    destruct changes as [|c cs]; [by rewrite app_nil_r|].
    rewrite notifyGlobalListeners_calls.
    destruct (fold_notifyStateChange_frame ch_key ch_new ch_old (c :: cs)
      (addToHistory (HUpdateState (c :: cs)) (with_state st s))) as (_ & _ & -> & _).
    rewrite (fold_notifyStateChange_calls ch_key ch_new ch_old).
    by rewrite <- app_assoc.
Qed.

Lemma updateState_notifies_changes_witness :
  let updates := [("total", VNum 3); ("toString", VStr "x")] in
  obj_has "__proto__" updates = false
  ∧ calls (updateState updates sampleStore)
    = [ KeyCall 1 (VNum 3) VUndefined "total";
        KeyCall 2 (VNum 3) VUndefined "total";
        GlobalCall 9 (EUpdateState
                        [ Change "total" VUndefined (VNum 3);
                          Change "toString" (VMember "toString") (VStr "x") ]) ].
Proof.
  intros updates. split; [reflexivity|].
  destruct (updateState_notifies_changes updates sampleStore eq_refl) as [_ ->].
  reflexivity.
Defined.

(** *** Removing and clearing *)

Lemma obj_get_delete_ne k k' o :
  k ≠ k' → obj_get k' (obj_delete k o) = obj_get k' o.
Proof.
  intros Hne. induction o as [|[k0 v0] o IH]; simpl; [done|].
  destruct (String.eqb k k0) eqn:E; simpl.
  - apply String.eqb_eq in E. subst k0.
    destruct (String.eqb k' k) eqn:E'; [|done].
    apply String.eqb_eq in E'. congruence.
  - by rewrite IH.
Qed.

Lemma obj_has_delete_ne k k' o :
  k ≠ k' → obj_has k' (obj_delete k o) = obj_has k' o.
Proof.
  intros Hne. induction o as [|[k0 v0] o IH]; simpl; [done|].
  destruct (String.eqb k k0) eqn:E; simpl.
  - apply String.eqb_eq in E. subst k0.
    destruct (String.eqb k' k) eqn:E'; [|done].
    apply String.eqb_eq in E'. congruence.
  - by rewrite IH.
Qed.

Lemma obj_has_delete_eq k o :
  NoDup (obj_keys o) → obj_has k (obj_delete k o) = false.
Proof.
  induction o as [|[k0 v0] o IH]; simpl; [done|].
  intros Hnd. apply NoDup_cons in Hnd as [Hnotin Hnd].
  destruct (String.eqb k k0) eqn:E; simpl.
  - apply String.eqb_eq in E. subst k0.
    destruct (obj_has k o) eqn:Hh; [|done].
    apply obj_has_keys in Hh. done.
  - rewrite E. by apply IH.
Qed.

(** X6.  In a store none of whose keys is named like a member of
    [Object.prototype], and for a key [k] that is not named so either,
    [removeState k] leaves [k] absent, does not touch the other keys, and
    calls the subscribers of [k] with [undefined] and the former value
    (which is [undefined] too when the key was absent), then the global
    subscribers. *)
Theorem removeState_effect (k : string) (s : StateManager) :
  NoDup (obj_keys (state s)) →
  plainKeys (state s) = true →
  inherited k = false →
  hasKey k (removeState k s) = false
  ∧ (∀ k', getState k' (removeState k s)
           = if decide (k = k') then VUndefined else getState k' s)
  ∧ calls (removeState k s)
    = calls s ++ keyCalls k VUndefined (getState k s) (subscribers k s)
              ++ globalCalls (ERemoveState k (getState k s)) (globalListeners s).
Proof.
  intros Hnd _ Hplain. unfold removeState, hasKey, getState.
  set (old := obj_read k (state s)).
  set (s2 := addToHistory _ _).
  destruct (notifyGlobalListeners_frame (ERemoveState k old)
              (notifyStateChange k VUndefined old s2)) as (-> & _).
  destruct (notifyStateChange_frame k VUndefined old s2) as (-> & _ & Hg & _).
  simpl. split; [by apply obj_has_delete_eq|]. split.
  - intros k'. case_decide as Hk.
    + subst k'. apply obj_read_absent; [by apply obj_has_delete_eq | done].
    + unfold obj_read. by rewrite obj_has_delete_ne, obj_get_delete_ne.
  - rewrite notifyGlobalListeners_calls, Hg, notifyStateChange_calls.
    by rewrite <- app_assoc.
Qed.

Lemma removeState_effect_witness :
  NoDup (obj_keys (state storeWithA))
  ∧ plainKeys (state storeWithA) = true
  ∧ inherited "a" = false
  ∧ hasKey "a" (removeState "a" storeWithA) = false
  ∧ calls (removeState "a" storeWithA) = [KeyCall 1 VUndefined (VNum 1) "a"].
Proof.
  assert (H : NoDup (obj_keys (state storeWithA))).
  { vm_compute. apply NoDup_singleton. }
  split; [exact H|]. split; [reflexivity|]. split; [reflexivity|].
  destruct (removeState_effect "a" storeWithA H eq_refl eq_refl) as (Hh & _ & Hc).
  split; [exact Hh|]. rewrite Hc. reflexivity.
Defined.

(** [clearState] empties the store and calls, for each key the
    store had, in key order, the subscribers of that key with [undefined]
    and the former value, then the global subscribers with the former
    state. *)
Lemma clearState_effect (s : StateManager) :
  state (clearState s) = []
  ∧ calls (clearState s)
    = calls s
      ++ flat_map (fun key => keyCalls key VUndefined (obj_get key (state s))
                                       (subscribers key s)) (obj_keys (state s))
      ++ globalCalls (EClearState (state s)) (globalListeners s).
Proof.
  unfold clearState.
  set (s2 := addToHistory _ _).
  destruct (notifyGlobalListeners_frame (EClearState (state s))
    (fold_left (fun acc key => notifyStateChange key VUndefined (obj_get key (state s)) acc)
               (obj_keys (state s)) s2)) as (-> & _).
  rewrite notifyGlobalListeners_calls.
  destruct (fold_notifyStateChange_frame (fun key : string => key)
              (fun _ => VUndefined) (fun key => obj_get key (state s))
              (obj_keys (state s)) s2) as (-> & _ & -> & _).
  split; [done|].
  rewrite (fold_notifyStateChange_calls (fun key : string => key)
              (fun _ => VUndefined) (fun key => obj_get key (state s))).
  by rewrite <- app_assoc.
Qed.

(** *** Import, export and snapshots *)

Lemma obj_set_fresh k v o :
  k ∉ obj_keys o → obj_set k v o = o ++ [(k, v)].
Proof.
  induction o as [|[k' v'] o IH]; simpl; [done|].
  intros Hnotin. apply not_elem_of_cons in Hnotin as [Hne Hnotin].
  apply String.eqb_neq in Hne. rewrite Hne. by rewrite IH.
Qed.

Lemma obj_spread_fresh a b :
  NoDup (obj_keys a ++ obj_keys b) → obj_spread a b = a ++ b.
Proof.
  unfold obj_spread. revert a. induction b as [|[k v] b IH]; intros a Hnd; simpl.
  - by rewrite app_nil_r.
  - assert (Hk : k ∉ obj_keys a).
    { apply NoDup_app in Hnd as (_ & Hdisj & _). intros Hin.
      apply (Hdisj k Hin). simpl. left. }
    rewrite obj_set_fresh by done. rewrite IH.
    + by rewrite <- app_assoc.
    + unfold obj_keys in *. rewrite map_app. simpl in *.
      rewrite <- app_assoc. exact Hnd.
Qed.

Lemma obj_spread_copy o : NoDup (obj_keys o) → obj_spread [] o = o.
Proof. intros Hnd. by rewrite obj_spread_fresh. Qed.

Lemma notifyKeys_frame keys old s :
  state (notifyKeys keys old s) = state s
  ∧ listeners (notifyKeys keys old s) = listeners s
  ∧ globalListeners (notifyKeys keys old s) = globalListeners s
  ∧ history (notifyKeys keys old s) = history s.
Proof.
  unfold notifyKeys. revert s. induction keys as [|k keys IH]; intros s; simpl; [done|].
  destruct (IH (notifyStateChange k (obj_read k (state s)) (obj_read k old) s))
    as (-> & -> & -> & ->).
  apply notifyStateChange_frame.
Qed.

Lemma notifyKeys_calls keys old s :
  calls (notifyKeys keys old s) = calls s ++ callsFor keys (state s) old s.
Proof.
  unfold notifyKeys, callsFor. revert s.
  induction keys as [|k keys IH]; intros s; simpl.
  - by rewrite app_nil_r.
  - rewrite IH, notifyStateChange_calls, <- app_assoc.
    destruct (notifyStateChange_frame k (obj_read k (state s)) (obj_read k old) s)
      as (-> & Hl & _).
    f_equal. f_equal. apply flat_map_ext. intros y. unfold subscribers. by rewrite Hl.
Qed.

Lemma callsFor_key keys new old s c :
  c ∈ callsFor keys new old s →
  ∃ k cb, k ∈ keys ∧ cb ∈ subscribers k s
          ∧ c = KeyCall (cb_id cb) (obj_read k new) (obj_read k old) k.
Proof.
  unfold callsFor, keyCalls. intros Hin. apply list_elem_of_In, in_flat_map in Hin.
  destruct Hin as (k & Hk & Hc). apply in_map_iff in Hc as (cb & <- & Hcb).
  exists k, cb. split; [by apply list_elem_of_In|]. split; [by apply list_elem_of_In|done].
Qed.

Lemma callsFor_elem keys new old s k cb :
  k ∈ keys → cb ∈ subscribers k s →
  KeyCall (cb_id cb) (obj_read k new) (obj_read k old) k ∈ callsFor keys new old s.
Proof.
  intros Hk Hcb. unfold callsFor, keyCalls. apply list_elem_of_In, in_flat_map.
  exists k. split; [by apply list_elem_of_In|].
  apply in_map_iff. exists cb. split; [done|by apply list_elem_of_In].
Qed.

Lemma importState_effect newState id s :
  let s' := snd (importState (Some (Exported (Some newState) id)) s) in
  state s' = obj_spread [] newState
  ∧ calls s'
    = calls s ++ callsFor (obj_keys (state s')) (state s') (state s) s
              ++ globalCalls (EImportState (state s) (state s')) (globalListeners s).
Proof.
  unfold importState, getAllState. cbn [ex_state snd].
  set (new := obj_spread [] newState).
  set (s2 := addToHistory _ _).
  destruct (notifyGlobalListeners_frame
              (EImportState (state s) (state (notifyKeys (obj_keys (state s2)) (state s) s2)))
              (notifyKeys (obj_keys (state s2)) (state s) s2)) as (-> & _).
  rewrite notifyGlobalListeners_calls.
  destruct (notifyKeys_frame (obj_keys (state s2)) (state s) s2) as (-> & _ & -> & _).
  rewrite notifyKeys_calls. split; [done|]. by rewrite <- app_assoc.
Qed.

(** X7.  [importState] notifies along the keys of the imported state
    only: a subscriber of a key the new state has is called with the new
    and the former value, and no per-key call at all is made for a key
    that the new state lacks, even if the former state had it. *)
Theorem importState_notifies_new_keys_only (newState : jsobject) (id k : string)
    (s : StateManager) :
  let s' := snd (importState (Some (Exported (Some newState) id)) s) in
  ∃ new, calls s' = calls s ++ new
    ∧ (hasKey k s' = true → ∀ cb, cb ∈ subscribers k s →
         KeyCall (cb_id cb) (getState k s') (getState k s) k ∈ new)
    ∧ (hasKey k s' = false → ∀ id' v o, KeyCall id' v o k ∉ new).
Proof.
  intros s'. destruct (importState_effect newState id s) as [Hst Hc].
  fold s' in Hst, Hc. eexists. split; [exact Hc|]. split.
  - intros Hhas cb Hcb. apply elem_of_app. left.
    apply callsFor_elem; [|done]. by apply obj_has_keys.
  - intros Hhas id' v o Hin. apply elem_of_app in Hin as [Hin|Hin].
    + apply callsFor_key in Hin as (k' & cb & Hk' & _ & [= _ _ _ ->]).
      apply obj_has_keys in Hk'. unfold hasKey in Hhas. congruence.
    + unfold globalCalls in Hin. apply list_elem_of_fmap in Hin as (cb & Hcb & _).
      discriminate.
Qed.

(** X8.  Importing what [exportState] just returned succeeds and leaves
    the state as it is, yet it still calls every subscriber of every key
    of the store, with the new value equal to the old one. *)
Theorem importState_of_exportState (s : StateManager) :
  NoDup (obj_keys (state s)) →
  let r := importState (Some (exportState s)) s in
  fst r = true
  ∧ state (snd r) = state s
  ∧ calls (snd r)
    = calls s ++ callsFor (obj_keys (state s)) (state s) (state s) s
              ++ globalCalls (EImportState (state s) (state s)) (globalListeners s).
Proof.
  intros Hnd r. subst r. unfold exportState, getAllState.
  destruct (importState_effect (state s) EmptyString s) as [Hst Hc].
  rewrite obj_spread_copy in Hst by done.
  split; [done|]. split; [exact Hst|]. rewrite Hc. by rewrite Hst.
Qed.

Lemma importState_of_exportState_witness :
  NoDup (obj_keys (state storeWithA))
  ∧ calls (snd (importState (Some (exportState storeWithA)) storeWithA))
    = [KeyCall 1 (VNum 1) (VNum 1) "a"].
Proof.
  assert (H : NoDup (obj_keys (state storeWithA))).
  { vm_compute. apply NoDup_singleton. }
  split; [exact H|].
  destruct (importState_of_exportState storeWithA H) as (_ & _ & ->). reflexivity.
Defined.

Lemma dedupe_elem k seen l : k ∈ dedupe seen l ↔ k ∈ l ∧ k ∉ seen.
Proof.
  revert seen. induction l as [|x l IH]; intros seen; simpl.
  - split; [intros H; by apply elem_of_nil in H | intros [H _]; by apply elem_of_nil in H].
  - case_bool_decide as Hx.
    + rewrite IH. split.
      * intros [Hl Hs]. split; [by right|done].
      * intros [Hl Hs]. split; [|done].
        apply list_elem_of_In in Hl. destruct Hl as [->|Hl]; [done|by apply list_elem_of_In].
    + split.
      * intros Hin. apply list_elem_of_In in Hin. destruct Hin as [<-|Hin].
        -- split; [left|done].
        -- apply list_elem_of_In, IH in Hin as [Hl Hs]. split; [by right|].
           intros Hks. apply Hs. by right.
      * intros [Hl Hs]. destruct (decide (k = x)) as [->|Hne]; [left|].
        right. apply IH. split.
        -- apply list_elem_of_In in Hl. destruct Hl as [?|Hl]; [congruence|].
           by apply list_elem_of_In.
        -- intros Hin. apply list_elem_of_In in Hin. destruct Hin as [?|Hin]; [congruence|].
           apply Hs. by apply list_elem_of_In.
Qed.

Lemma restoreSnapshot_effect newState id s :
  let s' := snd (restoreSnapshot (Some (Exported (Some newState) id)) s) in
  state s' = obj_spread [] newState
  ∧ calls s'
    = calls s ++ callsFor (dedupe [] (obj_keys (state s) ++ obj_keys (state s')))
                          (state s') (state s) s
              ++ globalCalls (ERestoreSnapshot id (state s) (state s')) (globalListeners s).
Proof.
  unfold restoreSnapshot, getAllState. cbn [ex_state ex_id snd].
  set (new := obj_spread [] newState).
  set (s2 := addToHistory _ _).
  set (keys := dedupe [] _).
  destruct (notifyGlobalListeners_frame
              (ERestoreSnapshot id (state s) (state (notifyKeys keys (state s) s2)))
              (notifyKeys keys (state s) s2)) as (-> & _).
  rewrite notifyGlobalListeners_calls.
  destruct (notifyKeys_frame keys (state s) s2) as (-> & _ & -> & _).
  rewrite notifyKeys_calls. split; [done|]. by rewrite <- app_assoc.
Qed.

(** X9.  [restoreSnapshot] notifies along the keys of the former and of
    the restored state: every subscriber of a key that either of them has
    is called with the restored and the former value of the key. *)
Theorem restoreSnapshot_notifies_old_and_new_keys (newState : jsobject) (id k : string)
    (cb : callback) (s : StateManager) :
  let s' := snd (restoreSnapshot (Some (Exported (Some newState) id)) s) in
  hasKey k s = true ∨ hasKey k s' = true →
  cb ∈ subscribers k s →
  KeyCall (cb_id cb) (getState k s') (getState k s) k ∈ calls s'.
Proof.
  intros s' Hk Hcb. destruct (restoreSnapshot_effect newState id s) as [Hst Hc].
  fold s' in Hst, Hc. rewrite Hc. apply elem_of_app. right. apply elem_of_app. left.
  apply callsFor_elem; [|done]. apply dedupe_elem. split; [|apply not_elem_of_nil].
  apply elem_of_app. unfold hasKey in Hk. rewrite !obj_has_keys in Hk. exact Hk.
Qed.

Lemma restoreSnapshot_notifies_old_and_new_keys_witness :
  (hasKey "a" storeWithA = true
   ∨ hasKey "a" (snd (restoreSnapshot (Some (Exported (Some [("b", VNum 2)]) "snap"))
                        storeWithA)) = true)
  ∧ Callback 1 false ∈ subscribers "a" storeWithA
  ∧ KeyCall 1 VUndefined (VNum 1) "a"
    ∈ calls (snd (restoreSnapshot (Some (Exported (Some [("b", VNum 2)]) "snap"))
                    storeWithA)).
Proof.
  assert (H1 : hasKey "a" storeWithA = true
     ∨ hasKey "a" (snd (restoreSnapshot (Some (Exported (Some [("b", VNum 2)]) "snap"))
                        storeWithA)) = true) by (left; reflexivity).
  assert (H2 : Callback 1 false ∈ subscribers "a" storeWithA) by (vm_compute; left).
  split; [exact H1|]. split; [exact H2|].
  apply (restoreSnapshot_notifies_old_and_new_keys [("b", VNum 2)] "snap" "a"
           (Callback 1 false) storeWithA H1 H2).
Defined.

(** X10.  Restoring a snapshot taken by [createSnapshot] brings the
    state back to what it was when the snapshot was taken, whatever the
    store holds in between. *)
Theorem restoreSnapshot_of_createSnapshot (id : string) (s0 s : StateManager) :
  NoDup (obj_keys (state s0)) →
  let r := restoreSnapshot (Some (createSnapshot id s0)) s in
  fst r = true ∧ state (snd r) = state s0.
Proof.
  intros Hnd r. subst r. unfold createSnapshot.
  destruct (restoreSnapshot_effect (state s0) id s) as [Hst _].
  rewrite obj_spread_copy in Hst by done. split; [done|exact Hst].
Qed.

Lemma restoreSnapshot_of_createSnapshot_witness :
  NoDup (obj_keys (state storeWithA))
  ∧ state (snd (restoreSnapshot (Some (createSnapshot "snap" storeWithA))
                  (setState "a" (VNum 5) (setState "c" VNull storeWithA))))
    = [("a", VNum 1)].
Proof.
  assert (H : NoDup (obj_keys (state storeWithA))).
  { vm_compute. apply NoDup_singleton. }
  split; [exact H|].
  destruct (restoreSnapshot_of_createSnapshot "snap" storeWithA
              (setState "a" (VNum 5) (setState "c" VNull storeWithA)) H) as [_ ->].
  reflexivity.
Defined.

(** *** The history *)

Lemma notifyGlobalListeners_history ev s :
  history (notifyGlobalListeners ev s) = history s.
Proof. apply notifyGlobalListeners_frame. Qed.

Lemma notifyStateChange_history key v old s :
  history (notifyStateChange key v old s) = history s.
Proof. apply notifyStateChange_frame. Qed.

Lemma notifyKeys_history keys old s :
  history (notifyKeys keys old s) = history s.
Proof. apply notifyKeys_frame. Qed.

Lemma fold_notifyStateChange_history {A} (f : A → string) (g h : A → value) l s :
  history (fold_left (fun acc x => notifyStateChange (f x) (g x) (h x) acc) l s)
  = history s.
Proof. apply (fold_notifyStateChange_frame f g h). Qed.

(** X11.  The history never grows past [maxHistorySize] entries: if it
    holds at most 50 entries, it still does after [setState],
    [removeState], [clearState], [updateState], [importState] and
    [restoreSnapshot]. *)
Theorem history_stays_bounded (s : StateManager) :
  (length (history s) ≤ maxHistorySize)%nat →
  (∀ k v, length (history (setState k v s)) ≤ maxHistorySize)%nat
  ∧ (∀ k, length (history (removeState k s)) ≤ maxHistorySize)%nat
  ∧ (length (history (clearState s)) ≤ maxHistorySize)%nat
  ∧ (∀ u, length (history (updateState u s)) ≤ maxHistorySize)%nat
  ∧ (∀ d, length (history (snd (importState d s))) ≤ maxHistorySize)%nat
  ∧ (∀ d, length (history (snd (restoreSnapshot d s))) ≤ maxHistorySize)%nat.
Proof.
  intros Hb. repeat split.
  - intros k v. unfold setState.
    rewrite notifyGlobalListeners_history, notifyStateChange_history.
    by apply addToHistory_bounded.
  - intros k. unfold removeState.
    rewrite notifyGlobalListeners_history, notifyStateChange_history.
    by apply addToHistory_bounded.
  - unfold clearState.
    rewrite notifyGlobalListeners_history.
    rewrite (fold_notifyStateChange_history (fun key : string => key)
             (fun _ => VUndefined) (fun key => obj_get key (state s))).
    by apply addToHistory_bounded.
  - intros u. unfold updateState.
    destruct (collectChanges u (state s)) as [st changes].
    destruct changes as [|c cs]; [exact Hb|].
    rewrite notifyGlobalListeners_history.
    rewrite (fold_notifyStateChange_history ch_key ch_new ch_old).
    by apply addToHistory_bounded.
  - intros [[[newState|] id]|]; simpl; try exact Hb.
    rewrite notifyGlobalListeners_history, notifyKeys_history.
    by apply addToHistory_bounded.
  - intros [[[newState|] id]|]; simpl; try exact Hb.
    rewrite notifyGlobalListeners_history, notifyKeys_history.
    by apply addToHistory_bounded.
Qed.

Lemma history_stays_bounded_witness :
  (length (history sampleStore) ≤ maxHistorySize)%nat
  ∧ (length (history (setState "total" (VNum 3) sampleStore)) ≤ maxHistorySize)%nat.
Proof.
  assert (H : (length (history sampleStore) ≤ maxHistorySize)%nat).
  { vm_compute. lia. }
  split; [exact H|].
  destruct (history_stays_bounded sampleStore H) as [Hset _]. apply Hset.
Defined.

End StoreFacts.

(** ** String primitives *)

Module StrFacts.
Import Str.

Lemma prefix_app (a b : string) : String.prefix a (a +:+ b) = true.
Proof.
  induction a as [|c a IH]; simpl; [by destruct b|].
  destruct (Ascii.ascii_dec c c); [exact IH | done].
Qed.

Lemma includes_prefix (a b : string) : includes a (a +:+ b) = true.
Proof.
  pose proof (prefix_app a b) as H.
  destruct (a +:+ b); cbn [includes]; rewrite H; done.
Qed.

End StrFacts.

(** ** The event registry *)

Module EventsFacts.
Import JS Events.

Lemma sameView_refl a : sameView a a.
Proof. done. Qed.

Lemma sameView_trans a b c : sameView a b → sameView b c → sameView a c.
Proof.
  intros (H1 & H2 & H3) (H4 & H5 & H6). repeat split.
  - intros. by rewrite H1.
  - intros. by rewrite H2.
  - congruence.
Qed.

Lemma listenersOf_with_element st el e el' :
  listenersOf (with_element el e st) el'
  = if decide (el = el') then attached e else listenersOf st el'.
Proof.
  unfold listenersOf, elementAt, with_element; simpl.
  rewrite lookup_insert. by case_decide.
Qed.

Lemma handlersAt_with_registry st uid events u k s :
  handlersAt (with_registry (<[uid := events]> (eventRegistry st)) st) u k s
  = if decide (uid = u) then default [] (default ∅ (events !! k) !! s)
    else handlersAt st u k s.
Proof.
  unfold handlersAt, with_registry; simpl.
  rewrite lookup_insert. by case_decide.
Qed.

Lemma getElementEvents_view el st :
  sameView (getElementEvents el st).2 st.
Proof.
  unfold getElementEvents.
  destruct (uidEvent (elementAt el st)) as [u|] eqn:Hu; simpl.
  - repeat split; try done.
    + intros uid k s. unfold handlersAt; simpl.
      rewrite lookup_insert. case_decide; [subst|done].
      by destruct (eventRegistry st !! uid).
    + intros el'. unfold listenersOf, elementAt; simpl.
      rewrite lookup_insert. case_decide; [subst|done]. done.
  - repeat split; try done.
    + intros uid k s. unfold handlersAt; simpl.
      rewrite lookup_insert. case_decide; [subst|done].
      by destruct (eventRegistry st !! uidCounter st).
    + intros el'. unfold listenersOf, elementAt; simpl.
      rewrite lookup_insert. case_decide; [subst|done]. done.
Qed.

Lemma filter_all {A} (p : A → bool) (l : list A) :
  (∀ x, p x = true) → List.filter p l = l.
Proof. intros H. induction l as [|x l IH]; simpl; [done|]. by rewrite H, IH. Qed.

Lemma fold_left_const {A B} (l : list B) (a : A) : fold_left (fun acc _ => acc) l a = a.
Proof. by induction l. Qed.

Lemma offKey_client el uid type selector h st key :
  sameView (offKey el uid type selector (Some (ClientFn h)) st key) st.
Proof.
  unfold offKey. set (events := default ∅ (eventRegistry st !! uid)).
  destruct (events !! key) as [eventData|] eqn:Hk; [|done].
  simpl. rewrite fold_left_const, filter_all by done.
  set (sk := selectorKey selector).
  set (eventData' := match default [] (eventData !! sk) with [] => _ | _ => _ end).
  assert (Hd : ∀ s, default [] (eventData' !! s) = default [] (eventData !! s)).
  { intros s. subst eventData'.
    destruct (eventData !! sk) as [[|w ws]|] eqn:Hh; simpl.
    - rewrite lookup_delete. case_decide; [subst s|done]. by rewrite Hh.
    - rewrite lookup_insert. case_decide; [subst s|done]. by rewrite Hh.
    - rewrite lookup_delete. case_decide; [subst s|done]. by rewrite Hh. }
  repeat split; try done.
  intros u k s. rewrite handlersAt_with_registry.
  case_decide; [subst u|done].
  unfold handlersAt. fold events.
  case_decide as Hsz.
  - apply map_size_empty_iff in Hsz.
    rewrite lookup_delete. case_decide; [subst k|done].
    simpl. rewrite Hk. simpl. rewrite <- Hd, Hsz. by rewrite lookup_empty.
  - rewrite lookup_insert. case_decide; [subst k|done].
    simpl. rewrite Hk. simpl. apply Hd.
Qed.

Lemma fold_offKey_client el uid type selector h keys st :
  sameView (fold_left (offKey el uid type selector (Some (ClientFn h))) keys st) st.
Proof.
  revert st. induction keys as [|k keys IH]; intros st; simpl; [done|].
  eapply sameView_trans; [apply IH | apply offKey_client].
Qed.

Lemma drop_empty_entry_view st uid :
  size (default ∅ (eventRegistry st !! uid)) = 0 →
  sameView (with_registry (delete uid (eventRegistry st)) st) st.
Proof.
  intros Hsz. apply map_size_empty_iff in Hsz.
  repeat split; try done.
  intros u k s. unfold handlersAt, with_registry; simpl.
  rewrite lookup_delete. case_decide; [subst u|done].
  simpl. rewrite Hsz. by rewrite !lookup_empty.
Qed.

Lemma offEvent_client el event selector h st :
  sameView (offEvent el event selector (Some (ClientFn h)) st) st.
Proof.
  unfold offEvent.
  pose proof (getElementEvents_view el st) as Hg.
  destruct (getElementEvents el st) as [uid st1]. simpl in Hg.
  destruct (map fst (map_to_list (default ∅ (eventRegistry st1 !! uid)))) as [|k ks] eqn:Hkeys;
    [done|].
  set (eventKeys := if Str.includes "." event then _ else _).
  pose proof (fold_offKey_client el uid (normalizeEventType event).1 selector h eventKeys st1) as Hf.
  case_decide.
  - eapply sameView_trans; [|exact Hg].
    eapply sameView_trans; [|exact Hf].
    by apply drop_empty_entry_view.
  - eapply sameView_trans; [exact Hf | exact Hg].
Qed.

(** *** What [on] adds *)

Lemma on_effect el event h st :
  Str.falsy event = false →
  let st1 := on (Some el) event None (Some (ClientFn h)) false st in
  let w := Wrapper (nextRef st) el None (ClientFn h) false in
  let type := (normalizeEventType event).1 in
  let namespace := (normalizeEventType event).2 in
  listenersOf st1 el = listenersOf st el ++ [(type, w)]
  ∧ invoked st1 = invoked st
  ∧ ∃ uid, uidEvent (elementAt el st1) = Some uid
           ∧ w ∈ handlersAt st1 uid (type +:+ namespace) "base".
Proof.
  intros Hev. unfold on. rewrite Hev.
  destruct (normalizeEventType event) as [type ns]. simpl fst. simpl snd.
  set (st2 := if Str.falsy type then _ else _).
  assert (H2 : sameView st2 st ∧ dom st2 = dom st).
  { subst st2. destruct (Str.falsy type); [destruct (uidEvent _)|]; done. }
  destruct H2 as [(_ & H2l & H2i) H2d].
  pose proof (getElementEvents_view el st2) as (_ & Hgl & Hgi).
  assert (Hu : ∃ uid, (getElementEvents el st2).1 = uid
                      ∧ uidEvent (elementAt el (getElementEvents el st2).2) = Some uid).
  { unfold getElementEvents. destruct (uidEvent (elementAt el st2)) as [u|]; simpl;
      (eexists; split; [done|]); unfold elementAt; simpl; by rewrite lookup_insert_eq. }
  destruct (getElementEvents el st2) as [uid st3]. simpl in *.
  destruct Hu as (? & <- & Hu).
  unfold addEventListener.
  repeat split.
  - rewrite listenersOf_with_element. case_decide; [|done]. simpl.
    unfold elementAt at 1. simpl. fold (elementAt el st3).
    fold (listenersOf st3 el). by rewrite Hgl, H2l.
  - simpl. congruence.
  - exists uid. split.
    + unfold elementAt; simpl. rewrite lookup_insert_eq. simpl. exact Hu.
    + unfold handlersAt; simpl. repeat (rewrite lookup_insert_eq; simpl).
      apply elem_of_app. right. by apply list_elem_of_singleton.
Qed.

(** *** A listener that no removal names stays attached *)

Section Stays.
Context (el : nat) (type : string) (w : wrapper).

Let stays (st : EventHandler) : Prop := isAttached el type w st = true.

Lemma stays_listeners st st' :
  listenersOf st' el = listenersOf st el → stays st → stays st'.
Proof. unfold stays, isAttached, listenersOf. by intros ->. Qed.

Lemma removeEventListener_stays el' t' x st :
  w_ref x ≠ w_ref w → stays st → stays (removeEventListener el' t' x st).
Proof.
  intros Hne. unfold stays, isAttached, removeEventListener.
  fold (listenersOf st el).
  fold (listenersOf (with_element el' (Element (uidEvent (elementAt el' st))
          (List.filter (keeps t' x) (attached (elementAt el' st)))
          (parentNode (elementAt el' st))) st) el).
  rewrite listenersOf_with_element.
  case_decide; [subst el'|done]. simpl. fold (listenersOf st el).
  rewrite !existsb_exists. intros (entry & Hin & Hp).
  exists entry. split; [|done].
  apply filter_In. split; [done|].
  unfold keeps in *. apply negb_true_iff in Hp. apply negb_false_iff in Hp.
  apply andb_true_iff in Hp as [_ Hr]. apply Nat.eqb_eq in Hr.
  apply negb_true_iff, andb_false_iff. right. apply Nat.eqb_neq. congruence.
Qed.

Lemma same_func_ref f x : same_func f w = false → same_func f x = true → w_ref x ≠ w_ref w.
Proof.
  destruct f as [|w0]; simpl; [done|].
  intros H1 H2. apply Nat.eqb_neq in H1. apply Nat.eqb_eq in H2. congruence.
Qed.

Lemma offKey_stays el' uid t' sel f st key :
  same_func f w = false → stays st → stays (offKey el' uid t' sel (Some f) st key).
Proof.
  intros Hf Hst. unfold offKey.
  destruct (default ∅ (eventRegistry st !! uid) !! key) as [eventData|]; [|done].
  eapply stays_listeners; [reflexivity|].
  generalize (default [] (eventData !! selectorKey sel)) as handlers. intros handlers.
  revert st Hst. induction handlers as [|x xs IH]; intros st Hst; simpl; [done|].
  apply IH. destruct (same_func f x) eqn:Hx; [|done].
  apply removeEventListener_stays; [|done]. by eapply same_func_ref.
Qed.

Lemma offEvent_stays el' event sel f st :
  same_func f w = false → stays st → stays (offEvent el' event sel (Some f) st).
Proof.
  intros Hf Hst. unfold offEvent.
  pose proof (getElementEvents_view el' st) as (_ & Hgl & _).
  destruct (getElementEvents el' st) as [uid st1]. simpl in Hgl.
  assert (Hst1 : stays st1) by (eapply stays_listeners; [apply Hgl | done]).
  destruct (map fst _) as [|k ks]; [done|].
  set (eventKeys := if Str.includes "." event then _ else _). clearbody eventKeys.
  assert (Hfold : stays (fold_left (offKey el' uid (normalizeEventType event).1 sel (Some f))
                           eventKeys st1)).
  { clear Hst Hgl. revert st1 Hst1. induction eventKeys as [|k' ks' IH]; intros st1 Hst1;
      simpl; [done|]. apply IH. by apply offKey_stays. }
  case_decide; [|done]. eapply stays_listeners; [reflexivity | exact Hfold].
Qed.

End Stays.

Lemma removeEventListener_invoked el t x st :
  invoked (removeEventListener el t x st) = invoked st.
Proof. done. Qed.

Lemma offKey_invoked el uid t sel handler st key :
  invoked (offKey el uid t sel handler st key) = invoked st.
Proof.
  unfold offKey.
  destruct (default ∅ (eventRegistry st !! uid) !! key) as [eventData|]; [|done].
  simpl. generalize (default [] (eventData !! selectorKey sel)) as handlers.
  intros handlers. revert st. induction handlers as [|x xs IH]; intros st; simpl; [done|].
  rewrite IH. destruct handler as [f|]; [destruct (same_func f x)|]; done.
Qed.

Lemma offEvent_invoked el event sel handler st :
  invoked (offEvent el event sel handler st) = invoked st.
Proof.
  unfold offEvent.
  pose proof (getElementEvents_view el st) as (_ & _ & Hgi).
  destruct (getElementEvents el st) as [uid st1]. simpl in Hgi.
  destruct (map fst _) as [|k ks]; [done|].
  set (eventKeys := if Str.includes "." event then _ else _). clearbody eventKeys.
  assert (Hfold : invoked (fold_left (offKey el uid (normalizeEventType event).1 sel handler)
                             eventKeys st1) = invoked st1).
  { clear Hgi. revert st1. induction eventKeys as [|k' ks' IH]; intros st1; simpl; [done|].
    rewrite IH. apply offKey_invoked. }
  case_decide; [unfold with_registry; cbn [invoked]|]; by rewrite Hfold.
Qed.

Lemma mentions_same_func r f w :
  w_ref w = r → mentions r f = false → same_func f w = false.
Proof.
  intros <-. destruct f as [|[r' e s fn o]]; simpl; [done|].
  intros H. apply orb_false_iff in H as [H _].
  rewrite Nat.eqb_sym. exact H.
Qed.

(** Calling a function that does not name [w] leaves [w] attached and only
    extends the log of calls. *)
Lemma callFn_stays el type w f :
  mentions (w_ref w) f = false →
  ∀ t st, Str.falsy t = false → isAttached el type w st = true →
    isAttached el type w (callFn f t st) = true
    ∧ ∃ post, invoked (callFn f t st) = invoked st ++ post.
Proof.
  revert f.
  apply (func_wrapper_ind
    (fun f => mentions (w_ref w) f = false →
       ∀ t st, Str.falsy t = false → isAttached el type w st = true →
         isAttached el type w (callFn f t st) = true
         ∧ ∃ post, invoked (callFn f t st) = invoked st ++ post)
    (fun x => mentionsW (w_ref w) x = false →
       ∀ t st, Str.falsy t = false → isAttached el type w st = true →
         isAttached el type w (callWrapper x t st) = true
         ∧ ∃ post, invoked (callWrapper x t st) = invoked st ++ post)).
  - intros id _ t st _ Hst. split; [done|]. simpl. by eexists.
  - intros x IH Hm t st Ht Hst. simpl. by apply IH.
  - intros r e s fn IH o Hm t st Ht Hst. simpl in Hm.
    apply orb_false_iff in Hm as [_ Hm]. simpl.
    destruct (delegated s).
    { split; [done|]. exists []. by rewrite app_nil_r. }
    by apply IH.
Qed.

Lemma callWrapper_stays el type w x :
  mentionsW (w_ref w) x = false →
  ∀ t st, Str.falsy t = false → isAttached el type w st = true →
    isAttached el type w (callWrapper x t st) = true
    ∧ ∃ post, invoked (callWrapper x t st) = invoked st ++ post.
Proof. intros Hm. apply (callFn_stays el type w (WrapperFn x)). exact Hm. Qed.

Lemma dispatch_prefix_stays el type w (L : list (string * wrapper)) st :
  forallb (fun entry => negb (mentionsW (w_ref w) (snd entry))) L = true →
  Str.falsy type = false →
  isAttached el type w st = true →
  let step := fun acc entry =>
    if String.eqb (fst entry) type && isAttached el type (snd entry) acc
    then callWrapper (snd entry) type acc else acc in
  isAttached el type w (fold_left step L st) = true
  ∧ ∃ post, invoked (fold_left step L st) = invoked st ++ post.
Proof.
  intros HL Ht. revert st. induction L as [|entry L IH]; intros st Hst; simpl.
  - split; [done|]. exists []. by rewrite app_nil_r.
  - simpl in HL. apply andb_true_iff in HL as [He HL]. apply negb_true_iff in He.
    destruct (String.eqb entry.1 type && isAttached el type entry.2 st).
    + destruct (callWrapper_stays el type w entry.2 He type st Ht Hst) as [H1 [p1 H2]].
      destruct (IH HL _ H1) as [H3 [p2 H4]].
      split; [done|]. exists (p1 ++ p2). by rewrite H4, H2, app_assoc.
    + by apply IH.
Qed.

Lemma falsy_type_event event :
  Str.falsy (normalizeEventType event).1 = false → Str.falsy event = false.
Proof. by destruct event. Qed.

Lemma getElementEvents_uid el st u :
  uidEvent (elementAt el st) = Some u →
  ∀ el', uidEvent (elementAt el' (getElementEvents el st).2) = uidEvent (elementAt el' st).
Proof.
  intros Hu el'. unfold getElementEvents. rewrite Hu. simpl.
  unfold elementAt at 1; simpl. rewrite lookup_insert.
  case_decide; [subst el'|done]. done.
Qed.

Lemma offEvent_client_uid el event sel h st u :
  uidEvent (elementAt el st) = Some u →
  ∀ el', uidEvent (elementAt el' (offEvent el event sel (Some (ClientFn h)) st))
         = uidEvent (elementAt el' st).
Proof.
  intros Hu el'. unfold offEvent.
  pose proof (getElementEvents_uid el st u Hu el') as Hg.
  destruct (getElementEvents el st) as [uid st1]. simpl in Hg.
  destruct (map fst _) as [|k ks]; [done|].
  set (eventKeys := if Str.includes "." event then _ else _). clearbody eventKeys.
  assert (Hfold : dom (fold_left (offKey el uid (normalizeEventType event).1 sel
                                    (Some (ClientFn h))) eventKeys st1) = dom st1).
  { clear Hg. revert st1. induction eventKeys as [|k' ks' IH]; intros st1; simpl; [done|].
    rewrite IH. unfold offKey.
    destruct (default ∅ (eventRegistry st1 !! uid) !! k') as [eventData|]; [|done].
    simpl. by rewrite fold_left_const. }
  unfold elementAt in *.
  case_decide; [unfold with_registry; cbn [dom]|]; by rewrite Hfold.
Qed.

(** After a non-delegated [on(element, event, handler)], the call
    [off(element, event, handler)] with the same handler removes nothing:
    what the registry stores and the listeners attached to every node are
    as before, the wrapper of [handler] is still in the registry and
    attached to the element, and a later dispatch of the event at the
    element still calls [handler]. *)
Theorem off_with_handler_removes_nothing
    (st : EventHandler) (el : nat) (event : string) (h : nat) :
  let type := (normalizeEventType event).1 in
  let namespace := (normalizeEventType event).2 in
  let w := Wrapper (nextRef st) el None (ClientFn h) false in
  let st1 := on (Some el) event None (Some (ClientFn h)) false st in
  let r := off (Some el) (Some event) None (Some (ClientFn h)) st1 in
  Str.falsy type = false →
  allocatedBefore st el = true →
  r.1 = Returned ()
  ∧ sameView r.2 st1
  ∧ (∃ uid, uidEvent (elementAt el r.2) = Some uid
            ∧ w ∈ handlersAt r.2 uid (type +:+ namespace) "base")
  ∧ (type, w) ∈ listenersOf r.2 el
  ∧ ∃ pre, invoked (dispatchAt el type r.2) = invoked r.2 ++ pre ++ [(h, type)].
Proof.
  intros type namespace w st1 r Ht Halloc.
  pose proof (falsy_type_event event Ht) as Hev.
  destruct (on_effect el event h st Hev) as (Hl & Hi & uid & Hu & Hin).
  fold st1 in Hl, Hi, Hu, Hin. fold type in Hl, Hin. fold namespace in Hin. fold w in Hl, Hin.
  assert (Hr : r = (Returned (), offEvent el event None (Some (ClientFn h)) st1)).
  { subst r. unfold off. by rewrite Hev. }
  rewrite Hr. simpl.
  pose proof (offEvent_client el event None h st1) as Hview.
  destruct Hview as (Hvh & Hvl & Hvi).
  set (st2 := offEvent el event None (Some (ClientFn h)) st1) in *.
  assert (Hl2 : listenersOf st2 el = listenersOf st el ++ [(type, w)]) by (by rewrite Hvl).
  split; [done|]. split; [done|]. split; [|split].
  - exists uid. split.
    + subst st2. by rewrite (offEvent_client_uid el event None h st1 uid Hu).
    + by rewrite Hvh.
  - rewrite Hl2. apply elem_of_app. right. by apply list_elem_of_singleton.
  - assert (Hst : isAttached el type w st2 = true).
    { unfold isAttached. fold (listenersOf st2 el). rewrite Hl2, existsb_app.
      apply orb_true_iff. right. simpl. unfold keeps. simpl.
      by rewrite String.eqb_refl, Nat.eqb_refl. }
    unfold dispatchAt. fold (listenersOf st2 el). rewrite Hl2, fold_left_app.
    destruct (dispatch_prefix_stays el type w (listenersOf st el) st2 Halloc Ht Hst)
      as [Hacc [post Hpost]].
    simpl. rewrite String.eqb_refl, Hacc. simpl.
    exists post. by rewrite Hpost, app_assoc.
Qed.

Lemma off_with_handler_removes_nothing_witness :
  let st := on (Some 4) "keyup.form" None (Some (ClientFn 8)) true initial in
  let r := off (Some 4) (Some "keyup.form") None (Some (ClientFn 1))
               (on (Some 4) "keyup.form" None (Some (ClientFn 1)) false st) in
  Str.falsy (normalizeEventType "keyup.form").1 = false
  ∧ allocatedBefore st 4 = true
  ∧ ∃ pre, invoked (dispatchAt 4 "keyup" r.2) = invoked r.2 ++ pre ++ [(1, "keyup")].
Proof.
  intros st r. split; [reflexivity|]. split; [reflexivity|].
  apply (off_with_handler_removes_nothing st 4 "keyup.form" 1); reflexivity.
Defined.

(** Removal without a handler reference does detach: after
    [off(element, event)] the registry has nothing for the node and a
    dispatch calls nothing. *)
Example off_without_handler_detaches :
  let st1 := on (Some 4) "keyup" None (Some (ClientFn 1)) false initial in
  let st2 := (off (Some 4) (Some "keyup") None None st1).2 in
  listenersOf st1 4 = [("keyup", Wrapper 0 4 None (ClientFn 1) false)]
  ∧ listenersOf st2 4 = []
  ∧ eventRegistry st2 = ∅
  ∧ invoked (dispatchAt 4 "keyup" st2) = [].
Proof. vm_compute. done. Qed.

(** C10.  The two other removals the claim counts on do not detach the
    handler.  After [on(element, 'click.cart', handler)]:
    [off(element, '.cart')] returns and empties the registry, but the
    listener stays attached and a dispatch of [click] still calls the
    handler; [cleanupElement(element)] throws, the listener stays attached
    and a dispatch still calls the handler.  [off(element, 'click.cart',
    handler)] removes nothing either, as the claim says. *)
Theorem removal_by_namespace_or_cleanup_leaves_listener :
  let st1 := on (Some 4) "click.cart" None (Some (ClientFn 1)) false initial in
  let attachedListener := [("click", Wrapper 0 4 None (ClientFn 1) false)] in
  let byHandler := off (Some 4) (Some "click.cart") None (Some (ClientFn 1)) st1 in
  let byNamespace := off (Some 4) (Some ".cart") None None st1 in
  let byCleanup := cleanupElement (Some 4) st1 in
  listenersOf st1 4 = attachedListener
  ∧ (byHandler.1 = Returned ()
     ∧ eventRegistry byHandler.2 = eventRegistry st1
     ∧ listenersOf byHandler.2 4 = attachedListener
     ∧ invoked (dispatchAt 4 "click" byHandler.2) = [(1, "click")])
  ∧ (byNamespace.1 = Returned ()
     ∧ eventRegistry byNamespace.2 = ∅
     ∧ listenersOf byNamespace.2 4 = attachedListener
     ∧ invoked (dispatchAt 4 "click" byNamespace.2) = [(1, "click")])
  ∧ (byCleanup.1
       = Thrown "TypeError: Cannot read properties of undefined (reading 'includes')"
     ∧ eventRegistry byCleanup.2 = eventRegistry st1
     ∧ listenersOf byCleanup.2 4 = attachedListener
     ∧ invoked (dispatchAt 4 "click" byCleanup.2) = [(1, "click")]).
Proof. vm_compute. repeat split. Qed.

(** *** Cleaning up an element *)

(** X12.  [cleanupElement] on an element that carries a (non-zero)
    [uidEvent] always throws: it calls [off(element)] without an event
    name, which reads [event.includes] of [undefined].  Nothing has been
    removed when it throws: the registry stores the same handlers, the
    same listeners are attached and the element keeps its uid. *)
Theorem cleanupElement_throws_when_registered (el u : nat) (st : EventHandler) :
  uidEvent (elementAt el st) = Some u →
  u ≠ 0 →
  let r := cleanupElement (Some el) st in
  (∃ e, fst r = Thrown e)
  ∧ sameView (snd r) st
  ∧ uidEvent (elementAt el (snd r)) = Some u.
Proof.
  intros Hu _ r. subst r. unfold cleanupElement. rewrite Hu. cbn [off fst snd].
  split; [by eexists|]. split; [apply getElementEvents_view|].
  by rewrite (getElementEvents_uid el st u Hu).
Qed.

Lemma cleanupElement_throws_when_registered_witness :
  let st := on (Some 4) "click" None (Some (ClientFn 1)) false initial in
  uidEvent (elementAt 4 st) = Some 2
  ∧ ∃ e, fst (cleanupElement (Some 4) st) = Thrown e.
Proof.
  intros st. split; [reflexivity|].
  apply (cleanupElement_throws_when_registered 4 2 st); [reflexivity|lia].
Defined.

(** *** One-off handlers *)

Lemma on_listeners el event h oneOff st :
  Str.falsy event = false →
  let st1 := on (Some el) event None (Some (ClientFn h)) oneOff st in
  let w := Wrapper (nextRef st) el None (ClientFn h) oneOff in
  let type := (normalizeEventType event).1 in
  let namespace := (normalizeEventType event).2 in
  listenersOf st1 el = listenersOf st el ++ [(type, w)]
  ∧ invoked st1 = invoked st
  ∧ ∃ uid, uidEvent (elementAt el st1) = Some uid
           ∧ w ∈ handlersAt st1 uid (type +:+ namespace) "base".
Proof.
  intros Hev. unfold on. rewrite Hev.
  destruct (normalizeEventType event) as [type ns]. simpl fst. simpl snd.
  set (st2 := if Str.falsy type then _ else _).
  assert (H2 : sameView st2 st ∧ dom st2 = dom st).
  { subst st2. destruct (Str.falsy type); [destruct (uidEvent _)|]; done. }
  destruct H2 as [(_ & H2l & H2i) H2d].
  pose proof (getElementEvents_view el st2) as (_ & Hgl & Hgi).
  assert (Hu : ∃ uid, (getElementEvents el st2).1 = uid
                      ∧ uidEvent (elementAt el (getElementEvents el st2).2) = Some uid).
  { unfold getElementEvents. destruct (uidEvent (elementAt el st2)) as [u|]; simpl;
      (eexists; split; [done|]); unfold elementAt; simpl; by rewrite lookup_insert_eq. }
  destruct (getElementEvents el st2) as [uid st3]. simpl in *.
  destruct Hu as (? & <- & Hu).
  unfold addEventListener.
  repeat split.
  - rewrite listenersOf_with_element. case_decide; [|done]. simpl.
    unfold elementAt at 1. simpl. fold (elementAt el st3).
    fold (listenersOf st3 el). by rewrite Hgl, H2l.
  - simpl. congruence.
  - exists uid. split.
    + unfold elementAt; simpl. rewrite lookup_insert_eq. simpl. exact Hu.
    + unfold handlersAt; simpl. repeat (rewrite lookup_insert_eq; simpl).
      apply elem_of_app. right. by apply list_elem_of_singleton.
Qed.

Lemma dispatch_single el type h r oneOff s :
  Str.falsy type = false →
  listenersOf s el = [(type, Wrapper r el None (ClientFn h) oneOff)] →
  listenersOf (dispatchAt el type s) el = [(type, Wrapper r el None (ClientFn h) oneOff)]
  ∧ invoked (dispatchAt el type s) = invoked s ++ [(h, type)].
Proof.
  intros Ht Hl.
  assert (Hatt : isAttached el type (Wrapper r el None (ClientFn h) oneOff) s = true).
  { unfold isAttached. fold (listenersOf s el). rewrite Hl. simpl. unfold keeps. simpl.
    by rewrite String.eqb_refl, Nat.eqb_refl. }
  unfold dispatchAt. fold (listenersOf s el). rewrite Hl.
  cbn [fold_left fst snd]. rewrite String.eqb_refl, Hatt. cbn [andb].
  cbn [callWrapper delegated callFn].
  by split.
Qed.

(** X13.  A handler registered with [one] on an element without other
    listeners is not removed when it runs: the wrapper looks for [oneOff]
    on the function expression while [on] has set it on the bound
    function, so the wrapper never calls [off], and [n] dispatches of the
    event call the handler [n] times. *)
Theorem one_off_handler_runs_on_every_dispatch
    (st : EventHandler) (el : nat) (event : string) (h n : nat) :
  let type := (normalizeEventType event).1 in
  let st1 := one (Some el) event None (Some (ClientFn h)) st in
  Str.falsy type = false →
  listenersOf st el = [] →
  invoked (Nat.iter n (dispatchAt el type) st1) = invoked st ++ repeat (h, type) n.
Proof.
  intros type st1 Ht Hempty.
  pose proof (falsy_type_event event Ht) as Hev.
  destruct (on_listeners el event h true st Hev) as (Hl & Hi & _).
  fold type in Hl. rewrite Hempty in Hl. simpl in Hl.
  change (on (Some el) event None (Some (ClientFn h)) true st) with st1 in Hl, Hi.
  assert (Hinv : listenersOf (Nat.iter n (dispatchAt el type) st1) el
                 = [(type, Wrapper (nextRef st) el None (ClientFn h) true)]
               ∧ invoked (Nat.iter n (dispatchAt el type) st1)
                 = invoked st ++ repeat (h, type) n).
  { induction n as [|n [IHl IHi]]; simpl.
    - by rewrite app_nil_r.
    - destruct (dispatch_single el type h (nextRef st) true _ Ht IHl) as [Hl' Hi'].
      split; [exact Hl'|]. rewrite Hi', IHi, <- app_assoc. f_equal.
      symmetry. apply repeat_cons. }
  apply Hinv.
Qed.

Lemma one_off_handler_runs_on_every_dispatch_witness :
  Str.falsy (normalizeEventType "click").1 = false
  ∧ listenersOf initial 4 = []
  ∧ invoked (Nat.iter 3 (dispatchAt 4 "click")
               (one (Some 4) "click" None (Some (ClientFn 1)) initial))
    = [(1, "click"); (1, "click"); (1, "click")].
Proof.
  split; [reflexivity|]. split; [reflexivity|].
  apply (one_off_handler_runs_on_every_dispatch initial 4 "click" 1 3); reflexivity.
Defined.

(** *** Removal without a handler reference *)

Lemma append_empty (s : string) : s +:+ EmptyString = s.
Proof.
  induction s as [|c s IH]; [done|].
  change (String c s +:+ EmptyString) with (String c (s +:+ EmptyString)).
  by rewrite IH.
Qed.

Lemma no_dot_parts event :
  Str.includes "." event = false →
  Str.before "." event = event ∧ Str.from "." event = EmptyString.
Proof.
  induction event as [|a s IH]; [done|].
  cbn [Str.includes Str.before Str.from String.prefix].
  destruct (Ascii.eqb a ".") eqn:E.
  - apply Ascii.eqb_eq in E. subst a. simpl. by destruct s.
  - intros H. apply orb_false_iff in H as [_ H].
    destruct (IH H) as [-> ->]. done.
Qed.

Lemma fold_removeEventListener el type ws st :
  let st' := fold_left (fun acc w => removeEventListener el type w acc) ws st in
  (∀ el', listenersOf st' el'
          = if decide (el = el')
            then List.filter (fun entry => forallb (fun w => keeps type w entry) ws)
                             (listenersOf st el)
            else listenersOf st el')
  ∧ eventRegistry st' = eventRegistry st
  ∧ invoked st' = invoked st
  ∧ ∀ el', uidEvent (elementAt el' st') = uidEvent (elementAt el' st).
Proof.
  revert st. induction ws as [|w ws IH]; intros st; cbn [fold_left forallb].
  - repeat split; try done. intros el'. case_decide; [subst|done].
    by rewrite filter_all.
  - destruct (IH (removeEventListener el type w st)) as (Hl & Hr & Hi & Hu).
    repeat split.
    + intros el'. rewrite Hl. unfold removeEventListener.
      rewrite !listenersOf_with_element. case_decide; [subst el'|done].
      rewrite decide_True by done. cbn [attached]. fold (listenersOf st el).
      induction (listenersOf st el) as [|x l IHl]; [done|]. simpl.
      destruct (keeps type w x); simpl; [|exact IHl].
      destruct (forallb _ ws); simpl; [by rewrite IHl | exact IHl].
    + by rewrite Hr.
    + by rewrite Hi.
    + intros el'. rewrite Hu. unfold removeEventListener, elementAt, with_element.
      cbn [dom]. rewrite lookup_insert. case_decide; [subst el'|done]. done.
Qed.

Lemma offKey_none el uid type sel st key eventData :
  default ∅ (eventRegistry st !! uid) !! key = Some eventData →
  let st' := offKey el uid type sel None st key in
  (∀ el', listenersOf st' el'
          = if decide (el = el')
            then List.filter
                   (fun entry => forallb (fun w => keeps type w entry)
                                         (default [] (eventData !! selectorKey sel)))
                   (listenersOf st el)
            else listenersOf st el')
  ∧ handlersAt st' uid key (selectorKey sel) = []
  ∧ invoked st' = invoked st
  ∧ ∀ el', uidEvent (elementAt el' st') = uidEvent (elementAt el' st).
Proof.
  intros Hk. unfold offKey. rewrite Hk.
  destruct (fold_removeEventListener el type
              (default [] (eventData !! selectorKey sel)) st) as (Hl & Hr & Hi & Hu).
  cbv zeta in *. repeat split.
  - intros el'. rewrite <- Hl. done.
  - rewrite handlersAt_with_registry, decide_True by done.
    case_decide as Hsz.
    + by rewrite lookup_delete_eq.
    + rewrite lookup_insert_eq. simpl. by rewrite lookup_delete_eq.
  - exact Hi.
  - intros el'. rewrite <- Hu. done.
Qed.

Lemma getElementEvents_known el st u :
  uidEvent (elementAt el st) = Some u →
  (getElementEvents el st).1 = u
  ∧ eventRegistry (getElementEvents el st).2
    = <[u := default ∅ (eventRegistry st !! u)]> (eventRegistry st).
Proof. intros Hu. unfold getElementEvents. by rewrite Hu. Qed.

Lemma keys_nonempty {A} (m : gmap string A) k v :
  m !! k = Some v → map fst (map_to_list m) ≠ [].
Proof.
  intros Hk Hnil. apply map_eq_nil, map_to_list_empty_iff in Hnil.
  subst m. by rewrite lookup_empty in Hk.
Qed.

Lemma handlersAt_entry st uid key sel w :
  w ∈ handlersAt st uid key sel →
  ∃ eventData, default ∅ (eventRegistry st !! uid) !! key = Some eventData
               ∧ w ∈ default [] (eventData !! sel).
Proof.
  unfold handlersAt.
  destruct (default ∅ (eventRegistry st !! uid) !! key) as [eventData|]; simpl.
  - intros Hin. by exists eventData.
  - rewrite lookup_empty. simpl. intros Hin. by apply elem_of_nil in Hin.
Qed.

Lemma keeps_self type w : keeps type w (type, w) = false.
Proof. unfold keeps. simpl. by rewrite String.eqb_refl, Nat.eqb_refl. Qed.

(** X14.  For an event name without a namespace, [off(element, event)]
    without a handler does remove what [on(element, event, handler)] added:
    the wrapper is no longer attached to the element, the registry holds
    no base handler for the event type of that element, and no client
    function was called on the way. *)
Theorem off_without_handler_removes
    (st : EventHandler) (el : nat) (event : string) (h : nat) (oneOff : bool) :
  let type := (normalizeEventType event).1 in
  let w := Wrapper (nextRef st) el None (ClientFn h) oneOff in
  let st1 := on (Some el) event None (Some (ClientFn h)) oneOff st in
  let r := off (Some el) (Some event) None None st1 in
  Str.falsy event = false →
  Str.includes "." event = false →
  (type, w) ∈ listenersOf st1 el
  ∧ r.1 = Returned ()
  ∧ ((type, w) ∉ listenersOf r.2 el)
  ∧ (∀ uid, uidEvent (elementAt el r.2) = Some uid →
            handlersAt r.2 uid type "base" = [])
  ∧ invoked r.2 = invoked st.
Proof.
  intros type w st1 r Hev Hdot.
  destruct (on_listeners el event h oneOff st Hev) as (Hl & Hi & uid & Hu & Hin).
  fold st1 in Hl, Hi, Hu, Hin. fold type in Hl, Hin. fold w in Hl, Hin.
  assert (Hns : (normalizeEventType event).2 = EmptyString).
  { unfold normalizeEventType. simpl. by apply no_dot_parts. }
  rewrite Hns, append_empty in Hin.
  split; [rewrite Hl; apply elem_of_app; right; by apply list_elem_of_singleton|].
  subst r. unfold off. rewrite Hev. cbn [fst snd]. split; [done|].
  unfold offEvent. rewrite Hdot. fold type.
  destruct (getElementEvents_known el st1 uid Hu) as [Hg1 Hg2].
  pose proof (getElementEvents_view el st1) as (Hgh & Hgl & Hgi).
  pose proof (getElementEvents_uid el st1 uid Hu) as Hgu.
  destruct (getElementEvents el st1) as [uid' st1']. cbn [fst snd] in *. subst uid'.
  rewrite <- Hgh in Hin.
  apply handlersAt_entry in Hin as (eventData & Hk & Hw).
  destruct (map fst (map_to_list (default ∅ (eventRegistry st1' !! uid)))) as [|k0 ks] eqn:Hkeys.
  { exfalso. by apply (keys_nonempty _ _ _ Hk). }
  cbn [fold_left].
  destruct (offKey_none el uid type None st1' type eventData Hk) as (Hol & Hoh & Hoi & Hou).
  set (st2 := offKey el uid type None None st1' type) in *.
  assert (Hfinal : ∀ st3, st3 = st2 ∨ st3 = with_registry (delete uid (eventRegistry st2)) st2 →
    ((type, w) ∉ listenersOf st3 el)
    ∧ (∀ u, uidEvent (elementAt el st3) = Some u → handlersAt st3 u type "base" = [])
    ∧ invoked st3 = invoked st).
  { intros st3 Hst3.
    assert (Hl3 : listenersOf st3 el = listenersOf st2 el) by (by destruct Hst3 as [->| ->]).
    assert (Hu3 : uidEvent (elementAt el st3) = Some uid).
    { transitivity (uidEvent (elementAt el st2)); [by destruct Hst3 as [->| ->]|].
      by rewrite Hou, Hgu. }
    assert (Hi3 : invoked st3 = invoked st2) by (by destruct Hst3 as [->| ->]).
    split; [|split].
    - rewrite Hl3, Hol, decide_True by done.
      intros Hin. apply list_elem_of_In, filter_In in Hin as [_ Hkeep].
      rewrite forallb_forall in Hkeep. apply list_elem_of_In in Hw.
      specialize (Hkeep w Hw). by rewrite keeps_self in Hkeep.
    - intros u Hu'. rewrite Hu3 in Hu'. injection Hu' as <-.
      destruct Hst3 as [->| ->]; [exact Hoh|].
      unfold handlersAt, with_registry. cbn [eventRegistry].
      by rewrite lookup_delete_eq.
    - rewrite Hi3, Hoi. congruence. }
  case_decide; apply Hfinal; auto.
Qed.

Lemma off_without_handler_removes_witness :
  let st := on (Some 4) "keyup" None (Some (ClientFn 8)) false initial in
  let st1 := on (Some 4) "mouseenter" None (Some (ClientFn 1)) true st in
  let r := off (Some 4) (Some "mouseenter") None None st1 in
  Str.falsy "mouseenter" = false
  ∧ Str.includes "." "mouseenter" = false
  ∧ ("mouseover", Wrapper (nextRef st) 4 None (ClientFn 1) true) ∉ listenersOf r.2 4.
Proof.
  intros st st1 r. split; [reflexivity|]. split; [reflexivity|].
  apply (off_without_handler_removes st 4 "mouseenter" 1 true); reflexivity.
Defined.

(** *** Removal by namespace alone *)

Lemma prefix_empty (s : string) : String.prefix EmptyString s = true.
Proof. by destruct s. Qed.

Lemma includes_self (b : string) : Str.includes b b = true.
Proof.
  pose proof (StrFacts.includes_prefix b EmptyString) as H.
  by rewrite append_empty in H.
Qed.

Lemma includes_app_r (a b needle : string) :
  Str.includes needle b = true → Str.includes needle (a +:+ b) = true.
Proof.
  intros H. induction a as [|c a IH]; [exact H|].
  change (String c a +:+ b) with (String c (a +:+ b)).
  cbn [Str.includes]. rewrite IH. apply orb_true_r.
Qed.

Lemma dot_parts event :
  Str.includes "." event = true →
  ∃ rest, Str.from "." event = String "." rest
          ∧ event = Str.before "." event +:+ String "." rest.
Proof.
  induction event as [|a s IH]; [done|].
  cbn [Str.includes Str.before Str.from String.prefix].
  destruct (Ascii.eqb a ".") eqn:E.
  - apply Ascii.eqb_eq in E. subst a. intros _. by exists s.
  - intros H. apply orb_true_iff in H as [H|H].
    + destruct (ascii_dec "." a) as [<-|]; [|done]. by rewrite Ascii.eqb_refl in E.
    + destruct (IH H) as (rest & Hf & He). exists rest. split; [done|].
      change (String a (Str.before "." s) +:+ String "." rest)
        with (String a (Str.before "." s +:+ String "." rest)).
      by rewrite <- He.
Qed.

Lemma offKey_none_handlers el uid type sel st key u k s :
  handlersAt (offKey el uid type sel None st key) u k s
  = if decide (u = uid ∧ k = key ∧ s = selectorKey sel) then []
    else handlersAt st u k s.
Proof.
  unfold offKey.
  destruct (default ∅ (eventRegistry st !! uid) !! key) as [eventData|] eqn:Hk.
  - destruct (fold_removeEventListener el type
                (default [] (eventData !! selectorKey sel)) st) as (_ & Hr & _).
    cbv zeta in Hr.
    rewrite handlersAt_with_registry. unfold handlersAt. rewrite Hr.
    destruct (decide (uid = u)) as [<-|Hne].
    + case_decide as Hsz.
      * apply map_size_empty_iff in Hsz.
        rewrite lookup_delete. destruct (decide (key = k)) as [<-|Hkk].
        -- simpl. rewrite lookup_empty. simpl.
           case_decide as Hc; [done|]. rewrite Hk. simpl.
           destruct (decide (s = selectorKey sel)) as [->|Hs]; [exfalso; by apply Hc|].
           rewrite <- (lookup_delete_ne eventData (selectorKey sel) s) by done.
           by rewrite Hsz, lookup_empty.
        -- rewrite decide_False by (intros (_ & ? & _); congruence). done.
      * rewrite lookup_insert. destruct (decide (key = k)) as [<-|Hkk].
        -- simpl. rewrite Hk. simpl. rewrite lookup_delete.
           destruct (decide (selectorKey sel = s)) as [<-|Hs].
           ++ by rewrite decide_True.
           ++ rewrite decide_False by (intros (_ & _ & ?); congruence). done.
        -- rewrite decide_False by (intros (_ & ? & _); congruence). done.
    + rewrite decide_False by (intros (? & _); congruence). done.
  - case_decide as Hc; [|done]. destruct Hc as (-> & -> & ->).
    unfold handlersAt. rewrite Hk. simpl. by rewrite lookup_empty.
Qed.

Lemma offKey_none_keeps_other_types el uid sel st key t x :
  Str.falsy t = false →
  (t, x) ∈ listenersOf st el →
  (t, x) ∈ listenersOf (offKey el uid EmptyString sel None st key) el.
Proof.
  intros Ht Hin.
  destruct (default ∅ (eventRegistry st !! uid) !! key) as [eventData|] eqn:Hk.
  - destruct (offKey_none el uid EmptyString sel st key eventData Hk) as (Hl & _).
    rewrite Hl, decide_True by done.
    apply list_elem_of_In, filter_In. split; [by apply list_elem_of_In|].
    apply forallb_forall. intros y _. unfold keeps. simpl.
    destruct t; [done|]. done.
  - unfold offKey. by rewrite Hk.
Qed.

Lemma offKey_none_frame el uid type sel st key :
  invoked (offKey el uid type sel None st key) = invoked st
  ∧ ∀ el', uidEvent (elementAt el' (offKey el uid type sel None st key))
           = uidEvent (elementAt el' st).
Proof.
  destruct (default ∅ (eventRegistry st !! uid) !! key) as [eventData|] eqn:Hk.
  - by destruct (offKey_none el uid type sel st key eventData Hk) as (_ & _ & Hi & Hu).
  - unfold offKey. by rewrite Hk.
Qed.

Lemma fold_offKey_none el uid sel keys st t x K :
  Str.falsy t = false →
  (t, x) ∈ listenersOf st el →
  K ∈ keys ∨ handlersAt st uid K (selectorKey sel) = [] →
  let st' := fold_left (offKey el uid EmptyString sel None) keys st in
  (t, x) ∈ listenersOf st' el
  ∧ handlersAt st' uid K (selectorKey sel) = []
  ∧ invoked st' = invoked st
  ∧ ∀ el', uidEvent (elementAt el' st') = uidEvent (elementAt el' st).
Proof.
  intros Ht. revert st. induction keys as [|k keys IH]; intros st Hin HK; cbn [fold_left].
  - split; [done|]. split; [|done]. destruct HK as [HK|HK]; [|done].
    by apply elem_of_nil in HK.
  - destruct (offKey_none_frame el uid EmptyString sel st k) as [Hi Hu].
    destruct (IH (offKey el uid EmptyString sel None st k)) as (Hl' & Hh' & Hi' & Hu').
    + by apply offKey_none_keeps_other_types.
    + rewrite offKey_none_handlers.
      destruct (decide (K = k)) as [->|Hne].
      * right. by rewrite decide_True.
      * destruct HK as [HK|HK].
        -- left. apply list_elem_of_In in HK. destruct HK as [?|HK]; [congruence|].
           by apply list_elem_of_In.
        -- right. by case_decide.
    + split; [exact Hl'|]. split; [exact Hh'|]. split; [by rewrite Hi'|].
      intros el'. by rewrite Hu'.
Qed.

Lemma filter_twice {A} (p q : A → bool) (l : list A) :
  List.filter q (List.filter p l) = List.filter (fun x => p x && q x) l.
Proof.
  induction l as [|x l IH]; [done|]. simpl.
  destruct (p x); simpl; [destruct (q x); by rewrite IH | exact IH].
Qed.

Lemma fold_offKey_none_filter el uid type sel keys st :
  ∃ p, listenersOf (fold_left (offKey el uid type sel None) keys st) el
       = List.filter p (listenersOf st el).
Proof.
  revert st. induction keys as [|k keys IH]; intros st; cbn [fold_left].
  - exists (fun _ => true). by rewrite filter_all.
  - destruct (IH (offKey el uid type sel None st k)) as [q Hq]. rewrite Hq.
    destruct (default ∅ (eventRegistry st !! uid) !! k) as [eventData|] eqn:Hk.
    + destruct (offKey_none el uid type sel st k eventData Hk) as (Hl & _).
      rewrite Hl, decide_True by done. rewrite filter_twice. by eexists.
    + unfold offKey. rewrite Hk. by eexists.
Qed.

(** X15.  After [on(element, 'type.ns', handler)], removal by namespace
    alone, [off(element, '.ns')], empties the registry entry of the
    handler but calls [removeEventListener] with the empty event type, so
    the wrapper stays attached to the element: on an element that had no
    other listener, a later dispatch of the event still calls [handler]. *)
Theorem namespace_off_leaves_listener_attached
    (st : EventHandler) (el : nat) (event : string) (h : nat) (oneOff : bool) :
  let type := (normalizeEventType event).1 in
  let namespace := (normalizeEventType event).2 in
  let w := Wrapper (nextRef st) el None (ClientFn h) oneOff in
  let st1 := on (Some el) event None (Some (ClientFn h)) oneOff st in
  let r := off (Some el) (Some namespace) None None st1 in
  Str.falsy type = false →
  Str.includes "." event = true →
  r.1 = Returned ()
  ∧ (∀ uid, uidEvent (elementAt el r.2) = Some uid →
            handlersAt r.2 uid (type +:+ namespace) "base" = [])
  ∧ (type, w) ∈ listenersOf r.2 el
  ∧ (listenersOf st el = [] →
     invoked (dispatchAt el type r.2) = invoked st ++ [(h, type)]).
Proof.
  intros type namespace w st1 r Ht Hdot.
  pose proof (falsy_type_event event Ht) as Hev.
  destruct (on_listeners el event h oneOff st Hev) as (Hl & Hi & uid & Hu & Hin).
  fold st1 in Hl, Hi, Hu, Hin. fold type in Hl, Hin. fold namespace in Hin. fold w in Hl, Hin.
  destruct (dot_parts event Hdot) as (rest & Hfrom & _).
  assert (Hns : namespace = String "." rest) by exact Hfrom.
  clearbody namespace. subst namespace.
  assert (Hstay : (type, w) ∈ listenersOf st1 el).
  { rewrite Hl. apply elem_of_app. right. by apply list_elem_of_singleton. }
  assert (Hgoal : r.1 = Returned ()
    ∧ (∀ uid, uidEvent (elementAt el r.2) = Some uid →
              handlersAt r.2 uid (type +:+ String "." rest) "base" = [])
    ∧ (∀ t x, Str.falsy t = false → (t, x) ∈ listenersOf st1 el → (t, x) ∈ listenersOf r.2 el)
    ∧ (∃ p, listenersOf r.2 el = List.filter p (listenersOf st1 el))
    ∧ invoked r.2 = invoked st).
  { subst r. unfold off. cbn [Str.falsy fst snd]. split; [done|].
    unfold offEvent.
    assert (Hd : Str.includes "." (String "." rest) = true).
    { cbn [Str.includes String.prefix]. destruct (ascii_dec "." "."); [|done].
      by rewrite prefix_empty. }
    rewrite Hd.
    assert (Htype : (normalizeEventType (String "." rest)).1 = EmptyString) by reflexivity.
    rewrite Htype. cbn [Str.slice1].
    destruct (getElementEvents_known el st1 uid Hu) as [Hg1 Hg2].
    pose proof (getElementEvents_view el st1) as (Hgh & Hgl & Hgi).
    pose proof (getElementEvents_uid el st1 uid Hu) as Hgu.
    destruct (getElementEvents el st1) as [uid' st1']. cbn [fst snd] in *. subst uid'.
    rewrite <- Hgh in Hin.
    destruct (handlersAt_entry _ _ _ _ _ Hin) as (eventData & Hk & Hw).
    set (m := default ∅ (eventRegistry st1' !! uid)) in *.
    destruct (map fst (map_to_list m)) as [|k0 ks] eqn:Hkeys.
    { exfalso. by apply (keys_nonempty _ _ _ Hk). }
    rewrite <- Hkeys.
    set (K := type +:+ String "." rest) in *.
    assert (HK : K ∈ List.filter (Str.includes rest) (map fst (map_to_list m))).
    { apply list_elem_of_In, filter_In. split.
      - apply in_map_iff. exists (K, eventData). split; [done|].
        apply list_elem_of_In, elem_of_map_to_list. exact Hk.
      - subst K. apply includes_app_r. cbn [Str.includes].
        rewrite includes_self. apply orb_true_r. }
    set (st2 := fold_left (offKey el uid EmptyString None None)
                  (List.filter (Str.includes rest) (map fst (map_to_list m))) st1').
    assert (Hfold : ∀ t x, Str.falsy t = false → (t, x) ∈ listenersOf st1' el →
      (t, x) ∈ listenersOf st2 el
      ∧ handlersAt st2 uid K "base" = []
      ∧ invoked st2 = invoked st1'
      ∧ ∀ el', uidEvent (elementAt el' st2) = uidEvent (elementAt el' st1')).
    { intros t x Htx Hx.
      apply (fold_offKey_none el uid None _ st1' t x K Htx Hx). by left. }
    destruct (Hfold type w Ht) as (_ & Hh2 & Hi2 & Hu2); [by rewrite Hgl|].
    assert (Hsub : ∃ p, listenersOf st2 el = List.filter p (listenersOf st1' el)).
    { apply fold_offKey_none_filter. }
    assert (Hfinal : ∀ st3,
      st3 = st2 ∨ st3 = with_registry (delete uid (eventRegistry st2)) st2 →
      (∀ u, uidEvent (elementAt el st3) = Some u → handlersAt st3 u K "base" = [])
      ∧ (∀ t x, Str.falsy t = false → (t, x) ∈ listenersOf st1 el → (t, x) ∈ listenersOf st3 el)
      ∧ (∃ p, listenersOf st3 el = List.filter p (listenersOf st1 el))
      ∧ invoked st3 = invoked st).
    { intros st3 Hst3.
      assert (Hl3 : listenersOf st3 el = listenersOf st2 el) by (by destruct Hst3 as [->| ->]).
      assert (Hu3 : uidEvent (elementAt el st3) = Some uid).
      { transitivity (uidEvent (elementAt el st2)); [by destruct Hst3 as [->| ->]|].
        by rewrite Hu2, Hgu. }
      assert (Hi3 : invoked st3 = invoked st2) by (by destruct Hst3 as [->| ->]).
      split; [|split; [|split]].
      - intros u Hu'. rewrite Hu3 in Hu'. injection Hu' as <-.
        destruct Hst3 as [->| ->]; [exact Hh2|].
        unfold handlersAt, with_registry. cbn [eventRegistry].
        by rewrite lookup_delete_eq.
      - intros t x Htx Hx. rewrite Hl3. apply (Hfold t x Htx). by rewrite Hgl.
      - rewrite Hl3, <- Hgl. exact Hsub.
      - rewrite Hi3, Hi2. congruence. }
    case_decide; apply Hfinal; auto. }
  destruct Hgoal as (Hr1 & Hr2 & Hr3 & Hr4 & Hr5).
  split; [exact Hr1|]. split; [exact Hr2|]. split; [by apply Hr3|].
  intros Hempty. rewrite Hempty in Hl. simpl in Hl.
  assert (Hl2 : listenersOf r.2 el = [(type, w)]).
  { assert (Hin2 : (type, w) ∈ listenersOf r.2 el) by (by apply Hr3).
    destruct Hr4 as [p Hp]. rewrite Hl in Hp. rewrite Hp in Hin2 |- *.
    simpl in *. destruct (p (type, w)); [done|]. by apply elem_of_nil in Hin2. }
  destruct (dispatch_single el type h (nextRef st) oneOff r.2 Ht Hl2) as [_ Hd].
  rewrite Hd. by rewrite Hr5.
Qed.

Lemma namespace_off_leaves_listener_attached_witness :
  let r := off (Some 4) (Some ".cart") None None
               (on (Some 4) "click.cart" None (Some (ClientFn 1)) false initial) in
  Str.falsy (normalizeEventType "click.cart").1 = false
  ∧ Str.includes "." "click.cart" = true
  ∧ eventRegistry r.2 = ∅
  ∧ invoked (dispatchAt 4 "click" r.2) = [(1, "click")].
Proof.
  intros r. split; [reflexivity|]. split; [reflexivity|]. split; [reflexivity|].
  apply (namespace_off_leaves_listener_attached initial 4 "click.cart" 1 false);
    reflexivity.
Defined.

End EventsFacts.

(** ** The template engine *)

Module TemplateFacts.
Import JS Template.

Local Open Scope nat_scope.

(** *** The scan cuts the text into pieces *)

Lemma append_cons c (a b : string) : String c a +:+ b = String c (a +:+ b).
Proof. reflexivity. Qed.

Lemma append_nil (b : string) : EmptyString +:+ b = b.
Proof. reflexivity. Qed.

Lemma append_assoc_s (a b c : string) : (a +:+ b) +:+ c = a +:+ (b +:+ c).
Proof.
  induction a as [|x a IH]; [done|]. rewrite !append_cons. by rewrite IH.
Qed.

Lemma substring_dropS n s :
  n ≤ String.length s → String.substring 0 n s +:+ dropS n s = s.
Proof.
  revert s. induction n as [|n IH]; intros s Hn.
  - by destruct s.
  - destruct s as [|c s]; simpl in *; [lia|].
    rewrite append_cons. f_equal. apply IH. lia.
Qed.

Lemma dropS_0 s : dropS 0 s = s.
Proof. by destruct s. Qed.

Lemma scan_sources m : consuming m →
  ∀ s k, k ≤ String.length s → concatSources (scan m k s) = dropS k s.
Proof.
  intros Hm s. induction s as [|c s IH]; intros k Hk; simpl.
  - by destruct k.
  - destruct k as [|k]; simpl in *.
    + destruct (m (String c s)) as [[capture len]|] eqn:Hmatch.
      * destruct (Hm _ _ _ Hmatch) as [H1 H2]. simpl in H2.
        destruct len as [|len]; [lia|]. simpl.
        rewrite Nat.sub_0_r, IH by lia. rewrite append_cons.
        by rewrite substring_dropS by lia.
      * simpl. rewrite IH by lia. by rewrite dropS_0.
    + apply IH. lia.
Qed.

Lemma scan_hole m s k matched capture :
  Hole matched capture ∈ scan m k s →
  ∃ t len, m t = Some (capture, len) ∧ matched = String.substring 0 len t.
Proof.
  revert k. induction s as [|c s IH]; intros k; simpl.
  - by intros ?%elem_of_nil.
  - destruct k as [|k]; [|apply IH].
    destruct (m (String c s)) as [[cap len]|] eqn:Hmatch.
    + intros [Heq|Hin]%elem_of_cons; [|by eapply IH].
      injection Heq as -> ->. eauto.
    + intros [Heq|Hin]%elem_of_cons; [done | by eapply IH].
Qed.

Lemma stripPrefix_app p s rest : stripPrefix p s = Some rest → s = p +:+ rest.
Proof.
  revert s. induction p as [|a p IH]; intros s; simpl.
  - by intros [= ->].
  - destruct s as [|b s]; [done|].
    destruct (Ascii.eqb a b) eqn:E; [|done].
    apply Ascii.eqb_eq in E. subst b. intros H. by rewrite (IH _ H).
Qed.

Lemma lazyUntilClose_app s e : lazyUntilClose s = Some e → ∃ post, s = e +:+ "}" +:+ post.
Proof.
  revert e. induction s as [|c s IH]; intros e; simpl; [done|].
  destruct (Ascii.eqb c "}") eqn:E.
  - apply Ascii.eqb_eq in E. subst c. intros [= <-]. by exists s.
  - destruct (isLineTerminator c); [done|].
    destruct (lazyUntilClose s) as [e'|]; [|done].
    intros [= <-]. destruct (IH e' eq_refl) as [post ->]. by exists post.
Qed.

Lemma length_app_S (a b : string) :
  String.length (a +:+ b) = String.length a + String.length b.
Proof.
  induction a as [|c a IH]; [done|]. rewrite append_cons. simpl. by rewrite IH.
Qed.

Lemma substring_app_prefix (a b : string) :
  String.substring 0 (String.length a) (a +:+ b) = a.
Proof.
  induction a as [|c a IH]; [rewrite append_nil; by destruct b|].
  rewrite append_cons. simpl. by rewrite IH.
Qed.

Lemma matchExpr_spec s expression len :
  matchExpr s = Some (expression, len) →
  len = String.length ("#{" +:+ expression +:+ "}")
  ∧ ∃ post, s = ("#{" +:+ expression +:+ "}") +:+ post.
Proof.
  unfold matchExpr.
  destruct (stripPrefix "#{" s) as [[|c1 rest]|] eqn:Hp; try done.
  destruct (isLineTerminator c1); [done|].
  destruct (lazyUntilClose rest) as [e|] eqn:He; [|done].
  intros [= <- <-].
  apply stripPrefix_app in Hp. apply lazyUntilClose_app in He as [post ->].
  split.
  - simpl. rewrite length_app_S. simpl. lia.
  - exists post. rewrite Hp. by rewrite !append_assoc_s, !append_cons, !append_nil.
Qed.

Lemma matchExpr_consuming : consuming matchExpr.
Proof.
  intros s e len H. apply matchExpr_spec in H as [-> [post ->]].
  rewrite !length_app_S. simpl. lia.
Qed.

Lemma assemble_effects pieces (x : effect) :
  x ∈ (assemble pieces).2 → ∃ piece, piece ∈ pieces ∧ x ∈ piece.2.
Proof.
  induction pieces as [|[text es] rest IH]; simpl.
  - by intros ?%elem_of_nil.
  - destruct (assemble rest) as [text' es'] eqn:Ha. simpl in *.
    intros [Hx|Hx]%elem_of_app.
    + exists (text, es). split; [apply list_elem_of_here | done].
    + destruct (IH Hx) as (piece & Hin & Hp).
      exists piece. split; [by apply list_elem_of_further | done].
Qed.

Lemma replaceWith_effects m f s (x : effect) :
  x ∈ (replaceWith m f s).2 →
  ∃ matched capture, Hole matched capture ∈ scan m 0 s ∧ x ∈ (f matched capture).2.
Proof.
  unfold replaceWith. intros (piece & Hin & Hx)%assemble_effects.
  apply list_elem_of_fmap in Hin as (seg & -> & Hseg).
  destruct seg as [c|matched capture]; simpl in Hx.
  - by apply elem_of_nil in Hx.
  - eauto.
Qed.

Section HostProps.
Variable jsEval : string → outcome value.

Lemma varCallback_never_evaluates ctx matched key code :
  Evaluated code ∉ (varCallback ctx matched key).2.
Proof.
  unfold varCallback. destruct (obj_has key ctx); simpl.
  - apply not_elem_of_nil.
  - intros [H|H%elem_of_nil]%elem_of_cons; done.
Qed.

Lemma evaluateExpression_safe expression ctx code :
  Evaluated code ∈ (evaluateExpression jsEval expression ctx).2 → isSafe code = true.
Proof.
  unfold evaluateExpression.
  destruct (isSafe (substituteContext ctx expression)) eqn:Hs; simpl.
  - destruct (jsEval _); simpl; intros [H|H%elem_of_nil]%elem_of_cons; try done;
      by injection H as ->.
  - by intros ?%elem_of_nil.
Qed.

Lemma exprCallback_safe ctx matched expression code :
  Evaluated code ∈ (exprCallback jsEval ctx matched expression).2 → isSafe code = true.
Proof.
  unfold exprCallback.
  pose proof (evaluateExpression_safe expression ctx code) as H.
  destruct (evaluateExpression jsEval expression ctx) as [[v|e] es]; simpl in *; [done|].
  intros [Hx|Hx]%elem_of_app; [by apply H|].
  apply list_elem_of_singleton in Hx. done.
Qed.

Lemma variablePass_never_evaluates opener closer ctx s code :
  Evaluated code ∉ (variablePass opener closer ctx s).2.
Proof.
  intros (matched & key & _ & H)%replaceWith_effects.
  by eapply varCallback_never_evaluates.
Qed.

Lemma renderFresh_evaluates_safe ctx text code :
  Evaluated code ∈ (renderFresh jsEval ctx text).2 → isSafe code = true.
Proof.
  unfold renderFresh.
  pose proof (variablePass_never_evaluates "#{" "}" ctx text code) as H1.
  destruct (variablePass "#{" "}" ctx text) as [r1 e1].
  pose proof (variablePass_never_evaluates "${" "}" ctx r1 code) as H2.
  destruct (variablePass "${" "}" ctx r1) as [r2 e2].
  pose proof (variablePass_never_evaluates "{{" "}}" ctx r2 code) as H3.
  destruct (variablePass "{{" "}}" ctx r2) as [r3 e3].
  destruct (expressionPass jsEval ctx r3) as [r4 e4] eqn:H4. simpl in *.
  rewrite !elem_of_app. intros [?|[?|[?|Hx]]]; try done.
  assert (Hx' : Evaluated code ∈ (expressionPass jsEval ctx r3).2) by (by rewrite H4).
  apply replaceWith_effects in Hx' as (matched & e & _ & Hx').
  by eapply exprCallback_safe.
Qed.

(** When the text is rendered afresh, the pieces of the scan of the
    expression pass make up the text, and an expression placeholder whose
    text, after the context values are substituted, is not made of safe
    characters only, is rejected by [evaluateExpression] without any
    evaluation and is replaced by its own text; whatever the text, only
    strings that pass the filter are evaluated. *)
Theorem unsafe_expression_left_verbatim (mergedContext : jsobject) (s : string) :
  let segs := scan matchExpr 0 s in
  concatSources segs = s
  ∧ expressionPass jsEval mergedContext s
    = assemble (map (callbackOn (exprCallback jsEval mergedContext)) segs)
  ∧ (∀ matched expression,
       Hole matched expression ∈ segs →
       isSafe (substituteContext mergedContext expression) = false →
       matched = "#{" +:+ expression +:+ "}"
       ∧ (∃ message,
            evaluateExpression jsEval expression mergedContext = (Thrown message, []))
       ∧ ∃ warning,
           callbackOn (exprCallback jsEval mergedContext) (Hole matched expression)
           = (matched, [Warned warning]))
  ∧ (∀ text code,
       Evaluated code ∈ (renderFresh jsEval mergedContext text).2 → isSafe code = true).
Proof.
  intros segs. split; [|split; [done|split]].
  - subst segs. rewrite (scan_sources _ matchExpr_consuming) by lia. apply dropS_0.
  - intros matched expression Hin Hunsafe.
    apply scan_hole in Hin as (t & len & Hm & ->).
    apply matchExpr_spec in Hm as [-> [post ->]].
    split; [apply substring_app_prefix|].
    unfold callbackOn, exprCallback, evaluateExpression. rewrite Hunsafe. simpl.
    split; eauto.
  - intros text code. apply renderFresh_evaluates_safe.
Qed.

End HostProps.

(** *** Texts without placeholder openers *)

Lemma quiet_replaceWith m f s : quiet m s → replaceWith m f s = (s, []).
Proof.
  unfold replaceWith. induction s as [|c s IH]; simpl; [done|].
  intros [-> Hq]. simpl. by rewrite (IH Hq).
Qed.

Lemma hasOpener_quiet m s :
  (∀ t, opensAt t = false → m t = None) → hasOpener s = false → quiet m s.
Proof.
  intros Hm. induction s as [|c s IH]; simpl; [done|].
  intros [Ho Hs]%orb_false_iff. split; [by apply Hm | by apply IH].
Qed.

Lemma opensAt_false t :
  opensAt t = false →
  stripPrefix "#{" t = None ∧ stripPrefix "${" t = None ∧ stripPrefix "{{" t = None.
Proof.
  unfold opensAt.
  destruct (stripPrefix "#{" t), (stripPrefix "${" t), (stripPrefix "{{" t); done.
Qed.

Lemma matchVar_needs_opener opener closer t :
  stripPrefix opener t = None → matchVar opener closer t = None.
Proof. unfold matchVar. by intros ->. Qed.

Lemma matchExpr_needs_opener t : stripPrefix "#{" t = None → matchExpr t = None.
Proof. unfold matchExpr. by intros ->. Qed.

Section Idempotence.
Variable jsEval : string → outcome value.

Lemma renderFresh_without_openers ctx s :
  hasOpener s = false → renderFresh jsEval ctx s = (s, []).
Proof.
  intros Hs. unfold renderFresh, variablePass, expressionPass.
  rewrite (quiet_replaceWith (matchVar "#{" "}")); last first.
  { apply hasOpener_quiet; [|done]. intros t Ht.
    apply matchVar_needs_opener. by apply opensAt_false in Ht as (? & ? & ?). }
  rewrite (quiet_replaceWith (matchVar "${" "}")); last first.
  { apply hasOpener_quiet; [|done]. intros t Ht.
    apply matchVar_needs_opener. by apply opensAt_false in Ht as (? & ? & ?). }
  rewrite (quiet_replaceWith (matchVar "{{" "}}")); last first.
  { apply hasOpener_quiet; [|done]. intros t Ht.
    apply matchVar_needs_opener. by apply opensAt_false in Ht as (? & ? & ?). }
  rewrite (quiet_replaceWith matchExpr); [done|].
  apply hasOpener_quiet; [|done]. intros t Ht.
  apply matchExpr_needs_opener. by apply opensAt_false in Ht as (? & ? & ?).
Qed.

End Idempotence.

(** *** Texts without nested placeholders *)

Lemma isWord_plain c :
  isWord c = true →
  Ascii.eqb c "{" = false ∧ Ascii.eqb c "}" = false ∧ Ascii.eqb c "#" = false
  ∧ Ascii.eqb c "$" = false ∧ isLineTerminator c = false.
Proof.
  destruct c as [[|] [|] [|] [|] [|] [|] [|] [|]]; vm_compute; intros H;
    try discriminate H; repeat split.
Qed.

Lemma scan_skip m a rest : scan m (String.length a) (a +:+ rest) = scan m 0 rest.
Proof.
  induction a as [|c a IH]; [done|]. rewrite append_cons. simpl. exact IH.
Qed.

Lemma assemble_cons_fst piece pieces :
  (assemble (piece :: pieces)).1 = piece.1 +:+ (assemble pieces).1.
Proof. destruct piece as [text es]. simpl. by destruct (assemble pieces). Qed.

Lemma replaceWith_quiet m f t rest :
  quietBefore m t rest →
  (replaceWith m f (t +:+ rest)).1 = t +:+ (replaceWith m f rest).1.
Proof.
  unfold replaceWith. induction t as [|c t IH]; [done|].
  intros [Hm Hq]. rewrite append_cons in *. cbn [scan]. rewrite Hm.
  cbn [map]. rewrite assemble_cons_fst. cbn [callbackOn fst].
  rewrite (IH Hq). by rewrite !append_cons, append_nil.
Qed.

Lemma replaceWith_match m f t capture rest :
  t ≠ EmptyString →
  m (t +:+ rest) = Some (capture, String.length t) →
  (replaceWith m f (t +:+ rest)).1 = (f t capture).1 +:+ (replaceWith m f rest).1.
Proof.
  unfold replaceWith. destruct t as [|c t]; [done|]. intros _ Hm.
  pose proof (substring_app_prefix (String c t) rest) as Hsub.
  rewrite append_cons in *. cbn [scan]. rewrite Hm.
  cbn [map]. rewrite assemble_cons_fst. cbn [callbackOn].
  rewrite Hsub. cbn [String.length]. rewrite Nat.sub_1_r. cbn [Nat.pred].
  by rewrite scan_skip.
Qed.

Lemma quietBefore_app m a b rest :
  quietBefore m a (b +:+ rest) → quietBefore m b rest → quietBefore m (a +:+ b) rest.
Proof.
  intros Ha Hb. induction a as [|c a IH]; [done|].
  destruct Ha as [Hm Ha]. rewrite append_cons. cbn [quietBefore].
  split; [|by apply IH].
  by rewrite <- append_cons, append_assoc_s.
Qed.

Lemma inert_tail c s : inert (String c s) = true → inert s = true.
Proof. cbn [inert]. by intros [_ H]%andb_true_iff. Qed.

Lemma inert_no_opener sy c t rest :
  inert (String c t) = true → stripPrefix (opener sy) (String c t +:+ rest) = None.
Proof.
  cbn [inert]. intros [[Hbrace Hsigil]%andb_true_iff Ht]%andb_true_iff.
  apply negb_true_iff in Hbrace, Hsigil.
  assert (Hnext : Ascii.eqb c "#" || Ascii.eqb c "$" = true →
                  ∃ c' t', t = String c' t' ∧ Ascii.eqb c' "{" = false).
  { intros Hs. rewrite Hs in Hsigil. cbn [andb] in Hsigil.
    destruct t as [|c' t']; [done|]. exists c', t'. split; [done|].
    cbn [inert] in Ht. apply andb_true_iff in Ht as [[H _]%andb_true_iff _].
    by apply negb_true_iff in H. }
  rewrite append_cons.
  destruct sy; cbn [opener stripPrefix].
  - destruct (Ascii.eqb "#" c) eqn:E; [|done].
    rewrite Ascii.eqb_sym in E.
    destruct Hnext as (c' & t' & -> & Hc'); [by rewrite E|].
    rewrite append_cons. by rewrite Ascii.eqb_sym, Hc'.
  - destruct (Ascii.eqb "$" c) eqn:E; [|done].
    rewrite Ascii.eqb_sym in E.
    destruct Hnext as (c' & t' & -> & Hc'); [rewrite E; by rewrite orb_true_r|].
    rewrite append_cons. by rewrite Ascii.eqb_sym, Hc'.
  - by rewrite Ascii.eqb_sym, Hbrace.
Qed.

Lemma inert_quiet m sy t rest :
  opensWith m sy → inert t = true → quietBefore m t rest.
Proof.
  intros Hm. induction t as [|c t IH]; [done|]. intros Hi.
  split; [|apply IH; by eapply inert_tail].
  apply Hm. by apply inert_no_opener.
Qed.

Lemma varMatcher_opensWith sy : opensWith (varMatcher sy) sy.
Proof. intros s H. unfold varMatcher, matchVar. by rewrite H. Qed.

Lemma matchExpr_opensWith : opensWith matchExpr Hash.
Proof. intros s H. unfold matchExpr. cbn [opener] in H. by rewrite H. Qed.

(** Word characters followed by a closing brace, and the body of an
    expression followed by one, are inert. *)
Lemma inert_body (body tail : string) :
  allChars (fun c => negb (Ascii.eqb c "{")) body = true →
  inert (body +:+ String "}" tail) = inert (String "}" tail).
Proof.
  induction body as [|c body IH]; [done|].
  cbn [allChars]. intros [Hc Hb]%andb_true_iff. rewrite append_cons.
  cbn [inert]. rewrite Hc. rewrite (IH Hb).
  assert (Hnonempty : Str.falsy (body +:+ String "}" tail) = false) by (by destruct body).
  cbn [inert] in *. rewrite Hnonempty. by rewrite andb_false_r.
Qed.

Lemma allChars_impl (p q : ascii → bool) s :
  (∀ c, p c = true → q c = true) → allChars p s = true → allChars q s = true.
Proof.
  intros Hpq. induction s as [|c s IH]; [done|]. cbn [allChars].
  intros [Hc Hs]%andb_true_iff. by rewrite (Hpq c Hc), (IH Hs).
Qed.

Lemma word_no_brace key :
  allChars isWord key = true → allChars (fun c => negb (Ascii.eqb c "{")) key = true.
Proof.
  apply allChars_impl. intros c Hc. apply isWord_plain in Hc as (-> & _). done.
Qed.

Lemma body_no_brace e :
  expressionBody e = true → allChars (fun c => negb (Ascii.eqb c "{")) e = true.
Proof.
  unfold expressionBody. intros [[_ H]%andb_true_iff _]%andb_true_iff. revert H.
  apply allChars_impl. intros c. by intros [[H _]%andb_true_iff _]%andb_true_iff.
Qed.

Lemma spanWord_word key t :
  allChars isWord key = true → startsWord t = false → spanWord (key +:+ t) = (key, t).
Proof.
  intros Hk Ht. induction key as [|c key IH].
  - rewrite append_nil. destruct t as [|c t]; [done|]. cbn [startsWord] in Ht.
    cbn [spanWord]. by rewrite Ht.
  - cbn [allChars] in Hk. apply andb_true_iff in Hk as [Hc Hk].
    rewrite append_cons. cbn [spanWord]. rewrite Hc, (IH Hk). done.
Qed.

Lemma stripPrefix_self p s : stripPrefix p (p +:+ s) = Some s.
Proof.
  induction p as [|c p IH]; [by destruct s|].
  rewrite append_cons. cbn [stripPrefix]. by rewrite Ascii.eqb_refl.
Qed.

Lemma varMatcher_own sy key rest :
  wellFormed (Var sy key) = true →
  varMatcher sy (partText (Var sy key) +:+ rest)
  = Some (key, String.length (partText (Var sy key))).
Proof.
  cbn [wellFormed partText]. intros [Hne Hw]%andb_true_iff. apply negb_true_iff in Hne.
  unfold varMatcher, matchVar.
  rewrite !append_assoc_s, stripPrefix_self.
  rewrite spanWord_word; [|done|by destruct sy].
  rewrite Hne, stripPrefix_self. f_equal. f_equal.
  rewrite <- !append_assoc_s, !length_app_S. lia.
Qed.

Lemma lazyUntilClose_body e rest :
  allChars (fun c => negb (Ascii.eqb c "}") && negb (isLineTerminator c)) e = true →
  lazyUntilClose (e +:+ String "}" rest) = Some e.
Proof.
  induction e as [|c e IH]; [done|].
  cbn [allChars]. intros [[Hc Hl]%andb_true_iff He]%andb_true_iff.
  apply negb_true_iff in Hc, Hl.
  rewrite append_cons. cbn [lazyUntilClose]. by rewrite Hc, Hl, (IH He).
Qed.

Lemma matchExpr_body e rest :
  e ≠ EmptyString →
  allChars (fun c => negb (Ascii.eqb c "}") && negb (isLineTerminator c)) e = true →
  matchExpr (("#{" +:+ e +:+ "}") +:+ rest)
  = Some (e, String.length ("#{" +:+ e +:+ "}")).
Proof.
  intros Hne He. destruct e as [|c e]; [done|].
  cbn [allChars] in He. apply andb_true_iff in He as [[Hc Hl]%andb_true_iff He].
  apply negb_true_iff in Hl.
  unfold matchExpr. rewrite !append_assoc_s, stripPrefix_self.
  rewrite append_cons, Hl.
  change ("}" +:+ rest) with (String "}" rest).
  rewrite (lazyUntilClose_body e rest He). f_equal. f_equal.
  rewrite <- append_assoc_s. rewrite !length_app_S. cbn [String.length]. lia.
Qed.

Lemma closed_body_inert body sy :
  allChars (fun c => negb (Ascii.eqb c "{")) body = true →
  inert (body +:+ closer sy) = true.
Proof.
  intros Hb. destruct sy; cbn [closer].
  - change "}" with (String "}" EmptyString). by rewrite inert_body.
  - change "}" with (String "}" EmptyString). by rewrite inert_body.
  - change "}}" with (String "}" "}"). by rewrite inert_body.
Qed.

Lemma spanWord_nonword e t :
  allChars isWord e = false →
  ∃ w c r, spanWord (e +:+ t) = (w, String c r)
           ∧ ∀ p, allChars p e = true → p c = true.
Proof.
  induction e as [|a e IH]; [done|]. cbn [allChars]. rewrite append_cons. cbn [spanWord].
  destruct (isWord a) eqn:Ha.
  - cbn [andb]. intros He. destruct (IH He) as (w & c & r & -> & Hc).
    exists (String a w), c, r. split; [done|].
    intros p [_ Hp]%andb_true_iff. by apply Hc.
  - intros _. exists EmptyString, a, (e +:+ t). split; [done|].
    by intros p [Hp _]%andb_true_iff.
Qed.

Lemma hash_misses_expression e rest :
  expressionBody e = true →
  varMatcher Hash (("#{" +:+ e +:+ "}") +:+ rest) = None.
Proof.
  unfold expressionBody. intros [[_ Hb]%andb_true_iff Hw]%andb_true_iff.
  apply negb_true_iff in Hw.
  unfold varMatcher, matchVar. cbn [opener closer].
  rewrite !append_assoc_s, stripPrefix_self.
  destruct (spanWord_nonword e ("}" +:+ rest) Hw) as (w & c & r & -> & Hc).
  destruct (Str.falsy w); [done|].
  specialize (Hc _ Hb). cbn beta in Hc.
  apply andb_true_iff in Hc as [[_ Hc]%andb_true_iff _]. apply negb_true_iff in Hc.
  cbn [stripPrefix]. by rewrite Ascii.eqb_sym, Hc.
Qed.

Lemma first_not_brace body tail :
  body ≠ EmptyString →
  allChars (fun c => negb (Ascii.eqb c "{")) body = true →
  ∃ c s, body +:+ tail = String c s ∧ Ascii.eqb "{" c = false.
Proof.
  destruct body as [|c body]; [done|]. intros _. cbn [allChars].
  intros [Hc _]%andb_true_iff. apply negb_true_iff in Hc.
  exists c, (body +:+ tail). split; [done|]. by rewrite Ascii.eqb_sym.
Qed.

Lemma falsy_empty s : Str.falsy s = false → s ≠ EmptyString.
Proof. by destruct s. Qed.

(** The text behind the first character of an opener: no pattern matches
    at the brace. *)
Lemma brace_quiet (m : matcher) sy body tail rest :
  opensWith m sy →
  body ≠ EmptyString →
  allChars (fun c => negb (Ascii.eqb c "{")) body = true →
  inert (body +:+ tail) = true →
  quietBefore m (String "{" (body +:+ tail)) rest.
Proof.
  intros Hm Hne Hb Hi. split; [|by eapply inert_quiet].
  apply Hm. rewrite append_cons.
  destruct (first_not_brace body tail Hne Hb) as (c & s & Heq & Hc).
  rewrite Heq. rewrite append_cons.
  destruct sy; cbn [opener stripPrefix]; try done.
  by rewrite Hc, Ascii.eqb_refl.
Qed.

Lemma varPass_quiet sy p rest :
  wellFormed p = true →
  (∀ key, p ≠ Var sy key) →
  quietBefore (varMatcher sy) (partText p) rest.
Proof.
  pose proof (varMatcher_opensWith sy) as Hm.
  destruct p as [s|sy' key|e]; cbn [wellFormed partText]; intros Hwf Hother.
  - by eapply inert_quiet.
  - apply andb_true_iff in Hwf as [Hne%negb_true_iff%falsy_empty Hw].
    pose proof (word_no_brace key Hw) as Hb.
    pose proof (closed_body_inert key sy' Hb) as Hi.
    assert (Hfirst : varMatcher sy ((opener sy' +:+ key +:+ closer sy') +:+ rest) = None).
    { apply Hm. destruct sy, sy'; try done; by destruct (Hother key). }
    destruct sy'; cbn [opener] in *; rewrite !append_cons, append_nil in *;
      (split; [by rewrite <- ?append_cons | by eapply brace_quiet]).
  - pose proof (body_no_brace e Hwf) as Hb.
    assert (Hne : e ≠ EmptyString).
    { unfold expressionBody in Hwf.
      apply andb_true_iff in Hwf as [[H%negb_true_iff _]%andb_true_iff _].
      by apply falsy_empty. }
    assert (Hi : inert (e +:+ "}") = true) by apply (closed_body_inert e Hash Hb).
    assert (Hfirst : varMatcher sy (("#{" +:+ e +:+ "}") +:+ rest) = None).
    { destruct sy; [by apply hash_misses_expression | by apply Hm | by apply Hm]. }
    rewrite !append_cons, append_nil in *.
    split; [done | by eapply brace_quiet].
Qed.

Lemma exprPass_quiet p rest :
  wellFormed p = true →
  match p with Plain _ | Var Dollar _ | Var Braces _ => True | _ => False end →
  quietBefore matchExpr (partText p) rest.
Proof.
  pose proof matchExpr_opensWith as Hm.
  destruct p as [s|sy key|e]; cbn [wellFormed partText]; intros Hwf Hkind; [|..|done].
  - by eapply inert_quiet.
  - apply andb_true_iff in Hwf as [Hne%negb_true_iff%falsy_empty Hw].
    pose proof (word_no_brace key Hw) as Hb.
    pose proof (closed_body_inert key sy Hb) as Hi.
    destruct sy; [done|..]; cbn [opener] in *; rewrite !append_cons, append_nil in *;
      (split; [by apply Hm | by eapply brace_quiet]).
Qed.

Lemma sameSyntax_eq a b : sameSyntax a b = true ↔ a = b.
Proof. destruct a, b; done. Qed.

Lemma partText_nonempty p :
  wellFormed p = true → (∀ s, p ≠ Plain s) → partText p ≠ EmptyString.
Proof. destruct p as [s|sy key|e]; intros _ H; [by destruct (H s)|by destruct sy|done]. Qed.

(** A variable pass works part by part. *)
Lemma variablePass_parts sy ctx ps :
  forallb wellFormed ps = true →
  (variablePass (opener sy) (closer sy) ctx (flatten ps)).1
  = flatten (map (resolveVar sy ctx) ps).
Proof.
  unfold variablePass. fold (varMatcher sy).
  induction ps as [|p ps IH]; [done|].
  cbn [forallb map flatten]. intros [Hp Hps]%andb_true_iff.
  assert (Hcase : (∃ key, p = Var sy key) ∨ ¬ ∃ key, p = Var sy key).
  { destruct p as [s|sy' key|e]; [right; by intros [? ?]| |right; by intros [? ?]].
    destruct (sameSyntax sy sy') eqn:E.
    - apply sameSyntax_eq in E. subst sy'. left. by exists key.
    - right. intros [key' [= -> _]]. by rewrite (proj2 (sameSyntax_eq sy sy) eq_refl) in E. }
  destruct Hcase as [[key ->]|Hother].
  - rewrite (replaceWith_match _ _ _ key);
      [|by apply partText_nonempty|by apply varMatcher_own].
    rewrite (IH Hps). f_equal.
    cbn [resolveVar]. rewrite (proj2 (sameSyntax_eq sy sy) eq_refl). cbn [andb].
    unfold varCallback. by destruct (obj_has key ctx).
  - rewrite replaceWith_quiet; last first.
    { apply varPass_quiet; [done|]. intros key ->. apply Hother. by exists key. }
    rewrite (IH Hps). f_equal.
    destruct p as [s|sy' key|e]; cbn [resolveVar]; try done.
    destruct (sameSyntax sy sy') eqn:E; [|done].
    apply sameSyntax_eq in E. subst sy'. destruct Hother. by exists key.
Qed.

Lemma wellFormed_expression_body p expression :
  wellFormed p = true →
  p = Var Hash expression ∨ p = Expression expression →
  expression ≠ EmptyString
  ∧ allChars (fun c => negb (Ascii.eqb c "}") && negb (isLineTerminator c)) expression
    = true
  ∧ partText p = "#{" +:+ expression +:+ "}".
Proof.
  intros Hwf [-> | ->]; cbn [wellFormed partText opener closer] in *.
  - apply andb_true_iff in Hwf as [Hne%negb_true_iff%falsy_empty Hw].
    split; [done|]. split; [|done]. revert Hw. apply allChars_impl.
    intros c Hc. by apply isWord_plain in Hc as (_ & -> & _ & _ & ->).
  - unfold expressionBody in Hwf.
    apply andb_true_iff in Hwf as [[Hne%negb_true_iff%falsy_empty Hb]%andb_true_iff _].
    split; [done|]. split; [|done]. revert Hb. apply allChars_impl.
    intros c [[_ ->]%andb_true_iff ->]%andb_true_iff. done.
Qed.

Section Parts.
Variable jsEval : string → outcome value.

(** The expression pass works part by part. *)
Lemma expressionPass_parts ctx ps :
  forallb wellFormed ps = true →
  (expressionPass jsEval ctx (flatten ps)).1 = flatten (map (resolveExpr jsEval ctx) ps).
Proof.
  unfold expressionPass.
  induction ps as [|p ps IH]; [done|].
  cbn [forallb map flatten]. intros [Hp Hps]%andb_true_iff.
  assert (Hcase : (∃ expression, p = Var Hash expression ∨ p = Expression expression)
                  ∨ match p with
                    | Plain _ | Var Dollar _ | Var Braces _ => True
                    | _ => False
                    end).
  { destruct p as [s|[| |] key|e]; eauto. }
  destruct Hcase as [[expression Hcase]|Hother].
  - destruct (wellFormed_expression_body p expression Hp Hcase) as (Hne & Hbody & Htext).
    rewrite Htext.
    rewrite (replaceWith_match _ _ _ expression);
      [|done|by apply matchExpr_body].
    rewrite (IH Hps). f_equal. rewrite <- Htext.
    unfold exprCallback.
    destruct Hcase as [-> | ->]; cbn [resolveExpr];
      by destruct (evaluateExpression jsEval expression ctx) as [[v|msg] es].
  - rewrite replaceWith_quiet by (by apply exprPass_quiet).
    rewrite (IH Hps). f_equal.
    by destruct p as [s|[| |] key|e].
Qed.

Lemma obj_get_inert ctx key :
  valuesInert ctx = true → obj_has key ctx = true →
  inert (formatValue (obj_get key ctx)) = true.
Proof.
  unfold valuesInert. induction ctx as [|[k v] ctx IH]; [done|].
  cbn [forallb obj_has obj_get fst snd]. intros [Hv Hctx]%andb_true_iff.
  destruct (String.eqb key k); [done|]. cbn [orb]. by apply IH.
Qed.

Lemma resolveVar_wellFormed sy ctx p :
  valuesInert ctx = true → wellFormed p = true → wellFormed (resolveVar sy ctx p) = true.
Proof.
  intros Hctx Hp. destruct p as [s|sy' key|e]; cbn [resolveVar]; try done.
  destruct (sameSyntax sy sy' && obj_has key ctx) eqn:E; [|done].
  apply andb_true_iff in E as [_ Hhas]. cbn [wellFormed]. by apply obj_get_inert.
Qed.

Lemma resolveExpr_wellFormed ctx p :
  hostInert jsEval → wellFormed p = true → wellFormed (resolveExpr jsEval ctx p) = true.
Proof.
  intros Hhost Hp.
  assert (Hattempt : ∀ expression,
            wellFormed match evaluateExpression jsEval expression ctx with
                       | (Returned v, _) => Plain (formatValue v)
                       | (Thrown _, _) => p
                       end = true).
  { intros expression. unfold evaluateExpression.
    destruct (isSafe _); [|done].
    destruct (jsEval _) as [v|msg] eqn:Hv; [|done].
    cbn [wellFormed]. by eapply Hhost. }
  destruct p as [s|[| |] key|e]; cbn [resolveExpr]; try done; apply Hattempt.
Qed.

Lemma forallb_map_wellFormed (f : part → part) ps :
  (∀ p, wellFormed p = true → wellFormed (f p) = true) →
  forallb wellFormed ps = true → forallb wellFormed (map f ps) = true.
Proof.
  intros Hf. induction ps as [|p ps IH]; [done|]. cbn [forallb map].
  intros [Hp Hps]%andb_true_iff. by rewrite (Hf p Hp), (IH Hps).
Qed.

Lemma renderFresh_fst ctx text :
  (renderFresh jsEval ctx text).1
  = (expressionPass jsEval ctx
       (variablePass "{{" "}}" ctx
          (variablePass "${" "}" ctx (variablePass "#{" "}" ctx text).1).1).1).1.
Proof.
  unfold renderFresh.
  destruct (variablePass "#{" "}" ctx text) as [r1 e1]. cbn [fst].
  destruct (variablePass "${" "}" ctx r1) as [r2 e2]. cbn [fst].
  destruct (variablePass "{{" "}}" ctx r2) as [r3 e3]. cbn [fst].
  by destruct (expressionPass jsEval ctx r3) as [r4 e4].
Qed.

(** [renderFresh] works part by part. *)
Lemma renderFresh_parts ctx ps :
  valuesInert ctx = true →
  forallb wellFormed ps = true →
  (renderFresh jsEval ctx (flatten ps)).1 = flatten (map (resolve jsEval ctx) ps).
Proof.
  intros Hctx Hps. rewrite renderFresh_fst.
  rewrite (variablePass_parts Hash) by done.
  assert (Hstep : ∀ sy qs, forallb wellFormed qs = true →
                           forallb wellFormed (map (resolveVar sy ctx) qs) = true).
  { intros sy qs. apply forallb_map_wellFormed. intros p. by apply resolveVar_wellFormed. }
  rewrite (variablePass_parts Dollar) by auto.
  rewrite (variablePass_parts Braces) by auto.
  rewrite expressionPass_parts by auto.
  by rewrite !map_map.
Qed.

(** A part [renderFresh] has produced is left as it is by [renderFresh]:
    it is text, or a placeholder the context does not resolve. *)
Lemma resolve_settled ctx p : resolve jsEval ctx (resolve jsEval ctx p) = resolve jsEval ctx p.
Proof.
  unfold resolve.
  destruct p as [s|sy key|e].
  - done.
  - destruct sy; cbn [resolveVar sameSyntax andb].
    + destruct (obj_has key ctx) eqn:Hhas; [done|].
      cbn [resolveVar sameSyntax andb resolveExpr].
      destruct (evaluateExpression jsEval key ctx) as [[v|msg] es] eqn:He; [done|].
      cbn [resolveVar sameSyntax andb resolveExpr]. rewrite Hhas.
      cbn [resolveVar sameSyntax andb resolveExpr]. by rewrite He.
    + destruct (obj_has key ctx) eqn:Hhas; [done|].
      cbn [resolveVar sameSyntax andb resolveExpr]. by rewrite Hhas.
    + destruct (obj_has key ctx) eqn:Hhas; [done|].
      cbn [resolveVar sameSyntax andb resolveExpr]. by rewrite Hhas.
  - cbn [resolveVar resolveExpr].
    destruct (evaluateExpression jsEval e ctx) as [[v|msg] es] eqn:He; [done|].
    cbn [resolveVar resolveExpr]. by rewrite He.
Qed.

Lemma renderFresh_idempotent_parts ctx ps :
  valuesInert ctx = true →
  hostInert jsEval →
  forallb wellFormed ps = true →
  (renderFresh jsEval ctx (renderFresh jsEval ctx (flatten ps)).1).1
  = (renderFresh jsEval ctx (flatten ps)).1.
Proof.
  intros Hctx Hhost Hps.
  rewrite (renderFresh_parts ctx ps) by done.
  rewrite renderFresh_parts; [|done|].
  - rewrite map_map. f_equal. apply map_ext. intros p. apply resolve_settled.
  - apply forallb_map_wellFormed; [|done]. intros p Hp. unfold resolve.
    apply resolveExpr_wellFormed; [done|].
    by repeat apply resolveVar_wellFormed.
Qed.

End Parts.

(** C9, amended.  Take a text without nested placeholders: a sequence of
    variable placeholders, expression placeholders and text in between
    that has no opening brace and no [#] or [$] as last character.  Let
    the values of the context and the results of the expressions, as
    printed, be such texts too, so that no substituted value contains a
    placeholder or completes one with what stands next to it.  Then,
    starting with an empty or disabled cache, rendering the result of
    [render] again returns it unchanged; the placeholders the context
    does not resolve are part of that result both times. *)
Theorem render_idempotent_without_nesting
    (jsEval : string → outcome value) (r : ContextRenderer) (parts : list part)
    (customContext : jsobject) :
  let mergedContext := obj_spread (context r) customContext in
  cacheEnabled r = false ∨ renderCache r = [] →
  forallb wellFormed parts = true →
  valuesInert mergedContext = true →
  obj_has "hasOwnProperty" mergedContext = false →
  hostInert jsEval →
  let first := render jsEval (flatten parts) customContext r in
  (render jsEval first.1 customContext first.2).1 = first.1.
Proof.
  intros mergedContext Hcache Hparts Hvalues _ Hhost first.
  assert (Hmiss : (if cacheEnabled r
                   then cacheGet (createCacheKey (flatten parts) customContext)
                                 (renderCache r)
                   else None) = None).
  { destruct Hcache as [-> | ->]; [done | by destruct (cacheEnabled r)]. }
  pose proof (renderFresh_idempotent_parts jsEval mergedContext parts
                Hvalues Hhost Hparts) as Hid.
  assert (Hfirst : first = render jsEval (flatten parts) customContext r) by done.
  clearbody first. unfold render in Hfirst. rewrite Hmiss in Hfirst.
  fold mergedContext in Hfirst.
  destruct (renderFresh jsEval mergedContext (flatten parts)) as [rendered es] eqn:Hfresh.
  cbn [fst] in Hid. subst first. cbn [fst snd].
  unfold render. destruct (cacheEnabled r) eqn:Hen; cbn [cacheEnabled logged addToCache
    with_cache renderCache context].
  - rewrite Hen. destruct Hcache as [? | Hempty]; [done|].
    rewrite Hempty. cbn [length Nat.leb maxCacheSize cacheSet cacheGet].
    destruct (String.eqb _ _); [done|].
    fold mergedContext.
    destruct (renderFresh jsEval mergedContext rendered) as [again es'].
    cbn [fst] in *. by subst again.
  - rewrite Hen. fold mergedContext.
    destruct (renderFresh jsEval mergedContext rendered) as [again es'].
    cbn [fst] in *. by subst again.
Qed.

Lemma render_idempotent_without_nesting_witness :
  let parts := [ Var Hash "Greeting"; Plain ", "; Var Dollar "Nobody"; Plain ": ";
                 Expression "5 + 1"; Plain " items at $5, order #12}" ] in
  let r := withContext [("Greeting", VStr "Hello")] in
  let first := render sumHost (flatten parts) [] r in
  flatten parts = "#{Greeting}, ${Nobody}: #{5 + 1} items at $5, order #12}"
  ∧ forallb wellFormed parts = true
  ∧ valuesInert (obj_spread (context r) []) = true
  ∧ obj_has "hasOwnProperty" (obj_spread (context r) []) = false
  ∧ hostInert sumHost
  ∧ first.1 = "Hello, ${Nobody}: 6 items at $5, order #12}"
  ∧ (render sumHost first.1 [] first.2).1 = first.1.
Proof.
  intros parts r first.
  assert (Hhost : hostInert sumHost).
  { intros code v. unfold sumHost. destruct (String.eqb code "5 + 1"); [|done].
    by intros [= <-]. }
  split; [reflexivity|]. split; [reflexivity|]. split; [reflexivity|].
  split; [reflexivity|]. split; [exact Hhost|]. split; [reflexivity|].
  apply (render_idempotent_without_nesting sumHost r parts []); try reflexivity;
    [by right | exact Hhost].
Defined.

(** C9, as stated, fails.  With [A = "#{B"] and [B = "x"] no context value
    contains a placeholder and the text ["#{A}}"] holds one placeholder,
    yet its rendering ["#{B}"] renders to ["x"]: the value of [A] and the
    brace that follows it make up a new placeholder, which the later
    expression pass leaves in place. *)
Lemma render_twice_differs :
  let r := withContext [("A", VStr "#{B"); ("B", VStr "x")] in
  let first := render rejectingHost "#{A}}" [] r in
  valuesPlaceholderFree (context r) = true
  ∧ first.1 = "#{B}"
  ∧ (render rejectingHost first.1 [] first.2).1 = "x"
  ∧ (render rejectingHost first.1 [] first.2).1 ≠ first.1.
Proof. vm_compute. repeat split; done. Qed.

Lemma unsafe_expression_left_verbatim_witness :
  let ctx := [("UserName", VStr "Ann")] in
  let s := "Hi #{UserName + 1}!" in
  Hole "#{UserName + 1}" "UserName + 1" ∈ scan matchExpr 0 s
  ∧ isSafe (substituteContext ctx "UserName + 1") = false
  ∧ ∃ warning,
      callbackOn (exprCallback rejectingHost ctx) (Hole "#{UserName + 1}" "UserName + 1")
      = ("#{UserName + 1}", [Warned warning]).
Proof.
  intros ctx s.
  assert (Hin : Hole "#{UserName + 1}" "UserName + 1" ∈ scan matchExpr 0 s).
  { apply list_elem_of_In. vm_compute. tauto. }
  split; [exact Hin|]. split; [reflexivity|].
  destruct (unsafe_expression_left_verbatim rejectingHost ctx s) as (_ & _ & H & _).
  destruct (H _ _ Hin eq_refl) as (_ & _ & Hw). exact Hw.
Defined.

(** *** Invalidation of texts without the separator *)

Lemma before_separator (text rest : string) :
  allChars (fun c => negb (Ascii.eqb c "|")) text = true →
  Str.before "|" (text +:+ "|" +:+ rest) = text.
Proof.
  induction text as [|c text IH]; [done|].
  rewrite append_cons. simpl. intros [Hc Ht]%andb_true_iff.
  apply negb_true_iff in Hc. rewrite Hc. by rewrite IH.
Qed.

Lemma cacheGet_filter_none key (keep : string * string → bool) cache :
  (∀ v, keep (key, v) = false) → cacheGet key (List.filter keep cache) = None.
Proof.
  intros Hk. induction cache as [|[k v] cache IH]; simpl; [done|].
  destruct (keep (k, v)) eqn:Hkeep; [|exact IH].
  simpl. destruct (String.eqb key k) eqn:E; [|exact IH].
  apply String.eqb_eq in E. subst k. by rewrite Hk in Hkeep.
Qed.

(** For a text without [|], a change of a key the text references removes
    the text's cache entries, whatever the extra context they were made
    with. *)
Lemma setContext_drops_referencing_entries
    (r : ContextRenderer) (key : string) (v : value) (text : string)
    (customContext : jsobject) :
  allChars (fun c => negb (Ascii.eqb c "|")) text = true →
  references text key = true →
  obj_read key (context r) ≠ v →
  cacheGet (createCacheKey text customContext) (renderCache (setContext key v r)) = None.
Proof.
  intros Hbar Href Hchanged. unfold setContext.
  destruct (decide (obj_read key (context r) = v)) as [|_]; [done|].
  unfold notifyWatchers, invalidateCache. simpl.
  apply cacheGet_filter_none. intros cached. simpl.
  unfold createCacheKey. rewrite before_separator by done.
  by rewrite Href.
Qed.

(** C7.  The text ["Cashier | #{UserName}"] references [UserName], yet
    after [setContext "UserName"] its cache entry is still there and
    [render] returns the string computed from the old value:
    [invalidateCache] looks for the reference in the cache key up to its
    first [|], which here is only ["Cashier "]. *)
Theorem stale_render_after_setContext (jsEval : string → outcome value) :
  let text := "Cashier | #{UserName}" in
  let r0 := withContext [("UserName", VStr "John Doe")] in
  let r1 := (render jsEval text [] r0).2 in
  let r2 := setContext "UserName" (VStr "Ann") r1 in
  references text "UserName" = true
  ∧ renderCache r2 = [(createCacheKey text [], "Cashier | John Doe")]
  ∧ (render jsEval text [] r2).1 = "Cashier | John Doe"
  ∧ (renderFresh jsEval (context r2) text).1 = "Cashier | Ann".
Proof. vm_compute. done. Qed.

(** C8.  With [Total] set to 5 the text ["#{Total + 1}"] renders as
    ["6"] and is cached.  After [setContext "Total" "abc"] the expression,
    with the value substituted, is no longer made of safe characters, and
    rendering the text afresh leaves the placeholder as it is; but the
    cache entry has survived, since [invalidateCache] only looks for the
    key in the three variable syntaxes, and [render] returns ["6"]. *)
Theorem stale_value_for_unsafe_expression (jsEval : string → outcome value) :
  jsEval "5 + 1" = Returned (VNum 6) →
  let text := "#{Total + 1}" in
  let r0 := withContext [("Total", VNum 5)] in
  let first := render jsEval text [] r0 in
  let r2 := setContext "Total" (VStr "abc") first.2 in
  first.1 = "6"
  ∧ renderCache r2 = [(createCacheKey text [], "6")]
  ∧ substituteContext (context r2) "Total + 1" = quote +:+ "abc" +:+ quote +:+ " + 1"
  ∧ isSafe (substituteContext (context r2) "Total + 1") = false
  ∧ (renderFresh jsEval (context r2) text).1 = text
  ∧ (render jsEval text [] r2).1 = "6".
Proof.
  intros H text r0 first r2.
  assert (Hfirst : first
                   = ("6", mkRenderer [("Total", VNum 5)] [] [("#{Total + 1}|{}", "6")]
                             true [Evaluated "5 + 1"])).
  { subst first r0 text. vm_compute. rewrite H. reflexivity. }
  subst r2. rewrite Hfirst. cbn [fst snd].
  split; [reflexivity|]. vm_compute. repeat split.
Qed.

Lemma stale_value_for_unsafe_expression_witness :
  let first := render sumHost "#{Total + 1}" [] (withContext [("Total", VNum 5)]) in
  sumHost "5 + 1" = Returned (VNum 6)
  ∧ (render sumHost "#{Total + 1}" [] (setContext "Total" (VStr "abc") first.2)).1 = "6".
Proof.
  intros first. split; [reflexivity|].
  destruct (stale_value_for_unsafe_expression sumHost eq_refl) as (_ & _ & _ & _ & _ & H).
  exact H.
Defined.

(** *** The render cache *)






Lemma cacheSet_length key value cache :
  length (cacheSet key value cache) ≤ S (length cache).
Proof.
  induction cache as [|[k v] cache IH]; simpl; [lia|].
  destruct (String.eqb key k); simpl; lia.
Qed.

Lemma addToCache_bounded key value r :
  length (renderCache r) ≤ maxCacheSize →
  length (renderCache (addToCache key value r)) ≤ maxCacheSize.
Proof.
  intros Hb. unfold addToCache. cbn [renderCache with_cache].
  destruct (Nat.leb_spec maxCacheSize (length (renderCache r))) as [Hfull|Hroom].
  - pose proof (cacheSet_length key value (tail (renderCache r))) as H1.
    destruct (renderCache r) as [|e c]; cbn [tail length] in *;
      unfold maxCacheSize in *; lia.
  - pose proof (cacheSet_length key value (renderCache r)) as H2. lia.
Qed.

Lemma filter_shorter {A} (p : A → bool) (l : list A) :
  length (List.filter p l) ≤ length l.
Proof. induction l as [|x l IH]; simpl; [lia|]. destruct (p x); simpl; lia. Qed.

Lemma invalidateCache_bounded keys r :
  length (renderCache (invalidateCache keys r)) ≤ length (renderCache r).
Proof.
  unfold invalidateCache. destruct keys as [|k ks]; cbn [renderCache with_cache clearCache].
  - simpl. lia.
  - apply filter_shorter.
Qed.

(** X17.  The render cache never grows past [maxCacheSize] entries: if it
    holds at most 1000 entries, it still does after [render],
    [setContext] and [updateContext]. *)
Theorem cache_stays_bounded (jsEval : string → outcome value) (r : ContextRenderer) :
  length (renderCache r) ≤ maxCacheSize →
  (∀ text customContext,
     length (renderCache (render jsEval text customContext r).2) ≤ maxCacheSize)
  ∧ (∀ key v, length (renderCache (setContext key v r)) ≤ maxCacheSize)
  ∧ (∀ updates, length (renderCache (updateContext updates r)) ≤ maxCacheSize).
Proof.
  intros Hb. split; [|split].
  - intros text customContext. unfold render.
    destruct (if cacheEnabled r then _ else _) as [cached|]; [exact Hb|].
    destruct (renderFresh _ _ _) as [rendered es]. cbn [snd].
    destruct (cacheEnabled r); [|exact Hb]. by apply addToCache_bounded.
  - intros key v. unfold setContext. case_decide; [exact Hb|].
    unfold notifyWatchers, logged. cbn [renderCache].
    etrans; [apply invalidateCache_bounded|exact Hb].
  - intros updates. unfold updateContext.
    destruct (fold_left _ updates _) as [ctx changed].
    destruct changed as [|k ks]; [exact Hb|].
    unfold notifyWatchers, logged. cbn [renderCache].
    etrans; [apply invalidateCache_bounded|exact Hb].
Qed.

Lemma cache_stays_bounded_witness :
  let r := withContext [("UserName", VStr "Ann")] in
  length (renderCache r) ≤ maxCacheSize
  ∧ length (renderCache (render rejectingHost "#{UserName}" [] r).2) ≤ maxCacheSize.
Proof.
  intros r.
  assert (H : length (renderCache r) ≤ maxCacheSize) by (simpl; lia).
  split; [exact H|].
  destruct (cache_stays_bounded rejectingHost r H) as [Hr _]. apply Hr.
Defined.

(** X18.  A text in which none of ["#{"], ["${"] and ["{{"] occurs is
    rendered to itself, without any warning or evaluation, whatever the
    contexts hold (provided the cache is disabled or has no entry under
    the text's cache key). *)
Theorem render_plain_text (jsEval : string → outcome value)
    (text : string) (customContext : jsobject) (r : ContextRenderer) :
  hasOpener text = false →
  cacheEnabled r = false
  ∨ cacheGet (createCacheKey text customContext) (renderCache r) = None →
  (render jsEval text customContext r).1 = text
  ∧ effects (render jsEval text customContext r).2 = effects r.
Proof.
  intros Hplain Hcache. unfold render.
  assert (Hmiss : (if cacheEnabled r
                   then cacheGet (createCacheKey text customContext) (renderCache r)
                   else None) = None).
  { destruct Hcache as [-> | ->]; [done|]. by destruct (cacheEnabled r). }
  rewrite Hmiss, renderFresh_without_openers by done. cbn [fst snd].
  split; [done|]. destruct (cacheEnabled r); simpl; by rewrite app_nil_r.
Qed.

Lemma render_plain_text_witness :
  let r := withContext [("UserName", VStr "Ann")] in
  hasOpener "Total: 12 {incl. tax}" = false
  ∧ (render rejectingHost "Total: 12 {incl. tax}" [] r).1 = "Total: 12 {incl. tax}".
Proof.
  intros r. split; [reflexivity|].
  apply (render_plain_text rejectingHost "Total: 12 {incl. tax}" [] r eq_refl).
  right. reflexivity.
Defined.






(** *** Variable placeholders *)

Lemma spanWord_app s w rest : spanWord s = (w, rest) → s = w +:+ rest.
Proof.
  revert w rest. induction s as [|c s IH]; intros w rest; simpl.
  - by intros [= <- <-].
  - destruct (isWord c).
    + destruct (spanWord s) as [w' rest'] eqn:Hs. intros [= <- <-].
      rewrite append_cons. f_equal. by apply IH.
    + by intros [= <- <-].
Qed.

Lemma matchVar_spec opener closer s key len :
  matchVar opener closer s = Some (key, len) →
  len = String.length (opener +:+ key +:+ closer)
  ∧ ∃ post, s = (opener +:+ key +:+ closer) +:+ post.
Proof.
  unfold matchVar.
  destruct (stripPrefix opener s) as [s1|] eqn:H1; [|done].
  destruct (spanWord s1) as [w s2] eqn:H2.
  destruct (Str.falsy w); [done|].
  destruct (stripPrefix closer s2) as [post|] eqn:H3; [|done].
  intros [= <- <-].
  apply stripPrefix_app in H1, H3. apply spanWord_app in H2. subst s s1 s2.
  split.
  - rewrite !length_app_S. lia.
  - exists post. by rewrite !append_assoc_s.
Qed.

Lemma obj_has_set k k' v o :
  obj_has k' (obj_set k v o) = String.eqb k' k || obj_has k' o.
Proof.
  induction o as [|[k0 v0] o IH]; simpl; [done|].
  destruct (String.eqb k k0) eqn:E; simpl.
  - apply String.eqb_eq in E. subst k0. by destruct (String.eqb k' k).
  - rewrite IH. destruct (String.eqb k' k0), (String.eqb k' k); done.
Qed.

Lemma obj_spread_lookup ctx custom key :
  NoDup (obj_keys custom) →
  obj_has key (obj_spread ctx custom) = obj_has key custom || obj_has key ctx
  ∧ obj_get key (obj_spread ctx custom)
    = if obj_has key custom then obj_get key custom else obj_get key ctx.
Proof.
  unfold obj_spread. revert ctx.
  induction custom as [|[k v] custom IH]; intros ctx Hnd; cbn [fold_left fst snd].
  - done.
  - apply NoDup_cons in Hnd as [Hk Hnd].
    destruct (IH (obj_set k v ctx) Hnd) as [Hh Hg]. rewrite Hh, Hg, obj_has_set.
    cbn [obj_has obj_get].
    destruct (String.eqb key k) eqn:E.
    + apply String.eqb_eq in E. subst k.
      assert (Hnot : obj_has key custom = false).
      { destruct (obj_has key custom) eqn:Hc; [|done].
        apply StoreFacts.obj_has_keys in Hc. done. }
      rewrite Hnot. cbn [orb]. split; [done|]. apply JSFacts.obj_get_set_eq.
    + cbn [orb]. split; [done|]. destruct (obj_has key custom); [done|].
      apply JSFacts.obj_get_set_ne. intros ->. by rewrite String.eqb_refl in E.
Qed.

(** X20.  With a global and a custom context that have no property named
    [hasOwnProperty] and hold values that print exactly, in each of the
    three variable passes a placeholder is the opener, a key and the
    closer; it is replaced by the formatted value of the key in the
    custom context if the custom context has the key, otherwise by that
    of the global context if this one has it, and is otherwise left as it
    is, with a warning. *)
Theorem variable_placeholder_resolution (opener closer : string)
    (ctx customContext : jsobject) (s : string) :
  NoDup (obj_keys customContext) →
  plainContext ctx = true →
  plainContext customContext = true →
  let mergedContext := obj_spread ctx customContext in
  ∀ matched key,
    Hole matched key ∈ scan (matchVar opener closer) 0 s →
    matched = opener +:+ key +:+ closer
    ∧ callbackOn (varCallback mergedContext) (Hole matched key)
      = if obj_has key customContext
        then (formatValue (obj_get key customContext), [])
        else if obj_has key ctx then (formatValue (obj_get key ctx), [])
        else (matched, [Warned ("ContextRenderer: Unknown context variable: " +:+ key)]).
Proof.
  intros Hnd _ _ mergedContext matched key Hin.
  apply scan_hole in Hin as (t & len & Hm & ->).
  apply matchVar_spec in Hm as [-> [post ->]].
  split; [apply substring_app_prefix|].
  cbn [callbackOn]. unfold varCallback. subst mergedContext.
  destruct (obj_spread_lookup ctx customContext key Hnd) as [-> ->].
  destruct (obj_has key customContext); [done|]. cbn [orb].
  destruct (obj_has key ctx); [done|]. by rewrite substring_app_prefix.
Qed.

Lemma variable_placeholder_resolution_witness :
  NoDup (obj_keys [("UserName", VStr "Bea")])
  ∧ plainContext [("UserName", VStr "Ann")] = true
  ∧ plainContext [("UserName", VStr "Bea")] = true
  ∧ Hole "#{UserName}" "UserName" ∈ scan (matchVar "#{" "}") 0 "Hi #{UserName}!"
  ∧ callbackOn (varCallback (obj_spread [("UserName", VStr "Ann")]
                                        [("UserName", VStr "Bea")]))
               (Hole "#{UserName}" "UserName")
    = ("Bea", []).
Proof.
  assert (Hnd : NoDup (obj_keys [("UserName", VStr "Bea")])).
  { apply NoDup_singleton. }
  assert (Hin : Hole "#{UserName}" "UserName"
                ∈ scan (matchVar "#{" "}") 0 "Hi #{UserName}!").
  { vm_compute. do 3 right. left. }
  split; [exact Hnd|]. split; [reflexivity|]. split; [reflexivity|]. split; [exact Hin|].
  destruct (variable_placeholder_resolution "#{" "}" [("UserName", VStr "Ann")]
              [("UserName", VStr "Bea")] "Hi #{UserName}!" Hnd eq_refl eq_refl
              "#{UserName}" "UserName" Hin) as [_ ->].
  reflexivity.
Defined.

End TemplateFacts.

(** ** The control factory *)

Module FactoryFacts.
Import JS StrFacts Factory.

Lemma invalid_type_message_critical (t rest : string) :
  critical ("Invalid control type: " +:+ t +:+ rest) = true.
Proof.
  unfold critical. apply orb_true_iff. right.
  apply (includes_prefix "Invalid control type" (": " +:+ t +:+ rest)).
Qed.

Lemma append_empty_r (s : string) : s +:+ EmptyString = s.
Proof.
  induction s as [|c s IH]; [done|].
  change (String c (s +:+ EmptyString) = String c s). by rewrite IH.
Qed.

Lemma applySanitization_type stamp d : d_type (applySanitization stamp d) = d_type d.
Proof.
  unfold applySanitization. destruct d as [ty [u|] cs]; simpl; [|done].
  by destruct (Str.falsy u).
Qed.

Lemma applySanitization_children stamp d :
  d_children (applySanitization stamp d) = d_children d.
Proof.
  unfold applySanitization. destruct d as [ty [u|] cs]; simpl; [|done].
  by destruct (Str.falsy u).
Qed.

Lemma definitionErrors_invalid_type d t :
  d_type d = Some t → Str.falsy t = false → isKnownType t = false →
  ∃ rest others,
    definitionErrors d = ("Invalid control type: " +:+ t +:+ rest) :: others.
Proof.
  intros Ht Hf Hk. destruct d as [ty u cs]. simpl in Ht. subst ty.
  cbn [definitionErrors]. unfold validateBasicStructure. cbn [d_type].
  rewrite Hf, Hk. cbn [negb andb app]. eauto.
Qed.

(** A type the validation rejects never gets an instance. *)
Lemma create_rejected_type env stamp d t :
  d_type d = Some t → Str.falsy t = false → typeAccepted env t = false →
  create env stamp (Some d) = Returned None.
Proof.
  intros Ht Hf Hacc. unfold create, falsyType. rewrite Ht, Hf.
  unfold typeAccepted, validateDefinition in *.
  destruct (hasValidation env).
  - unfold validateControlDefinition.
    destruct (definitionErrors_invalid_type d t Ht Hf Hacc) as (rest & others & ->).
    cbn [isValid errors negb andb existsb].
    by rewrite invalid_type_message_critical.
  - unfold basicValidation. rewrite Ht, Hf, Hacc.
    cbn [isValid errors negb andb existsb].
    pose proof (invalid_type_message_critical t EmptyString) as Hc.
    rewrite append_empty_r in Hc. by rewrite Hc.
Qed.

(** The instance [create] returns is built from the sanitized definition,
    which has the type and the children of the definition given. *)
Lemma create_instance_definition env stamp d inst :
  create env stamp (Some d) = Returned (Some inst) →
  d_type (i_definition inst) = d_type d
  ∧ d_children (i_definition inst) = d_children d.
Proof.
  unfold create. destruct (falsyType d); [done|].
  destruct (negb _ && _); [done|].
  set (sanitized := default d _).
  assert (Hs : d_type sanitized = d_type d ∧ d_children sanitized = d_children d).
  { subst sanitized. unfold validateDefinition.
    destruct (hasValidation env); simpl; [|done].
    by rewrite applySanitization_type, applySanitization_children. }
  unfold construct.
  destruct (controlTypes env !! _) as [[name|]|];
    repeat (destruct (constructs env _ sanitized)); intros [= <-]; exact Hs.
Qed.




(** *** Types the validation engine does not know *)

(** X21.  While the validation engine is installed, registering a type
    that is not in its [VALID_CONTROL_TYPES] does not make the factory
    create it: [isValidType] answers [true] for the registered type, yet
    [create] returns [null] for every definition of that type.  The
    registry is a plain object: the type is taken not to be named like a
    member of [Object.prototype] (registering [__proto__] adds no entry)
    and the registry to have no entry [hasOwnProperty], which
    [isValidType] would call. *)
Theorem registering_unknown_type_has_no_effect
    (env : Env) (stamp : string) (d : definition) (t : string)
    (provider : option string) :
  hasValidation env = true →
  d_type d = Some t →
  isKnownType t = false →
  inherited t = false →
  controlTypes env !! "hasOwnProperty" = None →
  isValidType (registerControl t provider env) t = true
  ∧ create (registerControl t provider env) stamp (Some d) = Returned None.
Proof.
  intros Hval Ht Hk _ _. split.
  - unfold isValidType, registerControl. cbn [controlTypes].
    rewrite lookup_insert_eq. by apply bool_decide_eq_true.
  - destruct (Str.falsy t) eqn:Hf.
    + unfold create, falsyType. by rewrite Ht, Hf.
    + apply (create_rejected_type _ stamp d t Ht Hf).
      unfold typeAccepted, registerControl. cbn [hasValidation]. by rewrite Hval.
Qed.

Lemma registering_unknown_type_has_no_effect_witness :
  hasValidation defaultEnv = true
  ∧ isKnownType "loyalty-card" = false
  ∧ inherited "loyalty-card" = false
  ∧ controlTypes defaultEnv !! "hasOwnProperty" = None
  ∧ create (registerControl "loyalty-card" (Some "LoyaltyCardControl") defaultEnv) "1"
           (Some (Def (Some "loyalty-card") (Some "card") []))
    = Returned None.
Proof.
  split; [reflexivity|]. split; [reflexivity|]. split; [reflexivity|].
  split; [vm_compute; reflexivity|].
  apply (registering_unknown_type_has_no_effect defaultEnv "1"
           (Def (Some "loyalty-card") (Some "card") []) "loyalty-card"
           (Some "LoyaltyCardControl")); reflexivity.
Defined.

Lemma definition_tree_ind (P : definition → Prop) :
  (∀ t u cs,
     Forall (fun c => match c with Some cd => P cd | None => True end) cs →
     P (Def t u cs)) →
  ∀ d, P d.
Proof.
  intros H. fix IH 1. intros [t u cs]. apply H.
  induction cs as [|[cd|] cs IHcs]; constructor; auto.
Qed.

Lemma definitionErrors_unfold d :
  definitionErrors d
  = validateBasicStructure d ++ validateTypeSpecific d ++ childErrors 0 (d_children d).
Proof.
  by destruct d as [t u cs].
Qed.

Lemma critical_prefixed index es :
  existsb critical es = true → existsb critical (prefixed index es) = true.
Proof.
  unfold prefixed. induction es as [|e es IH]; [done|]. cbn [existsb map].
  intros H. apply orb_true_iff in H as [H|H]; apply orb_true_iff; [left|right; auto].
  unfold critical in *. apply orb_true_iff in H as [H|H]; apply orb_true_iff; [left|right].
  - apply EventsFacts.includes_app_r. by apply EventsFacts.includes_app_r.
  - apply EventsFacts.includes_app_r. by apply EventsFacts.includes_app_r.
Qed.

Lemma hasInvalidType_critical d :
  hasInvalidType d = true → existsb critical (definitionErrors d) = true.
Proof.
  induction d as [t u cs IH] using definition_tree_ind.
  rewrite definitionErrors_unfold. cbn [hasInvalidType d_type d_children].
  rewrite !existsb_app. intros H. apply orb_true_iff in H as [H|H].
  - destruct t as [t|]; [|done]. apply andb_true_iff in H as [Hf Hk].
    apply negb_true_iff in Hf, Hk.
    unfold validateBasicStructure. cbn [d_type]. rewrite Hf, Hk. cbn [negb andb app existsb].
    by rewrite invalid_type_message_critical.
  - apply orb_true_iff. right. apply orb_true_iff. right.
    generalize 0. induction IH as [|c cs Hc _ IHcs]; intros n; [done|].
    cbn [existsb] in H. cbn [childErrors]. rewrite existsb_app.
    apply orb_true_iff in H as [H|H]; apply orb_true_iff; [left|right].
    + destruct c as [cd|]; [|done]. apply critical_prefixed. by apply Hc.
    + by apply IHcs.
Qed.

(** X22.  With the validation engine installed, a definition is rejected
    as a whole when it or any of its descendants, at any depth, has a
    type that is a non-empty string outside [VALID_CONTROL_TYPES]: the
    child's error keeps the words the factory looks for under the
    ["Child at index N: "] prefixes, and [create] returns [null]. *)
Theorem create_rejects_invalid_descendant (env : Env) (stamp : string) (d : definition) :
  hasValidation env = true →
  hasInvalidType d = true →
  create env stamp (Some d) = Returned None.
Proof.
  intros Hval Hinv. unfold create. destruct (falsyType d); [done|].
  unfold validateDefinition. rewrite Hval. unfold validateControlDefinition.
  cbn [isValid errors]. pose proof (hasInvalidType_critical d Hinv) as Hc.
  rewrite Hc. by destruct (definitionErrors d).
Qed.

Lemma create_rejects_invalid_descendant_witness :
  let d := Def (Some "panel") (Some "root")
             [Some (Def (Some "section") None
                      [Some (Def (Some "button") (Some "ok") []);
                       Some (Def (Some "input") (Some "name") [])])] in
  hasValidation defaultEnv = true
  ∧ hasInvalidType d = true
  ∧ create defaultEnv "1" (Some d) = Returned None.
Proof.
  intros d. split; [reflexivity|]. split; [reflexivity|].
  apply (create_rejects_invalid_descendant defaultEnv "1" d); reflexivity.
Defined.

(** *** Exceptions and generated identifiers *)

(** X23.  For a definition whose type has a registry entry, [create]
    never throws: a failing constructor is caught, the base [Control] is
    tried, and [null] is returned if that fails too. *)
Theorem create_registered_type_never_throws
    (env : Env) (stamp : string) (d : definition) (t : string) :
  d_type d = Some t →
  is_Some (controlTypes env !! t) →
  ∃ result, create env stamp (Some d) = Returned result.
Proof.
  intros Ht [provider Hreg]. unfold create.
  destruct (falsyType d); [by eexists|].
  destruct (negb _ && _); [by eexists|].
  set (sanitized := default d _).
  assert (Hs : d_type sanitized = Some t).
  { subst sanitized. unfold validateDefinition.
    destruct (hasValidation env); simpl; [|done].
    by rewrite applySanitization_type. }
  rewrite Hs. cbn [default from_option id]. rewrite Hreg.
  destruct provider as [name|];
    repeat (destruct (construct env _ sanitized)); by eexists.
Qed.

Lemma create_registered_type_never_throws_witness :
  let env := mkEnv defaultControlTypes true (fun _ _ => false) in
  is_Some (controlTypes env !! "button")
  ∧ create env "1" (Some (Def (Some "button") (Some "ok") [])) = Returned None.
Proof.
  intros env.
  assert (H : is_Some (controlTypes env !! "button")) by (vm_compute; eauto).
  split; [exact H|].
  destruct (create_registered_type_never_throws env "1"
              (Def (Some "button") (Some "ok") []) "button" eq_refl H) as [result Hr].
  rewrite Hr. f_equal. vm_compute in Hr. by injection Hr as <-.
Defined.

Lemma falsy_app_cons (a b : string) c : Str.falsy (a +:+ String c b) = false.
Proof. by destruct a. Qed.

(** X24.  With the validation engine installed, every control [create]
    returns is built from a definition with a non-empty UID: the UID of
    the given definition if it has a non-empty one, a generated one
    otherwise. *)
Theorem created_control_has_uid
    (env : Env) (stamp : string) (d : definition) (inst : instance) :
  hasValidation env = true →
  create env stamp (Some d) = Returned (Some inst) →
  ∃ u, d_UID (i_definition inst) = Some u
       ∧ Str.falsy u = false
       ∧ (∀ u0, d_UID d = Some u0 → Str.falsy u0 = false → u = u0).
Proof.
  intros Hval. unfold create. destruct (falsyType d); [done|].
  destruct (negb _ && _); [done|].
  unfold validateDefinition. rewrite Hval. unfold validateControlDefinition.
  cbn [sanitizedDefinition default from_option id].
  set (sanitized := applySanitization stamp d).
  assert (Hs : ∃ u, d_UID sanitized = Some u ∧ Str.falsy u = false
                    ∧ (∀ u0, d_UID d = Some u0 → Str.falsy u0 = false → u = u0)).
  { subst sanitized. unfold applySanitization, generateUID.
    destruct (d_UID d) as [u0|] eqn:Hu.
    - destruct (Str.falsy u0) eqn:Hf.
      + eexists. split; [done|]. split; [apply falsy_app_cons|].
        intros u1 [= <-] Hf1. congruence.
      + exists u0. rewrite Hu. split; [done|]. split; [done|]. by intros u1 [= <-] _.
    - eexists. split; [done|]. split; [apply falsy_app_cons|]. done. }
  unfold construct.
  destruct (controlTypes env !! _) as [[name|]|];
    repeat (destruct (constructs env _ sanitized)); intros [= <-]; exact Hs.
Qed.

Lemma created_control_has_uid_witness :
  hasValidation defaultEnv = true
  ∧ ∃ u, d_UID (Def (Some "button") (Some "button-7") []) = Some u
         ∧ Str.falsy u = false.
Proof.
  split; [reflexivity|].
  destruct (created_control_has_uid defaultEnv "7" (Def (Some "button") None [])
              (Instance (Subclass "ButtonControl") (Def (Some "button") (Some "button-7") []))
              eq_refl eq_refl) as (u & Hu & Hf & _).
  exists u. by split.
Defined.

(** *** Templates *)

Lemma matchVar_consuming opener closer :
  Str.falsy opener = false → Template.consuming (Template.matchVar opener closer).
Proof.
  intros Ho s key len Hm.
  apply TemplateFacts.matchVar_spec in Hm as [-> [post ->]].
  rewrite !TemplateFacts.length_app_S. destruct opener; [done|]. simpl. lia.
Qed.

Lemma assemble_sources (f : string → string → string * list Template.effect) segs :
  (∀ matched capture, Template.Hole matched capture ∈ segs →
                      f matched capture = (matched, [])) →
  Template.assemble (map (Template.callbackOn f) segs)
  = (Template.concatSources segs, []).
Proof.
  induction segs as [|seg segs IH]; intros Hf; [done|].
  cbn [map Template.assemble Template.concatSources].
  rewrite IH by (intros m c Hin; apply Hf; by right).
  destruct seg as [c|matched capture]; cbn [Template.callbackOn Template.source]; [done|].
  rewrite Hf by left. done.
Qed.

Lemma replaceContextPlaceholders_undefined inheritedText text context :
  (∀ key, obj_get key context = VUndefined) →
  namesNoInherited text = true →
  replaceContextPlaceholders inheritedText text context = text.
Proof.
  intros Hctx Hplain. unfold replaceContextPlaceholders, Template.replaceWith.
  rewrite assemble_sources.
  - cbn [fst]. rewrite (TemplateFacts.scan_sources _ (matchVar_consuming "#{" "}" eq_refl))
      by lia. apply TemplateFacts.dropS_0.
  - intros matched key Hin. unfold contextCallback. rewrite Hctx.
    unfold namesNoInherited in Hplain. rewrite forallb_forall in Hplain.
    apply list_elem_of_In in Hin. specialize (Hplain _ Hin). cbn beta iota in Hplain.
    apply negb_true_iff in Hplain. by rewrite Hplain, andb_false_r.
Qed.

Lemma applyContextToDefinition_undefined inheritedText context d :
  (∀ key, obj_get key context = VUndefined) →
  templateNamesNoInherited d = true →
  applyContextToDefinition inheritedText context d = d.
Proof.
  intros Hctx. induction d as [t u cs IH] using definition_tree_ind.
  cbn [applyContextToDefinition templateNamesNoInherited d_type d_UID d_children].
  intros Hplain. apply andb_true_iff in Hplain as [Hplain Hcs].
  apply andb_true_iff in Hplain as [Ht Hu]. f_equal.
  - destruct t; [|done]. simpl. by rewrite replaceContextPlaceholders_undefined.
  - destruct u; [|done]. simpl. by rewrite replaceContextPlaceholders_undefined.
  - induction IH as [|c cs Hc _ IHcs]; [done|]. cbn [map forallb] in *.
    apply andb_true_iff in Hcs as [Hc0 Hcs]. rewrite IHcs by done. f_equal.
    destruct c; [|done]. by rewrite Hc.
Qed.

(** X25.  [createFromTemplate] with a context in which no key has a
    value (the default [{}] for one) leaves the placeholders of the
    template as they are, provided none of them names a member that every
    object inherits, and so returns what [create] returns for the
    template itself. *)
Theorem createFromTemplate_without_values
    (inheritedText : string → string) (env : Env) (stamp : string)
    (template : definition) (context : jsobject) :
  (∀ key, obj_get key context = VUndefined) →
  templateNamesNoInherited template = true →
  createFromTemplate inheritedText env stamp (Some template) context
  = create env stamp (Some template).
Proof.
  intros Hctx Hplain. unfold createFromTemplate.
  by rewrite applyContextToDefinition_undefined.
Qed.

Lemma createFromTemplate_without_values_witness :
  let template := Def (Some "label") (Some "greeting-#{UserID}") [] in
  (∀ key, obj_get key [] = VUndefined)
  ∧ templateNamesNoInherited template = true
  ∧ createFromTemplate (fun _ => "[native]") defaultEnv "1" (Some template) []
    = Returned (Some (Instance (Subclass "LabelControl") template)).
Proof.
  intros template.
  assert (H : ∀ key, obj_get key [] = VUndefined) by done.
  split; [exact H|]. split; [reflexivity|].
  rewrite (createFromTemplate_without_values (fun _ => "[native]") defaultEnv "1"
             template [] H eq_refl).
  reflexivity.
Defined.

End FactoryFacts.

(** ** The control lifecycle *)

Module LifecycleFacts.
Import JS Factory Lifecycle.

(** *** Rendering *)

(** C1.  A panel whose first child has no [type] is created (the child's
    error is not critical), but rendering it throws at the first child:
    [create] returns [null] for it and [renderChildren] dereferences the
    result.  The sibling ["ok"] is never constructed, whereas
    [createBatch] on the same children skips the failure and creates it. *)
Theorem renderChildren_aborts_on_failed_child :
  create defaultEnv "1" (Some brokenPanel)
  = Returned (Some (Instance (Subclass "PanelControl") brokenPanel))
  ∧ create defaultEnv "1" (Some (Def None (Some "broken") [])) = Returned None
  ∧ (createAndRender defaultEnv "1" brokenPanel emptyWorld).1
    = Thrown "TypeError: Cannot set properties of null (setting 'parent')"
  ∧ constructed (createAndRender defaultEnv "1" brokenPanel emptyWorld).2 = []
  ∧ createBatch defaultEnv "1" (d_children brokenPanel)
    = [Instance (Subclass "LabelControl") (Def (Some "label") (Some "ok") [])].
Proof. vm_compute. done. Qed.

(** *** Bubbling *)

Lemma callHandlers_loggable uid event data hs w :
  loggable hs = true →
  (callHandlers uid event data hs w).1 = Returned ()
  ∧ delivered (callHandlers uid event data hs w).2
    = delivered w ++ map (fun h => Delivery uid (h_id h) event data) hs.
Proof.
  revert w. induction hs as [|h hs IH]; intros w Hl; simpl.
  - by rewrite app_nil_r.
  - simpl in Hl. apply andb_true_iff in Hl as [Hh Hl].
    destruct (h_throws h) as [[message|]|]; try done.
    + destruct (IH (logEvent "ERROR"
                 ("Error in event handler for " +:+ event +:+ ": " +:+ message)
                 (deliver (Delivery uid (h_id h) event data) w)) Hl) as [-> ->].
      split; [done|]. simpl. by rewrite <- app_assoc.
    + destruct (IH (deliver (Delivery uid (h_id h) event data) w) Hl) as [-> ->].
      split; [done|]. simpl. by rewrite <- app_assoc.
Qed.

(** C5, amended.  For an event whose name is not that of a member every
    object inherits from [Object.prototype], and when no listener of [c]
    for the event throws [null] or [undefined]: [c.emit(event, data)]
    calls every listener registered on [c] for the event with [data], in
    order, exceptions being caught; without a parent it then returns;
    with a parent it goes on as the parent's [emit] of the same event with
    [data] in which [source] is set to the UID of [c], the control whose
    [emit] is running. *)
Theorem emit_bubbles_with_own_uid
    (c parent : control) (rest : list control) (event : string)
    (data : jsobject) (w : World) :
  let hs := handlersFor event (eventListeners c) in
  let w1 := (callHandlers (UID c) event data hs w).2 in
  inherited event = false →
  loggable hs = true →
  delivered w1 = delivered w ++ map (fun h => Delivery (UID c) (h_id h) event data) hs
  ∧ emit c [] event data w = (Returned (), w1)
  ∧ emit c (parent :: rest) event data w
    = emit parent rest event (obj_set "source" (VStr (UID c)) data) w1.
Proof.
  intros hs w1 _ Hl.
  destruct (callHandlers_loggable (UID c) event data hs w Hl) as [Hr Hd].
  split; [exact Hd|].
  subst w1 hs. destruct c as [u k t cs e ks ls]; simpl in *.
  destruct (callHandlers u event data (handlersFor event ls) w) as [r w1].
  simpl in Hr. subst r. done.
Qed.

Lemma emit_bubbles_with_own_uid_witness :
  inherited "click" = false
  ∧ loggable (handlersFor "click" (eventListeners button)) = true
  ∧ delivered (emit button [panelOf [button]] "click" [("UID", VStr "b1")] emptyWorld).2
    = [ Delivery "b1" 1 "click" [("UID", VStr "b1")];
        Delivery "main" 2 "click" [("UID", VStr "b1"); ("source", VStr "b1")] ].
Proof.
  split; [reflexivity|]. split; [reflexivity|].
  destruct (emit_bubbles_with_own_uid button (panelOf [button]) [] "click"
              [("UID", VStr "b1")] emptyWorld eq_refl eq_refl) as (_ & _ & ->).
  reflexivity.
Defined.

(** C5, as stated, fails.  With a control between the button and the
    root, the root's listener receives the UID of that control as
    [source], not the UID of the button the event comes from. *)
Lemma emit_source_is_overwritten :
  let root := on "click" (Handler 3 None)
                 (Control "root" BaseControl (Some "panel") [] None [] []) in
  delivered (emit button [panelOf [button]; root] "click" [("UID", VStr "b1")]
                  emptyWorld).2
  = [ Delivery "b1" 1 "click" [("UID", VStr "b1")];
      Delivery "main" 2 "click" [("UID", VStr "b1"); ("source", VStr "b1")];
      Delivery "root" 3 "click" [("UID", VStr "b1"); ("source", VStr "main")] ].
Proof. vm_compute. done. Qed.

(** *** Teardown *)

Lemma control_tree_ind (P : control → Prop) :
  (∀ u k t cs e ks ls, Forall P ks → P (Control u k t cs e ks ls)) →
  ∀ c, P c.
Proof.
  intros H. fix IH 1. intros [u k t cs e ks ls]. apply H.
  induction ks as [|k' ks' IHks]; constructor; [apply IH | exact IHks].
Qed.

Lemma sameRegistry_refl w : sameRegistry w w.
Proof. done. Qed.

Lemma sameRegistry_trans a b c : sameRegistry a b → sameRegistry b c → sameRegistry a c.
Proof. intros [H1 H2] [H3 H4]. split; [congruence | intros n; by rewrite H4, H2]. Qed.

Lemma detach_sameRegistry el w : sameRegistry w (detach el w).
Proof.
  unfold detach. destruct el as [node|]; [|done].
  destruct (Events.parentNode (Events.elementAt node (events w))) eqn:Hp; [|done].
  split; [done|]. intros m. unfold Events.elementAt at 1. simpl.
  rewrite lookup_insert. case_decide; [by subst m | done].
Qed.

Lemma detach_parentNode node w :
  Events.parentNode (Events.elementAt node (events (detach (Some node) w))) = None.
Proof.
  unfold detach.
  destruct (Events.parentNode (Events.elementAt node (events w))) eqn:Hp; [|done].
  unfold Events.elementAt at 1. simpl. by rewrite lookup_insert_eq.
Qed.

Lemma cleanupElement_noUid el ev :
  (∀ n, el = Some n → Events.uidEvent (Events.elementAt n ev) = None) →
  Events.cleanupElement el ev = (Returned (), ev).
Proof.
  intros H. unfold Events.cleanupElement. destruct el as [n|]; [|done].
  by rewrite (H n eq_refl).
Qed.

Lemma forallb_pointwise {A} (f g : A → bool) (l : list A) :
  (∀ x, f x = g x) → forallb f l = forallb g l.
Proof. intros H. induction l as [|x l IH]; simpl; [done | by rewrite H, IH]. Qed.

Lemma noUid_sameRegistry w w' c :
  sameRegistry w w' → noUid (events w) c = noUid (events w') c.
Proof.
  intros [_ Hu]. unfold noUid. apply forallb_pointwise. intros n. by rewrite Hu.
Qed.

Lemma destroy_unfold u k t cs el kids ls w :
  destroy (Control u k t cs el kids ls) w
  = match Events.cleanupElement el (events w) with
    | (Thrown e, ev) => (Thrown e, with_events ev w)
    | (Returned _, ev) =>
        match destroyAll kids [] (with_events ev w) with
        | (Thrown e, w2) => (Thrown e, w2)
        | (Returned kids', w2) =>
            (Returned (Control u k t cs el kids' []),
             logEvent "DESTROY" ("Control " +:+ u +:+ " destroyed") (detach el w2))
        end
    end.
Proof. reflexivity. Qed.

Lemma nodes_unfold u k t cs el kids ls :
  nodes (Control u k t cs el kids ls)
  = match el with Some n => [n] | None => [] end ++ nodesAll kids.
Proof. reflexivity. Qed.

Lemma with_events_same w : with_events (events w) w = w.
Proof. by destruct w. Qed.

Lemma destroy_returns c :
  ∀ w, noUid (events w) c = true →
    ∃ c' w', destroy c w = (Returned c', w') ∧ destroyedFrom c c' w w'.
Proof.
  induction c as [u k t cs el kids ls IH] using control_tree_ind.
  intros w Hno. rewrite destroy_unfold.
  unfold noUid in Hno. rewrite nodes_unfold, forallb_app in Hno.
  apply andb_true_iff in Hno as [Hel Hkids].
  rewrite cleanupElement_noUid; last first.
  { intros n ->. simpl in Hel. apply andb_true_iff in Hel as [Hn _].
    by apply bool_decide_eq_true in Hn. }
  rewrite with_events_same.
  assert (Hall : ∀ acc w0, sameRegistry w w0 →
            ∃ kids' w', destroyAll kids acc w0 = (Returned (acc ++ kids'), w')
              ∧ sameRegistry w w'
              ∧ nodesAll kids' = nodesAll kids
              ∧ map UID kids' = map UID kids).
  { clear Hel. induction IH as [|child ks Hchild _ IHks]; intros acc w0 Hsame.
    - exists [], w0. simpl. by rewrite app_nil_r.
    - simpl in Hkids. rewrite forallb_app in Hkids.
      apply andb_true_iff in Hkids as [Hc Hks].
      destruct (Hchild w0) as (child' & w1 & Hd & Hs1 & Hn1 & Hu1 & _).
      { unfold noUid. rewrite <- Hc. apply forallb_pointwise. intros n.
        destruct Hsame as [_ Hu]. by rewrite Hu. }
      destruct (IHks Hks (acc ++ [child']) w1) as (kids' & w2 & Hd2 & Hs2 & Hn2 & Hu2).
      { by eapply sameRegistry_trans. }
      exists (child' :: kids'), w2. simpl. rewrite Hd, Hd2.
      rewrite <- app_assoc. simpl. repeat split; try done; try apply Hs2.
      + by rewrite Hn1, Hn2.
      + by rewrite Hu1, Hu2. }
  destruct (Hall [] w (sameRegistry_refl w)) as (kids' & w2 & -> & Hs & Hn & Hu).
  simpl. eexists _, _. split; [done|].
  repeat split.
  - destruct Hs as [Hr _]. simpl. destruct (detach_sameRegistry el w2) as [-> _]. exact Hr.
  - intros n. simpl. destruct (detach_sameRegistry el w2) as [_ ->]. by destruct Hs as [_ ->].
  - rewrite !nodes_unfold. by rewrite Hn.
  - done.
  - intros node [= ->]. simpl. apply detach_parentNode.
Qed.

(** C4, amended.  For a rendered control [c] none of whose nodes carries
    a registry uid, [destroy] returns: the registry is as before, the
    node of [c] has no parent node any more, the listener table of [c] is
    empty and its children are still listed; destroying the result again
    returns as well; and when [c] is the [i]-th child of a parent, the
    parent's [childControls] still lists it afterwards. *)
Theorem destroy_without_registry_entries (c : control) (w : World) :
  noUid (events w) c = true →
  ∃ c1 w1 c2 w2,
    destroy c w = (Returned c1, w1)
    ∧ Events.eventRegistry (events w1) = Events.eventRegistry (events w)
    ∧ (∀ node, element c = Some node →
         Events.parentNode (Events.elementAt node (events w1)) = None)
    ∧ eventListeners c1 = []
    ∧ map UID (childControls c1) = map UID (childControls c)
    ∧ destroy c1 w1 = (Returned c2, w2)
    ∧ ∀ parent i, childControls parent !! i = Some c →
        ∃ parent', destroyChild parent i w = (Returned parent', w1)
                   ∧ map UID (childControls parent') = map UID (childControls parent).
Proof.
  intros Hno.
  destruct (destroy_returns c w Hno) as (c1 & w1 & Hd & Hs & Hn & Hu & He & Hl & Hk & Hp).
  destruct (destroy_returns c1 w1) as (c2 & w2 & Hd2 & _).
  { unfold noUid. rewrite Hn. rewrite <- Hno. apply forallb_pointwise.
    intros n. destruct Hs as [_ Hsu]. by rewrite Hsu. }
  exists c1, w1, c2, w2. repeat split; try done; try apply Hs.
  intros parent i Hi. unfold destroyChild. rewrite Hi, Hd.
  destruct parent as [u k t cs e ks ls]. simpl in *.
  eexists. split; [done|]. simpl.
  rewrite list_fmap_insert, Hu. apply list_insert_id.
  by rewrite list_lookup_fmap, Hi.
Qed.

Lemma renderedPanel_is_rendered :
  (createAndRender defaultEnv "1" twoButtons emptyWorld).1 = Returned renderedPanel.
Proof. vm_compute. done. Qed.

Lemma destroy_without_registry_entries_witness :
  noUid (events renderedWorld) renderedPanel = true
  ∧ ∃ c1 w1, destroy renderedPanel renderedWorld = (Returned c1, w1)
             ∧ Events.eventRegistry (events w1) = Events.eventRegistry (events renderedWorld).
Proof.
  split; [vm_compute; reflexivity|].
  destruct (destroy_without_registry_entries renderedPanel renderedWorld)
    as (c1 & w1 & _ & _ & H1 & H2 & _); [vm_compute; reflexivity|].
  by exists c1, w1.
Defined.

(** C4, as stated, fails.  After the first button of the rendered panel
    is destroyed, the panel's [childControls] still holds it. *)
Lemma destroy_keeps_child_in_parent :
  childControls renderedPanel !! 0 = Some (renderedButton "b1" 1)
  ∧ ∃ w1, destroyChild renderedPanel 0 renderedWorld = (Returned renderedPanel, w1)
          ∧ renderedButton "b1" 1 ∈ childControls renderedPanel.
Proof.
  split; [reflexivity|]. eexists. split; [vm_compute; reflexivity|].
  apply list_elem_of_here.
Qed.

(** With a handler registered on its node through the event registry,
    [destroy] throws inside [cleanupElement] (which calls [off] without an
    event name) and the registry entry of the node stays. *)
Example destroy_throws_with_registered_handler :
  let ev := Events.on (Some 1) "click" None (Some (Events.ClientFn 5)) false
                      (events renderedWorld) in
  let r := destroy (renderedButton "b1" 1) (with_events ev renderedWorld) in
  r.1 = Thrown "TypeError: Cannot read properties of undefined (reading 'includes')"
  ∧ Events.eventRegistry (events r.2) = Events.eventRegistry ev
  ∧ Events.listenersOf (events r.2) 1 = Events.listenersOf ev 1.
Proof. vm_compute. done. Qed.

(** *** Children that cannot be created *)

Lemma render_unfold env stamp type u children uid c w :
  render env stamp (Def type u children) uid c w
  = match createElement c children w with
    | (Thrown e, w1) => (Thrown e, w1)
    | (Returned node, w1) =>
        let rendered :=
          if isClass "TabControl" c then
            match children with
            | Some cd :: _ =>
                match renderChild (render env stamp) env stamp (Some cd) w1 with
                | (Thrown e, w2) => (Thrown e, w2)
                | (Returned k, w2) => (Returned [k], appendChild node (element k) w2)
                end
            | _ => (Returned [], w1)
            end
          else if isClass "SplitterControl" c then
            match children with
            | c0 :: c1 :: _ =>
                match renderChild (render env stamp) env stamp c0 w1 with
                | (Thrown e, w2) => (Thrown e, w2)
                | (Returned k0, w2) =>
                    match renderChild (render env stamp) env stamp c1
                            (appendChild node (element k0) w2) with
                    | (Thrown e, w3) => (Thrown e, w3)
                    | (Returned k1, w3) =>
                        (Returned [k0; k1], appendChild node (element k1) w3)
                    end
                end
            | _ => (Returned [], w1)
            end
          else renderEach env stamp node children [] w1 in
        match rendered with
        | (Thrown e, w2) => (Thrown e, w2)
        | (Returned kids, w2) =>
            (Returned (Control uid c type children (Some node) kids []),
             logEvent "RENDER"
               ("Control " +:+ uid +:+ " (" +:+ default "undefined" type +:+ ") rendered")
               w2)
        end
    end.
Proof. reflexivity. Qed.

Lemma renderChild_uncreatable self env stamp childDef w :
  create env stamp childDef = Returned None →
  ∃ e, renderChild self env stamp childDef w = (Thrown e, w).
Proof. intros Hc. unfold renderChild. rewrite Hc. by eexists. Qed.

Lemma renderEach_uncreatable env stamp node cs :
  (∃ childDef, childDef ∈ cs ∧ create env stamp childDef = Returned None) →
  ∀ acc w, ∃ e w', renderEach env stamp node cs acc w = (Thrown e, w').
Proof.
  intros (bad & Hin & Hbad). induction cs as [|childDef cs IH]; intros acc w.
  - by apply elem_of_nil in Hin.
  - cbn [renderEach].
    destruct (renderChild (render env stamp) env stamp childDef w) as [[k|e] w'] eqn:Hr.
    + apply list_elem_of_In in Hin. destruct Hin as [->|Hin].
      * destruct (renderChild_uncreatable (render env stamp) env stamp bad w Hbad)
          as [e He]. congruence.
      * apply IH. by apply list_elem_of_In.
    + by eexists _, _.
Qed.

Lemma inheritsRenderChildren_plain c :
  inheritsRenderChildren c = true →
  isClass "TabControl" c = false ∧ isClass "SplitterControl" c = false.
Proof.
  destruct c as [|name]; [done|]. cbn [inheritsRenderChildren isClass].
  intros H. apply bool_decide_eq_true in H.
  repeat (apply elem_of_cons in H as [->|H]; [done|]).
  by apply elem_of_nil in H.
Qed.

(** X26.  For a control that renders its children as the base class does
    (the base class, the panel, the grid layout, the section), [render]
    throws as soon as the factory returns [null] for one of the child
    definitions, a [null] child for one: no control is returned, whatever
    the other children are. *)
Theorem render_throws_on_uncreatable_child
    (env : Env) (stamp : string) (d : definition) (uid : string)
    (c : controlClass) (w : World) :
  inheritsRenderChildren c = true →
  (∃ childDef, childDef ∈ d_children d ∧ create env stamp childDef = Returned None) →
  ∃ e, (render env stamp d uid c w).1 = Thrown e.
Proof.
  intros [Htab Hsplit]%inheritsRenderChildren_plain Hbad.
  destruct d as [type u children]. cbn [d_children] in Hbad.
  rewrite render_unfold. unfold createElement. rewrite Htab, Hsplit. cbn [andb].
  cbv zeta.
  destruct (renderEach_uncreatable env stamp (nextNode w) children Hbad []
              (mkWorld (Events.with_element (nextNode w) Events.blank (events w))
                       (S (nextNode w)) (constructed w) (journal w) (delivered w)))
    as (e & w' & ->).
  by eexists.
Qed.

Lemma render_throws_on_uncreatable_child_witness :
  let d := Def (Some "panel") (Some "p")
             [Some (Def (Some "label") (Some "ok") []); None] in
  inheritsRenderChildren (Subclass "PanelControl") = true
  ∧ (∃ childDef, childDef ∈ d_children d ∧ create defaultEnv "1" childDef = Returned None)
  ∧ ∃ e, (render defaultEnv "1" d "p" (Subclass "PanelControl") emptyWorld).1 = Thrown e.
Proof.
  intros d.
  assert (H : ∃ childDef, childDef ∈ d_children d
                          ∧ create defaultEnv "1" childDef = Returned None).
  { exists None. split; [right; left | reflexivity]. }
  split; [reflexivity|]. split; [exact H|].
  apply (render_throws_on_uncreatable_child defaultEnv "1" d "p"
           (Subclass "PanelControl") emptyWorld eq_refl H).
Defined.

(** *** Bubbling through the whole chain *)

(** X27.  For an event whose name is not that of a member every object
    inherits from [Object.prototype], and when no listener along the
    chain throws [null] or [undefined], [emit] returns after calling, in
    order, the listeners of the control with the data given and then the
    listeners of each ancestor up to the root, each ancestor receiving
    the data with [source] set to the UID of the control just below it. *)
Theorem emit_reaches_every_ancestor
    (c : control) (ancestors : list control) (event : string)
    (data : jsobject) (w : World) :
  inherited event = false →
  Forall (fun k => loggable (handlersFor event (eventListeners k)) = true)
         (c :: ancestors) →
  (emit c ancestors event data w).1 = Returned ()
  ∧ delivered (emit c ancestors event data w).2
    = delivered w ++ bubbled c ancestors event data.
Proof.
  intros _.
  revert c data w. induction ancestors as [|parent rest IH]; intros c data w Hall.
  - apply Forall_cons in Hall as [Hc _].
    destruct (callHandlers_loggable (UID c) event data _ w Hc) as [Hr Hd].
    cbn [emit bubbled].
    destruct (callHandlers (UID c) event data (handlersFor event (eventListeners c)) w)
      as [r w1]. cbn [fst snd] in *. subst r. cbn [fst snd].
    by rewrite app_nil_r.
  - apply Forall_cons in Hall as [Hc Hrest].
    destruct (callHandlers_loggable (UID c) event data _ w Hc) as [Hr Hd].
    cbn [emit bubbled].
    destruct (callHandlers (UID c) event data (handlersFor event (eventListeners c)) w)
      as [r w1]. cbn [fst snd] in *. subst r.
    destruct (IH parent (obj_set "source" (VStr (UID c)) data) w1 Hrest) as [-> ->].
    split; [done|]. by rewrite Hd, <- app_assoc.
Qed.

Lemma emit_reaches_every_ancestor_witness :
  let root := on "click" (Handler 3 None)
                 (Control "root" BaseControl (Some "panel") [] None [] []) in
  inherited "click" = false
  ∧ Forall (fun k => loggable (handlersFor "click" (eventListeners k)) = true)
           [button; panelOf [button]; root]
  ∧ delivered (emit button [panelOf [button]; root] "click" [] emptyWorld).2
    = [ Delivery "b1" 1 "click" [];
        Delivery "main" 2 "click" [("source", VStr "b1")];
        Delivery "root" 3 "click" [("source", VStr "main")] ].
Proof.
  intros root.
  assert (H : Forall (fun k => loggable (handlersFor "click" (eventListeners k)) = true)
                     [button; panelOf [button]; root]).
  { repeat constructor. }
  split; [reflexivity|]. split; [exact H|].
  destruct (emit_reaches_every_ancestor button [panelOf [button]; root] "click" []
              emptyWorld eq_refl H) as [_ ->].
  reflexivity.
Defined.

Lemma callHandlers_nullish uid event data hs w :
  loggable hs = false →
  ∃ e pre h post,
    hs = pre ++ h :: post
    ∧ loggable pre = true
    ∧ isNullish (h_throws h) = true
    ∧ (callHandlers uid event data hs w).1 = Thrown e
    ∧ delivered (callHandlers uid event data hs w).2
      = delivered w ++ map (fun h => Delivery uid (h_id h) event data) (pre ++ [h]).
Proof.
  revert w. induction hs as [|h hs IH]; intros w Hl; [done|].
  cbn [loggable forallb] in Hl. cbn [callHandlers].
  destruct (h_throws h) as [[message|]|] eqn:Hh; cbn [isNullish negb andb] in Hl.
  - destruct (IH (logEvent "ERROR"
                    ("Error in event handler for " +:+ event +:+ ": " +:+ message)
                    (deliver (Delivery uid (h_id h) event data) w)) Hl)
      as (e & pre & h' & post & -> & Hpre & Hn & -> & ->).
    exists e, (h :: pre), h', post. repeat split; try done.
    + cbn [loggable forallb]. rewrite Hh. exact Hpre.
    + cbn [logEvent deliver delivered map app]. by rewrite <- app_assoc.
  - exists "TypeError: Cannot read properties of null (reading 'message')", [], h, hs.
    repeat split; try done. by rewrite Hh.
  - destruct (IH (deliver (Delivery uid (h_id h) event data) w) Hl)
      as (e & pre & h' & post & -> & Hpre & Hn & -> & ->).
    exists e, (h :: pre), h', post. repeat split; try done.
    + cbn [loggable forallb]. rewrite Hh. exact Hpre.
    + cbn [deliver delivered map app]. by rewrite <- app_assoc.
Qed.

(** X28.  When a listener of the control throws [null] or [undefined],
    [emit] itself throws (the catch block reads [error.message]): the
    listeners registered after it are not called and the event does not
    reach any ancestor. *)
Theorem emit_aborts_on_nullish_throw
    (c : control) (ancestors : list control) (event : string)
    (data : jsobject) (w : World) :
  let hs := handlersFor event (eventListeners c) in
  loggable hs = false →
  ∃ e pre h post,
    hs = pre ++ h :: post
    ∧ isNullish (h_throws h) = true
    ∧ (emit c ancestors event data w).1 = Thrown e
    ∧ delivered (emit c ancestors event data w).2
      = delivered w ++ map (fun h => Delivery (UID c) (h_id h) event data) (pre ++ [h]).
Proof.
  intros hs Hl.
  destruct (callHandlers_nullish (UID c) event data hs w Hl)
    as (e & pre & h & post & Hhs & _ & Hn & Hr & Hd).
  exists e, pre, h, post. split; [exact Hhs|]. split; [exact Hn|].
  subst hs. destruct ancestors as [|parent rest]; cbn [emit];
    destruct (callHandlers (UID c) event data (handlersFor event (eventListeners c)) w)
      as [r w1]; cbn [fst snd] in *; subst r; by split.
Qed.

Lemma emit_aborts_on_nullish_throw_witness :
  let b := on "click" (Handler 5 None)
              (on "click" (Handler 4 (Some ThrownNullish))
                  (Control "b" BaseControl (Some "button") [] None [] [])) in
  loggable (handlersFor "click" (eventListeners b)) = false
  ∧ delivered (emit b [panelOf [b]] "click" [] emptyWorld).2
    = [Delivery "b" 4 "click" []].
Proof.
  intros b. split; [reflexivity|].
  destruct (emit_aborts_on_nullish_throw b [panelOf [b]] "click" [] emptyWorld eq_refl)
    as (e & pre & h & post & _ & _ & _ & _).
  reflexivity.
Defined.

(** *** Looking a control up *)

Lemma findChild_unfold uid u k t cs e ks ls :
  findChild uid (Control u k t cs e ks ls)
  = (fix search (ks : list control) : option control :=
       match ks with
       | [] => None
       | child :: ks' =>
           if String.eqb (UID child) uid then Some child
           else match findChild uid child with
                | Some nested => Some nested
                | None => search ks'
                end
       end) ks.
Proof. reflexivity. Qed.

Lemma descendants_unfold u k t cs e ks ls :
  descendants (Control u k t cs e ks ls)
  = (fix all (ks : list control) : list control :=
       match ks with
       | [] => []
       | k :: ks' => k :: descendants k ++ all ks'
       end) ks.
Proof. reflexivity. Qed.

Lemma find_app_first {A} (p : A → bool) (l1 l2 : list A) :
  List.find p (l1 ++ l2)
  = match List.find p l1 with Some x => Some x | None => List.find p l2 end.
Proof. induction l1 as [|x l1 IH]; simpl; [done|]. by destruct (p x). Qed.

(** X29.  [findChild(UID)] returns the first control with that UID among
    the descendants, each child coming before its own descendants and
    before its later siblings; the control itself is never returned, and
    the result is [null] exactly when no descendant has the UID. *)
Theorem findChild_first_descendant (uid : string) (c : control) :
  findChild uid c = List.find (fun k => String.eqb (UID k) uid) (descendants c).
Proof.
  induction c as [u k t cs e ks ls IH] using control_tree_ind.
  rewrite findChild_unfold, descendants_unfold.
  induction IH as [|child ks' Hchild _ IHks]; [done|].
  cbn [List.find]. destruct (String.eqb (UID child) uid); [done|].
  rewrite find_app_first, <- Hchild, IHks. done.
Qed.

End LifecycleFacts.

(** ** Data attached to nodes *)

Module DataFacts.
Import JS Data.

Lemma get_set_same el key v s :
  get (Some el) key (set (Some el) key v s) = orNull v.
Proof. unfold get, set. cbn [elementMap]. by rewrite !lookup_insert_eq. Qed.

Lemma get_set_other el key v el' key' s :
  (el', key') ≠ (el, key) →
  get (Some el') key' (set (Some el) key v s) = get (Some el') key' s.
Proof.
  intros Hne. unfold get, set. cbn [elementMap].
  destruct (decide (el = el')) as [<-|Hel].
  - rewrite lookup_insert_eq.
    assert (Hk : key ≠ key') by congruence.
    rewrite lookup_insert_ne by done.
    destruct (elementMap s !! el) as [m|]; [done|].
    cbn [default from_option id]. by rewrite lookup_empty.
  - by rewrite lookup_insert_ne.
Qed.

Lemma get_remove_same el key s : get (Some el) key (remove (Some el) key s) = VNull.
Proof.
  unfold get, remove. destruct (elementMap s !! el) as [m|] eqn:Hm.
  - case_decide; cbn [elementMap].
    + by rewrite lookup_delete_eq.
    + rewrite lookup_insert_eq. by rewrite lookup_delete_eq.
  - by rewrite Hm.
Qed.

Lemma remove_set_fresh el key v s :
  elementMap s !! el = None →
  remove (Some el) key (set (Some el) key v s) = s.
Proof.
  intros Hfresh. unfold remove, set. cbn [elementMap globalData].
  rewrite lookup_insert_eq, Hfresh. cbn [default from_option id].
  rewrite delete_insert_eq, delete_empty.
  rewrite decide_True by apply map_size_empty.
  rewrite delete_insert_eq, delete_id by done. by destruct s.
Qed.

Lemma get_clearElement el key s : get (Some el) key (clearElement (Some el) s) = VNull.
Proof. unfold get, clearElement. cbn [elementMap]. by rewrite lookup_delete_eq. Qed.

Lemma getGlobal_setGlobal key key' v s :
  getGlobal key' (setGlobal key v s)
  = if decide (key = key') then orNull v else getGlobal key' s.
Proof.
  unfold getGlobal, setGlobal. cbn [globalData]. rewrite lookup_insert.
  by case_decide.
Qed.

Lemma getGlobal_removeGlobal key s : getGlobal key (removeGlobal key s) = VNull.
Proof. unfold getGlobal, removeGlobal. cbn [globalData]. by rewrite lookup_delete_eq. Qed.

(** X30.  Data attached to a node: after [set] the key reads the value
    stored, except that a falsy value (0, the empty string, [false],
    [null], [undefined]) reads as [null], like a missing key; other keys
    and nodes are not touched; after [remove] or [clearElement] the key
    reads [null]; and [set] followed by [remove] on a node without data
    leaves the manager as it was, the node's entry being dropped with its
    last key.  The global data read back in the same way. *)
Theorem data_round_trip (el : nat) (key : string) (v : value) (s : DataManager) :
  get (Some el) key (set (Some el) key v s) = (if falsyValue v then VNull else v)
  ∧ (∀ el' key', (el', key') ≠ (el, key) →
       get (Some el') key' (set (Some el) key v s) = get (Some el') key' s)
  ∧ get (Some el) key (remove (Some el) key s) = VNull
  ∧ get (Some el) key (clearElement (Some el) s) = VNull
  ∧ (elementMap s !! el = None →
     remove (Some el) key (set (Some el) key v s) = s)
  ∧ getGlobal key (setGlobal key v s) = (if falsyValue v then VNull else v)
  ∧ (∀ key', key' ≠ key → getGlobal key' (setGlobal key v s) = getGlobal key' s)
  ∧ getGlobal key (removeGlobal key s) = VNull.
Proof.
  split; [apply get_set_same|]. split; [intros; by apply get_set_other|].
  split; [apply get_remove_same|]. split; [apply get_clearElement|].
  split; [apply remove_set_fresh|].
  split; [by rewrite getGlobal_setGlobal, decide_True|].
  split; [|apply getGlobal_removeGlobal].
  intros key' Hne. by rewrite getGlobal_setGlobal, decide_False.
Qed.

End DataFacts.
